(** * Gmail MCP server: batch execution engine and OAuth credential flow

    A shallow embedding of two parts of the server:

    - [processBatches], the chunked batch helper of the tool handlers
      (tool-handlers.ts), and
    - [authenticate] / [loadCredentials], the OAuth authorization-code
      flow with its local callback listener (index.ts).

    Around them, the development covers the handlers that build and
    send a message and that change the labels of one
    ([handleEmailAction] and the [switch] of [handleToolCall]), the
    encoding of the raw message text, the list of attachments of
    [read_email], and the expansion of the configured paths
    ([expandTilde]).

    JavaScript values are modelled as follows.  Arrays are lists; a
    [number] used as an index or a size is an integer in [Z] (fractional
    sizes are outside the model); a call that may throw returns a sum
    whose left injection is the thrown error; a caller-supplied or
    platform function that may have side effects threads an explicit
    world state.  What the platform provides (the URL parser, the
    operating system behind [server.listen], the remote token endpoint)
    is a parameter of the flow; the file system is a finite map from
    paths to contents. *)

From stdpp Require Import base list strings gmap.
From Stdlib Require Import ZArith Lia Ascii DecimalString DecimalN.

Local Open Scope Z_scope.

(** ** Recording the calls made to an effectful function

    [logged f] behaves like [f] and appends every argument it receives
    to a log kept next to the world state.  Nothing in the embedded code
    reads the log: it is the effect of an operation that happens to
    remember how it was called, which is how the sequence of calls made
    by the code under study becomes observable. *)

Definition logged {A S R : Type} (f : A -> S -> R * S)
    (a : A) (sl : S * list A) : R * (S * list A) :=
  let '(r, s') := f a sl.1 in (r, (s', sl.2 ++ [a])).

(** ** The batch engine *)

Module Batch.

(** [Array.prototype.slice(start, end)]: negative positions count from
    the end of the array, positions are clamped to the array, and an
    empty range yields the empty array. *)
Definition slice {A : Type} (l : list A) (start end_ : Z) : list A :=
  let len := Z.of_nat (length l) in
  let k := if start <? 0 then Z.max (len + start) 0 else Z.min start len in
  let final := if end_ <? 0 then Z.max (len + end_) 0 else Z.min end_ len in
  take (Z.to_nat (final - k)) (drop (Z.to_nat k) l).

Section engine.
Context {T U E W : Type}.

(** The caller's operation, [processFn : (batch: T[]) => Promise<U[]>].
    [inr results] is a fulfilled promise, [inl error] a rejected one
    (an exception at the [await]).  The operation may depend on and
    change the outside world [W]. *)
Variable processFn : list T -> W -> (E + list U) * W.

(** [{ successes: U[], failures: { item: T, error: Error }[] }] *)
Record BatchResult := {
  successes : list U;
  failures : list (T * E)
}.

(** The body of the inner [for (const item of batch)] loop. *)
Definition retryItem (item : T) (acc : BatchResult * W) : BatchResult * W :=
  match processFn [item] acc.2 with
  | (inr result, w') =>
      ({| successes := successes acc.1 ++ result;
          failures := failures acc.1 |}, w')
  | (inl itemError, w') =>
      ({| successes := successes acc.1;
          failures := failures acc.1 ++ [(item, itemError)] |}, w')
  end.

(** The [try { ... } catch { ... }] applied to one batch. *)
Definition processBatch (batch : list T) (acc : BatchResult * W)
    : BatchResult * W :=
  match processFn batch acc.2 with
  | (inr results, w') =>
      ({| successes := successes acc.1 ++ results;
          failures := failures acc.1 |}, w')
  | (inl _, w') =>
      fold_left (fun a item => retryItem item a) batch (acc.1, w')
  end.

(** [for (let i = 0; i < items.length; i += batchSize)], one unit of
    fuel per test of the loop condition.  [None] means that the fuel
    ran out before the condition became false. *)
Fixpoint loop (fuel : nat) (items : list T) (batchSize i : Z)
    (acc : BatchResult * W) : option (BatchResult * W) :=
  match fuel with
  | O => None
  | S fuel' =>
      if i <? Z.of_nat (length items) then
        let batch := slice items i (i + batchSize) in
        loop fuel' items batchSize (i + batchSize) (processBatch batch acc)
      else Some acc
  end.

Definition processBatches (fuel : nat) (items : list T) (batchSize : Z)
    (w : W) : option (BatchResult * W) :=
  loop fuel items batchSize 0 ({| successes := []; failures := [] |}, w).

(** *** Outcomes per item

    An outcome pairs an input item with what became of it: a result
    or the error of its individual retry. *)
Definition ok_of (o : T * (E + U)) : option U :=
  match o.2 with inr u => Some u | inl _ => None end.

Definition err_of (o : T * (E + U)) : option (T * E) :=
  match o.2 with inl e => Some (o.1, e) | inr _ => None end.

Definition oks (outs : list (T * (E + U))) : list U := omap ok_of outs.
Definition errs (outs : list (T * (E + U))) : list (T * E) := omap err_of outs.

(** The outcomes of a batch whose whole-batch call returned [results]. *)
Definition paired (batch : list T) (results : list U) : list (T * (E + U)) :=
zip batch (inr <$> results).

(** The operation yields exactly one result per item of the batch it
    was given whenever it succeeds. *)
Definition one_result_per_item : Prop :=
  forall batch w results w',
    processFn batch w = (inr results, w') -> length results = length batch.

(** *** The behaviour the specification describes

    Contiguous chunks of [n] items, the last one possibly shorter. *)
Fixpoint chunks_aux (fuel n : nat) (l : list T) : list (list T) :=
  match fuel with
  | O => []
  | S fuel' =>
      match l with
      | [] => []
      | _ => take n l :: chunks_aux fuel' n (drop n l)
      end
  end.

Definition chunks (n : nat) (l : list T) : list (list T) :=
  chunks_aux (length l) n l.

(** [retried chunk w calls ss fs w']: retrying the items of [chunk]
    one by one, in order, from world [w] makes the calls [calls],
    yields the successes [ss] and the failures [fs], and ends in
    world [w']. *)
Inductive retried : list T -> W -> list (list T) -> list U ->
    list (T * E) -> W -> Prop :=
| retried_nil w : retried [] w [] [] [] w
| retried_ok item rest w result w1 calls ss fs w' :
    processFn [item] w = (inr result, w1) ->
    retried rest w1 calls ss fs w' ->
    retried (item :: rest) w ([item] :: calls) (result ++ ss) fs w'
| retried_failed item rest w itemError w1 calls ss fs w' :
    processFn [item] w = (inl itemError, w1) ->
    retried rest w1 calls ss fs w' ->
    retried (item :: rest) w ([item] :: calls) ss ((item, itemError) :: fs) w'.

(** [batch_run cs w calls ss fs w']: running the chunks [cs] in
    order.  A chunk whose whole-chunk call succeeds costs that one
    call; a chunk whose whole-chunk call throws is retried item by
    item. *)
Inductive batch_run : list (list T) -> W -> list (list T) -> list U ->
    list (T * E) -> W -> Prop :=
| run_done w : batch_run [] w [] [] [] w
| run_chunk_ok chunk rest w results w1 calls ss fs w' :
    processFn chunk w = (inr results, w1) ->
    batch_run rest w1 calls ss fs w' ->
    batch_run (chunk :: rest) w (chunk :: calls) (results ++ ss) fs w'
| run_chunk_retried chunk rest w error w1 rcalls rss rfs w2 calls ss fs w' :
    processFn chunk w = (inl error, w1) ->
    retried chunk w1 rcalls rss rfs w2 ->
    batch_run rest w2 calls ss fs w' ->
    batch_run (chunk :: rest) w (chunk :: rcalls ++ calls)
      (rss ++ ss) (rfs ++ fs) w'.

End engine.

Arguments BatchResult : clear implicits.

End Batch.

(** Examples of operations, used to run the engine on concrete input. *)
Module BatchExample.

(** Echoes its batch, one result per item, except that it throws on
    the batch [bad]. *)
Definition failsOn (bad : list string) (batch : list string) (w : unit)
    : (string + list string) * unit :=
  if decide (batch = bad) then (inl "batch rejected"%string, w)
  else (inr batch, w).

(** Echoes its batch unless it contains the item [poison]. *)
Definition failsWith (poison : string) (batch : list string) (w : unit)
    : (string + list string) * unit :=
  if decide (poison ∈ batch) then (inl "bad item"%string, w)
  else (inr batch, w).

End BatchExample.

(** ** JSON text of a credentials record

    The token set handed out by the OAuth client library is a flat
    JavaScript object whose properties hold strings, numbers, booleans
    or [null] ([access_token], [refresh_token], [scope], [token_type],
    [id_token], [expiry_date]).  It is modelled as the list of its
    properties in property order.  A character of a [string] stands for
    one code unit below 256, and a number for an integral value; the
    UTF-8 encoding that [writeFileSync] applies and
    [readFileSync(..., 'utf8')] undoes is not modelled. *)

Module Json.

Local Open Scope string_scope.

Inductive jvalue :=
| JNull
| JBool (b : bool)
| JNumber (n : Z)
| JString (s : string).

Definition Credentials := list (string * jvalue).

Definition dquote : ascii := ascii_of_N 34.
Definition backslash : ascii := ascii_of_N 92.

(** Decimal digits of a natural number, as [Number.prototype.toString]
    prints an integral value below 10^21. *)
Definition print_N (n : N) : string :=
  NilEmpty.string_of_uint (N.to_uint n).

Definition print_Z (n : Z) : string :=
  if (n <? 0)%Z then String "-" (print_N (Z.abs_N n)) else print_N (Z.to_N n).

(** *** [JSON.stringify] *)

Definition hexdigit (n : N) : ascii :=
  if (n <? 10)%N then ascii_of_N (48 + n) else ascii_of_N (87 + n).

(** [QuoteJSONString] on one code unit: the quotation mark and the
    backslash are escaped, control characters use their short escape
    or a lower-case [\u00XX]. *)
Definition quote_char (c : ascii) : string :=
  let n := N_of_ascii c in
  if (n =? 34)%N then String backslash (String dquote EmptyString)
  else if (n =? 92)%N then String backslash (String backslash EmptyString)
  else if (n =? 8)%N then String backslash "b"
  else if (n =? 12)%N then String backslash "f"
  else if (n =? 10)%N then String backslash "n"
  else if (n =? 13)%N then String backslash "r"
  else if (n =? 9)%N then String backslash "t"
  else if (n <? 32)%N then
    String backslash
      (String "u" (String "0" (String "0"
        (String (hexdigit (n / 16)) (String (hexdigit (n mod 16)) EmptyString)))))
  else String c EmptyString.

Fixpoint quote_body (s : string) : string :=
  match s with
  | EmptyString => EmptyString
  | String c s' => quote_char c ++ quote_body s'
  end.

Definition quote (s : string) : string :=
  String dquote (quote_body s ++ String dquote EmptyString).

Definition print_value (v : jvalue) : string :=
  match v with
  | JNull => "null"
  | JBool true => "true"
  | JBool false => "false"
  | JNumber n => print_Z n
  | JString s => quote s
  end.

Definition print_member (m : string * jvalue) : string :=
  quote m.1 ++ ":" ++ print_value m.2.

Fixpoint print_members (ms : Credentials) : string :=
  match ms with
  | [] => EmptyString
  | [m] => print_member m
  | m :: ms' => print_member m ++ "," ++ print_members ms'
  end.

(** [JSON.stringify(tokens)], without indentation. *)
Definition JSON_stringify (tokens : Credentials) : string :=
  "{" ++ print_members tokens ++ "}".

(** *** [JSON.parse] *)

Definition is_ws (c : ascii) : bool :=
  let n := N_of_ascii c in
  (n =? 32)%N || (n =? 9)%N || (n =? 10)%N || (n =? 13)%N.

Fixpoint skip_ws (s : string) : string :=
  match s with
  | String c s' => if is_ws c then skip_ws s' else s
  | EmptyString => s
  end.

Definition is_digit (c : ascii) : bool :=
  let n := N_of_ascii c in (48 <=? n)%N && (n <=? 57)%N.

(** The longest prefix of digits, and what follows it. *)
Fixpoint span_digits (s : string) : string * string :=
  match s with
  | String c s' =>
      if is_digit c then
        let '(ds, rest) := span_digits s' in (String c ds, rest)
      else (EmptyString, s)
  | EmptyString => (EmptyString, EmptyString)
  end.

Definition hexval (c : ascii) : option N :=
  let n := N_of_ascii c in
  if (48 <=? n)%N && (n <=? 57)%N then Some (n - 48)%N
  else if (97 <=? n)%N && (n <=? 102)%N then Some (n - 87)%N
  else if (65 <=? n)%N && (n <=? 70)%N then Some (n - 55)%N
  else None.

Definition hex4 (a b c d : ascii) : option N :=
  match hexval a, hexval b, hexval c, hexval d with
  | Some x, Some y, Some z, Some t => Some (((x * 16 + y) * 16 + z) * 16 + t)%N
  | _, _, _, _ => None
  end.

(** The character denoted by a one-letter escape. *)
Definition unescape (e : ascii) : option ascii :=
  let n := N_of_ascii e in
  if (n =? 34)%N then Some dquote
  else if (n =? 92)%N then Some backslash
  else if (n =? 47)%N then Some "/"%char
  else if (n =? 98)%N then Some (ascii_of_N 8)
  else if (n =? 102)%N then Some (ascii_of_N 12)
  else if (n =? 110)%N then Some (ascii_of_N 10)
  else if (n =? 114)%N then Some (ascii_of_N 13)
  else if (n =? 116)%N then Some (ascii_of_N 9)
  else None.

Definition prepend (c : ascii) (r : option (string * string))
    : option (string * string) :=
  match r with
  | Some (str, rest) => Some (String c str, rest)
  | None => None
  end.

(** The characters of a string literal after its opening quotation
    mark, and the text after its closing one.  A raw control character
    or an unknown escape is a syntax error; a [\uXXXX] of 256 or more
    has no counterpart in the model. *)
Fixpoint parse_chars (s : string) : option (string * string) :=
  match s with
  | EmptyString => None
  | String c s1 =>
      if (N_of_ascii c =? 34)%N then Some (EmptyString, s1)
      else if (N_of_ascii c =? 92)%N then
        match s1 with
        | EmptyString => None
        | String e s2 =>
            if (N_of_ascii e =? 117)%N then
              match s2 with
              | String h1 (String h2 (String h3 (String h4 s3))) =>
                  match hex4 h1 h2 h3 h4 with
                  | Some n =>
                      if (n <? 256)%N then prepend (ascii_of_N n) (parse_chars s3)
                      else None
                  | None => None
                  end
              | _ => None
              end
            else
              match unescape e with
              | Some ch => prepend ch (parse_chars s2)
              | None => None
              end
        end
      else if (N_of_ascii c <? 32)%N then None
      else prepend c (parse_chars s1)
  end.

(** [strip p s] is what follows [p] in [s], if [s] starts with [p]. *)
Fixpoint strip (p s : string) : option string :=
  match p, s with
  | EmptyString, _ => Some s
  | String a p', String b s' => if Ascii.eqb a b then strip p' s' else None
  | String _ _, EmptyString => None
  end.

Definition starts_fraction_or_exponent (s : string) : bool :=
  match s with
  | String c _ =>
      let n := N_of_ascii c in (n =? 46)%N || (n =? 101)%N || (n =? 69)%N
  | EmptyString => false
  end.

(** An integer literal: an optional minus sign and digits without a
    superfluous leading zero, that is, the digits are the canonical
    decimal of their value.  A literal with a fraction or an exponent
    denotes a value outside the model. *)
Definition parse_number (s : string) : option (jvalue * string) :=
  let '(negative, s1) :=
    match s with
    | String c s' => if (N_of_ascii c =? 45)%N then (true, s') else (false, s)
    | EmptyString => (false, s)
    end in
  let '(ds, rest) := span_digits s1 in
  match ds with
  | EmptyString => None
  | _ =>
      if starts_fraction_or_exponent rest then None
      else
        match NilEmpty.uint_of_string ds with
        | Some u =>
            let n := N.of_uint u in
            if String.eqb (print_N n) ds then
              Some (JNumber (if negative then - Z.of_N n else Z.of_N n)%Z, rest)
            else None
        | None => None
        end
  end.

Definition parse_value (s : string) : option (jvalue * string) :=
  match s with
  | EmptyString => None
  | String c s1 =>
      let n := N_of_ascii c in
      if (n =? 34)%N then
        match parse_chars s1 with
        | Some (str, rest) => Some (JString str, rest)
        | None => None
        end
      else if (n =? 110)%N then
        match strip "ull" s1 with Some rest => Some (JNull, rest) | None => None end
      else if (n =? 116)%N then
        match strip "rue" s1 with Some rest => Some (JBool true, rest) | None => None end
      else if (n =? 102)%N then
        match strip "alse" s1 with Some rest => Some (JBool false, rest) | None => None end
      else parse_number s
  end.

(** Defining a property on the object under construction: a property
    parsed again keeps its place and takes the later value. *)
Fixpoint assoc_set (k : string) (v : jvalue) (o : Credentials) : Credentials :=
  match o with
  | [] => [(k, v)]
  | (k', v') :: o' =>
      if String.eqb k k' then (k, v) :: o' else (k', v') :: assoc_set k v o'
  end.

(** The members of an object, from the opening quotation mark of a
    property name to the closing brace. *)
Fixpoint parse_members (fuel : nat) (s : string) (acc : Credentials)
    : option (Credentials * string) :=
  match fuel with
  | O => None
  | S fuel' =>
      match s with
      | String q s1 =>
          if (N_of_ascii q =? 34)%N then
            match parse_chars s1 with
            | Some (key, r1) =>
                match strip ":" (skip_ws r1) with
                | Some r2 =>
                    match parse_value (skip_ws r2) with
                    | Some (v, r3) =>
                        let acc' := assoc_set key v acc in
                        match skip_ws r3 with
                        | String d r4 =>
                            if (N_of_ascii d =? 44)%N then
                              parse_members fuel' (skip_ws r4) acc'
                            else if (N_of_ascii d =? 125)%N then Some (acc', r4)
                            else None
                        | EmptyString => None
                        end
                    | None => None
                    end
                | None => None
                end
            | None => None
            end
          else None
      | EmptyString => None
      end
  end.

(** [JSON.parse(text)] on a text that denotes a flat object.  [None]
    says that the text is not one: it is either a text on which
    [JSON.parse] throws a [SyntaxError], or a well-formed text whose
    value the model cannot hold (a value that is not an object, a nested
    value, a number with a fraction or an exponent, a code unit of 256
    or more); the model does not tell the two apart, and what the
    program does on such a text is left open (see [loadCredentials]).
    The result stands for the object of the program when its numbers
    are integers that a JavaScript number holds exactly ([wf_value]) and
    no property name is an array index, as is the case for the text of
    a token set; a larger integer would be rounded, and index-like
    property names would be enumerated first. *)
Definition JSON_parse (text : string) : option Credentials :=
  match strip "{" (skip_ws text) with
  | Some r =>
      match strip "}" (skip_ws r) with
      | Some r' =>
          match skip_ws r' with EmptyString => Some [] | String _ _ => None end
      | None =>
          match parse_members (String.length text) (skip_ws r) [] with
          | Some (obj, r') =>
              match skip_ws r' with EmptyString => Some obj | String _ _ => None end
          | None => None
          end
      end
  | None => None
  end.

(** What follows a value inside an object: a comma or the closing
    brace. *)
Definition closes_value (rest : string) : Prop :=
  exists r, rest = String "," r \/ rest = String "}" r.

(** The largest integer that a number holds exactly. *)
Definition MAX_SAFE_INTEGER : Z := 9007199254740991.

Definition wf_value (v : jvalue) : Prop :=
  match v with
  | JNumber n => (- MAX_SAFE_INTEGER <= n <= MAX_SAFE_INTEGER)%Z
  | _ => True
  end.

(** A credentials record is an object (its property names are
    distinct) whose numbers are integral values that a JavaScript
    number holds exactly; such a number is printed as its plain
    decimal. *)
Definition wf_credentials (tokens : Credentials) : Prop :=
  NoDup tokens.*1 /\ Forall (fun m => wf_value m.2) tokens.

End Json.

(** ** The file system *)

Module Fs.

(** [message] of an [Error]. *)
Record Error := { message : string }.

(** A file system holds the files by path; a write to a path in
    [unwritable] throws. *)
Record FS := {
  files : gmap string string;
  unwritable : gset string
}.

Definition existsSync (path : string) (fs : FS) : bool :=
  bool_decide (is_Some (files fs !! path)).

(** [fs.readFileSync(path, 'utf8')] *)
Definition readFileSync (path : string) (fs : FS) : Error + string :=
  match files fs !! path with
  | Some text => inr text
  | None => inl {| message := "ENOENT: no such file or directory" |}
  end.

(** [fs.writeFileSync(path, data)]: creates the file or replaces its
    contents. *)
Definition writeFileSync (path data : string) (fs : FS) : Error + FS :=
  if decide (path ∈ unwritable fs) then
    inl {| message := "EACCES: permission denied" |}
  else inr {| files := <[path := data]> (files fs); unwritable := unwritable fs |}.

End Fs.

(** ** The authorization flow *)

Module OAuth.
Import Json Fs.

Local Open Scope string_scope.

(** The parts of a [URL] object that the code reads.  [port] is [None]
    for the empty string and [Some n] for the decimal digits of [n],
    which is what [parseInt(u.port)] returns; [searchParams] lists the
    decoded name/value pairs of the query in order. *)
Record URL := {
  hostname : string;
  pathname : string;
  port : option N;
  searchParams : list (string * string)
}.

(** [url.searchParams.get(name)]: the value of the first pair named
    [name], or [null]. *)
Fixpoint searchParams_get (params : list (string * string)) (name : string)
    : option string :=
  match params with
  | [] => None
  | (k, v) :: rest => if String.eqb k name then Some v else searchParams_get rest name
  end.

(** The OAuth client configuration read from the keys file. *)
Record OAuthKeys := {
  keys_client_id : string;
  keys_client_secret : string
}.

(** [OAuth2Client]: the client identifier and secret, the configured
    redirect URI and the current credentials. *)
Record OAuth2Client := {
  client_id : string;
  client_secret : string;
  redirectUri : string;
  credentials : Credentials
}.

(** [new OAuth2Client(clientId, clientSecret, redirectUri)] *)
Definition new_OAuth2Client (id secret uri : string) : OAuth2Client :=
  {| client_id := id; client_secret := secret; redirectUri := uri;
     credentials := [] |}.

(** [client.setCredentials(tokens)] *)
Definition setCredentials (tokens : Credentials) (client : OAuth2Client)
    : OAuth2Client :=
  {| client_id := client_id client; client_secret := client_secret client;
     redirectUri := redirectUri client; credentials := tokens |}.

(** The authorization URL, as its endpoint and its query parameters
    before encoding. *)
Record AuthUrl := {
  endpoint : string;
  params : list (string * string)
}.

(** Modelled from the spec: the OAuth client library is not part of the
    repository.  The authorization URL carries the access type, the
    requested scopes, the response type, the client identifier and the
    redirect URI configured in the client. *)
Definition generateAuthUrl (client : OAuth2Client) (access_type : string)
    (scope : list string) : AuthUrl :=
  {| endpoint := "https://accounts.google.com/o/oauth2/v2/auth";
     params := [("access_type", access_type);
                ("scope", String.concat " " scope);
                ("response_type", "code");
                ("client_id", client_id client);
                ("redirect_uri", redirectUri client)] |}.

(** The request sent to the token endpoint. *)
Record TokenRequest := {
  tr_code : string;
  tr_client_id : string;
  tr_client_secret : string;
  tr_redirect_uri : string;
  tr_grant_type : string
}.

(** A bind error, with its [code]. *)
Record SystemError := { code : string }.

(** [server.address()] of a listening TCP server. *)
Record AddressInfo := {
  address : string;
  family : string;
  addr_port : N
}.

(** The promise returned by [authenticate]: settled at most once. *)
Inductive Promise :=
| Pending
| Fulfilled
| Rejected (error : Error).

Definition settle (outcome p : Promise) : Promise :=
  match p with
  | Pending => outcome
  | _ => p
  end.

Record Response := { status : N; body : string }.

(** The state of a flow whose listener is bound: the module-level
    [oauth2Client], the parts of the callback, the URL shown to the
    user, whether the server accepts connections, the promise, the
    responses written so far, and whether an exception escaped the
    request handler. *)
Record Flow := {
  oauth2Client : OAuth2Client;
  host : string;
  pathName : string;
  finalPort : N;
  authUrl : AuthUrl;
  listening : bool;
  promise : Promise;
  responses : list Response;
  unhandled : bool
}.

(** [res.writeHead(status); res.end(body)] *)
Definition respond (st : N) (b : string) (f : Flow) : Flow :=
  {| oauth2Client := oauth2Client f; host := host f; pathName := pathName f;
     finalPort := finalPort f; authUrl := authUrl f; listening := listening f;
     promise := promise f;
     responses := responses f ++ [{| status := st; body := b |}];
     unhandled := unhandled f |}.

Definition settle_flow (outcome : Promise) (f : Flow) : Flow :=
  {| oauth2Client := oauth2Client f; host := host f; pathName := pathName f;
     finalPort := finalPort f; authUrl := authUrl f; listening := listening f;
     promise := settle outcome (promise f);
     responses := responses f; unhandled := unhandled f |}.

(** [resolve()] and [reject(error)] *)
Definition resolve (f : Flow) : Flow := settle_flow Fulfilled f.
Definition reject (error : Error) (f : Flow) : Flow := settle_flow (Rejected error) f.

(** [server.close()]: the server stops accepting new connections. *)
Definition close (f : Flow) : Flow :=
  {| oauth2Client := oauth2Client f; host := host f; pathName := pathName f;
     finalPort := finalPort f; authUrl := authUrl f; listening := false;
     promise := promise f; responses := responses f;
     unhandled := unhandled f |}.

Definition with_client (client : OAuth2Client) (f : Flow) : Flow :=
  {| oauth2Client := client; host := host f; pathName := pathName f;
     finalPort := finalPort f; authUrl := authUrl f; listening := listening f;
     promise := promise f; responses := responses f;
     unhandled := unhandled f |}.

Definition escaped (f : Flow) : Flow :=
  {| oauth2Client := oauth2Client f; host := host f; pathName := pathName f;
     finalPort := finalPort f; authUrl := authUrl f; listening := listening f;
     promise := promise f; responses := responses f; unhandled := true |}.

(** How the attempt to bind ends: [resolve(port)], [process.exit(code)],
    or still retrying when the fuel ran out. *)
Inductive Bound :=
| Resolved (port : N)
| Exited (exit_code : Z)
| Retrying.

(** How [authenticate] goes on after binding: the flow is served, the
    process has ended, or the listener is still retrying. *)
Inductive Started :=
| Serving (f : Flow)
| ProcessExit (exit_code : Z)
| StillBinding.

Section flow.
Context {OS Remote : Type}.

(** The platform's URL parser, [new URL(input)] or [new URL(input,
    base)]; [None] is the [TypeError] of an invalid URL. *)
Variable newURL : string -> option string -> option URL.

(** [server.listen(port, '127.0.0.1')] on the operating system: the
    address bound, or the error of the ['error'] event. *)
Variable listen : N -> OS -> (SystemError + AddressInfo) * OS.

(** The remote token endpoint. *)
Variable tokenEndpoint : TokenRequest -> Remote -> (Error + Credentials) * Remote.

Variable CREDENTIALS_PATH : string.

(** Modelled from the spec: the OAuth client library is not part of the
    repository.  The token exchange sends the authorization code, the
    client credentials and the redirect URI configured in the client. *)
Definition getToken (client : OAuth2Client) (authorization_code : string)
    (remote : Remote) : (Error + Credentials) * Remote :=
  tokenEndpoint
    {| tr_code := authorization_code;
       tr_client_id := client_id client;
       tr_client_secret := client_secret client;
       tr_redirect_uri := redirectUri client;
       tr_grant_type := "authorization_code" |} remote.

(** [value || fallback] on strings: the empty string is falsy. *)
Definition or_else (value fallback : string) : string :=
  match value with
  | EmptyString => fallback
  | _ => value
  end.

(** [process.argv[i]], the empty string standing for [undefined]. *)
Definition argv_at (argv : list string) (i : nat) : string :=
  default EmptyString (argv !! i).

(** How [loadCredentials] ends: the client is ready, the process has
    ended with [process.exit(code)], or the saved text is not that of a
    flat object, where the model does not follow the program (it ends
    the process on a [SyntaxError] and installs any other value). *)
Inductive Loaded :=
| Ready (client : OAuth2Client)
| LoadExit (exit_code : Z)
| OutsideModel.

(** The final step of [loadCredentials]: the client is created with
    the callback of the command line, and the saved credentials, if the
    file exists, are parsed and installed; any exception ends the
    process with [process.exit(1)].  The discovery of the OAuth keys
    that precedes this step is represented by its result [keys]. *)
Definition loadCredentials (keys : OAuthKeys) (argv : list string) (fs : FS)
    : Loaded :=
  let callback :=
    if String.eqb (argv_at argv 2) "auth" then
      or_else (argv_at argv 3) "http://localhost:3000/oauth2callback"
    else "http://localhost:3000/oauth2callback" in
  let client :=
    new_OAuth2Client (keys_client_id keys) (keys_client_secret keys) callback in
  if existsSync CREDENTIALS_PATH fs then
    match readFileSync CREDENTIALS_PATH fs with
    | inr text =>
        match JSON_parse text with
        | Some saved => Ready (setCredentials saved client)
        | None => OutsideModel
        end
    | inl _ => LoadExit 1
    end
  else Ready client.

(** [host], [pathName] and [preferredPort] of the requested callback. *)
Definition callbackParts (requestedCallback : string) : string * string * N :=
  match newURL requestedCallback None with
  | Some u =>
      (or_else (hostname u) "localhost",
       or_else (pathname u) "/oauth2callback",
       match port u with Some n => n | None => 3000%N end)
  | None => ("localhost", "/oauth2callback", 3000%N)
  end.

(** [tryListen(p)]: the ['error'] handler retries with port 0 on
    [EADDRINUSE] and ends the process on any other error; the
    ['listening'] callback resolves with [addr.port], the port of
    [server.address()].  The address of a listening TCP server is an
    object, so the alternative [p] of the source's conditional is never
    taken.  One unit of fuel per call of [server.listen]. *)
Fixpoint tryListen (fuel : nat) (p : N) (os : OS) : Bound * OS :=
  match fuel with
  | O => (Retrying, os)
  | S fuel' =>
      match listen p os with
      | (inl err, os') =>
          if String.eqb (code err) "EADDRINUSE" then tryListen fuel' 0%N os'
          else (Exited 1, os')
      | (inr addr, os') => (Resolved (addr_port addr), os')
      end
  end.

(** [`http://${host}:${finalPort}${pathName}`] *)
Definition finalCallback (h : string) (p : N) (path : string) : string :=
  "http://" ++ h ++ ":" ++ print_N p ++ path.

(** The flow once the listener is bound: the client is recreated with
    the final callback and the authorization URL is generated from
    it. *)
Definition startFlow (keys : OAuthKeys) (h path : string) (p : N) : Flow :=
  let client :=
    new_OAuth2Client (keys_client_id keys) (keys_client_secret keys)
      (finalCallback h p path) in
  {| oauth2Client := client; host := h; pathName := path; finalPort := p;
     authUrl := generateAuthUrl client "offline"
                  ["https://www.googleapis.com/auth/gmail.modify";
                   "https://www.googleapis.com/auth/gmail.settings.basic"];
     listening := true; promise := Pending; responses := [];
     unhandled := false |}.

(** [`http://${host}:${finalPort}`], the base of the request URL. *)
Definition requestBase (f : Flow) : string :=
  "http://" ++ host f ++ ":" ++ print_N (finalPort f).

(** The ['request'] handler, on the [url] of the request ([None] for
    [undefined]). *)
Definition onRequest (url : option string) (st : Flow * (FS * Remote))
    : Flow * (FS * Remote) :=
  let '(f, (fs, remote)) := st in
  match url with
  | None => st
  | Some target =>
      if negb (String.prefix (pathName f) target) then st
      else
        match newURL target (Some (requestBase f)) with
        | None => (escaped f, (fs, remote))
        | Some u =>
            match searchParams_get (searchParams u) "code" with
            | None | Some EmptyString =>
                (reject {| message := "No code provided" |}
                   (respond 400 "No code provided" f), (fs, remote))
            | Some authorization_code =>
                match getToken (oauth2Client f) authorization_code remote with
                | (inr tokens, remote') =>
                    let f1 := with_client (setCredentials tokens (oauth2Client f)) f in
                    match writeFileSync CREDENTIALS_PATH (JSON_stringify tokens) fs with
                    | inr fs' =>
                        (resolve (close (respond 200
                           "Authentication successful! You can close this window."
                           f1)), (fs', remote'))
                    | inl error =>
                        (reject error (respond 500 "Authentication failed" f1),
                         (fs, remote'))
                    end
                | (inl error, remote') =>
                    (reject error (respond 500 "Authentication failed" f),
                     (fs, remote'))
                end
            end
        end
  end.

(** A request reaches the handler only while the server accepts
    connections. *)
Definition deliver (url : option string) (st : Flow * (FS * Remote))
    : Flow * (FS * Remote) :=
  if listening st.1 then onRequest url st else st.

(** The requests that reach the listener, handled one after the
    other, for as long as the server object accepts connections.  This
    is the listener by itself: the process around it ends as soon as
    the promise is settled (see [await] and [main]), so that in the
    program no request is handled after that.  A request that arrives
    while the token exchange of an earlier one is still in flight is
    not modelled. *)
Definition serve (requests : list (option string)) (st : Flow * (FS * Remote))
    : Flow * (FS * Remote) :=
  fold_left (fun s url => deliver url s) requests st.

(** [authenticate()], up to the point where it returns its promise:
    the callback is taken from the command line, the listener is
    bound, and the flow starts on the port reported by the listener. *)
Definition authenticate (fuel : nat) (keys : OAuthKeys) (argv : list string)
    (os : OS) : Started * OS :=
  let requestedCallback :=
    or_else (argv_at argv 3) "http://localhost:3000/oauth2callback" in
  let '(h, path, preferredPort) := callbackParts requestedCallback in
  match tryListen fuel preferredPort os with
  | (Resolved p, os') => (Serving (startFlow keys h path p), os')
  | (Exited n, os') => (ProcessExit n, os')
  | (Retrying, os') => (StillBinding, os')
  end.

(** The process while [main] awaits the promise of [authenticate]: it
    runs, or it has ended with an exit code; an ended process accepts
    no connection. *)
Inductive Process :=
| Running (st : Flow * (FS * Remote))
| Ended (exit_code : Z) (st : Flow * (FS * Remote)).

(** What becomes of the process once a request has been handled.  On a
    fulfilled promise [main] goes on to [process.exit(0)]; a rejected
    promise makes [main] reject, and [main().catch] ends the process
    with [process.exit(1)]; an exception that escaped the request
    handler is an unhandled rejection, which ends the process with
    exit code 1 as well. *)
Definition settled (st : Flow * (FS * Remote)) : Process :=
  match promise st.1 with
  | Fulfilled => Ended 0 st
  | Rejected _ => Ended 1 st
  | Pending => if unhandled st.1 then Ended 1 st else Running st
  end.

Definition receive (url : option string) (p : Process) : Process :=
  match p with
  | Running st => settled (deliver url st)
  | Ended _ _ => p
  end.

(** [await authenticate()] in [main], on the requests that are sent to
    the listener one after the other. *)
Definition await (requests : list (option string))
    (st : Flow * (FS * Remote)) : Process :=
  fold_left (fun p url => receive url p) requests (Running st).

(** How [main] goes: the process ends before the flow starts, the
    listener is still retrying, the flow runs (in [auth] mode), the
    server of the tools runs with its client (not followed further
    here), or the saved credentials are outside the model. *)
Inductive Main :=
| MainExit (exit_code : Z)
| MainBinding
| MainAuth (p : Process)
| MainTools (client : OAuth2Client)
| MainOutsideModel.

(** [main()] with [main().catch]: the credentials are loaded, and in
    [auth] mode the flow is run and awaited. *)
Definition main (fuel : nat) (keys : OAuthKeys) (argv : list string)
    (requests : list (option string)) (os : OS) (fs : FS) (remote : Remote)
    : Main * OS :=
  match loadCredentials keys argv fs with
  | LoadExit n => (MainExit n, os)
  | OutsideModel => (MainOutsideModel, os)
  | Ready client =>
      if String.eqb (argv_at argv 2) "auth" then
        match authenticate fuel keys argv os with
        | (Serving f, os') => (MainAuth (await requests (f, (fs, remote))), os')
        | (ProcessExit n, os') => (MainExit n, os')
        | (StillBinding, os') => (MainBinding, os')
        end
      else (MainTools client, os)
  end.

End flow.

End OAuth.

(** A concrete platform, used to run the flow on concrete input. *)
Module OAuthExample.
Import Json Fs OAuth.

Local Open Scope string_scope.

(** An operating system with some TCP ports taken.  Port 0 asks for
    the next free ephemeral port; a port below 1024 is refused. *)
Record ExampleOS := {
  in_use : list N;
  next_ephemeral : N
}.

Definition exampleListen (p : N) (os : ExampleOS)
    : (SystemError + AddressInfo) * ExampleOS :=
  if (p =? 0)%N then
    (inr {| address := "127.0.0.1"; family := "IPv4";
            addr_port := next_ephemeral os |},
     {| in_use := next_ephemeral os :: in_use os;
        next_ephemeral := (next_ephemeral os + 1)%N |})
  else if bool_decide (p ∈ in_use os) then (inl {| code := "EADDRINUSE" |}, os)
  else if (p <? 1024)%N then (inl {| code := "EACCES" |}, os)
  else
    (inr {| address := "127.0.0.1"; family := "IPv4"; addr_port := p |},
     {| in_use := p :: in_use os; next_ephemeral := next_ephemeral os |}).

(** [cut c s]: the text before the first [c] in [s], and the text
    after it if there is one. *)
Fixpoint cut (c : ascii) (s : string) : string * option string :=
  match s with
  | EmptyString => (EmptyString, None)
  | String a s' =>
      if Ascii.eqb a c then (EmptyString, Some s')
      else let '(before, after) := cut c s' in (String a before, after)
  end.

Fixpoint split_on (fuel : nat) (c : ascii) (s : string) : list string :=
  match fuel with
  | O => []
  | S fuel' =>
      match cut c s with
      | (before, Some after) => before :: split_on fuel' c after
      | (before, None) => [before]
      end
  end.

Definition query_pair (s : string) : string * string :=
  match cut "=" s with
  | (name, Some value) => (name, value)
  | (name, None) => (name, EmptyString)
  end.

(** The pairs of a query that needs no decoding. *)
Definition query_pairs (query : string) : list (string * string) :=
  query_pair <$>
    filter (fun s => s <> EmptyString) (split_on (S (String.length query)) "&" query).

(** A URL parser for the two kinds of input of the examples: the
    callback [http://localhost:3000/oauth2callback], and a request
    target that starts with a slash, whose path ends at the first
    question mark. *)
Definition exampleURL (input : string) (base : option string) : option URL :=
  match base with
  | None =>
      if String.eqb input "http://localhost:3000/oauth2callback" then
        Some {| hostname := "localhost"; pathname := "/oauth2callback";
                port := Some 3000%N; searchParams := [] |}
      else None
  | Some _ =>
      if String.prefix "/" input then
        let '(path, query) := cut "?" input in
        Some {| hostname := "localhost"; pathname := path; port := None;
                searchParams := query_pairs (default EmptyString query) |}
      else None
  end.

Definition exampleTokens : Credentials :=
  [("access_token", JString "ya29.a0AfB_byC");
   ("refresh_token", JString "1//0gLq");
   ("scope", JString "https://www.googleapis.com/auth/gmail.modify");
   ("token_type", JString "Bearer");
   ("expiry_date", JNumber 1730000000000)].

(** A token endpoint that redeems the code ["4/0AX4XfWh"] once. *)
Definition exampleEndpoint (req : TokenRequest) (redeemed : list string)
    : (Error + Credentials) * list string :=
  if String.eqb (tr_code req) "4/0AX4XfWh" && negb (bool_decide (tr_code req ∈ redeemed))
  then (inr exampleTokens, tr_code req :: redeemed)
  else (inl {| message := "invalid_grant" |}, redeemed).

Definition exampleKeys : OAuthKeys :=
  {| keys_client_id := "1234.apps.googleusercontent.com";
     keys_client_secret := "GOCSPX-secret" |}.

Definition examplePath : string := "/home/user/.gmail-mcp/credentials.json".

Definition emptyFS : FS := {| files := ∅; unwritable := ∅ |}.

(** Port 3000 is taken by another process. *)
Definition busyOS : ExampleOS :=
  {| in_use := [3000%N]; next_ephemeral := 49152 |}.

Definition freeOS : ExampleOS :=
  {| in_use := []; next_ephemeral := 49152 |}.

(** The flow of the examples: bound to port 3000 on the default
    callback. *)
Definition exampleFlow : Flow :=
  startFlow exampleKeys "localhost" "/oauth2callback" 3000.

(** The flow after the fallback to the ephemeral port 49152. *)
Definition fallbackFlow : Flow :=
  startFlow exampleKeys "localhost" "/oauth2callback" 49152.

(** The example flow on an empty file system, no code redeemed yet. *)
Definition exampleState : Flow * (FS * list string) :=
  (exampleFlow, (emptyFS, [])).

(** The file system once the example tokens are saved. *)
Definition savedFS : FS :=
  {| files := {[ examplePath := JSON_stringify exampleTokens ]};
     unwritable := ∅ |}.

End OAuthExample.

(** An operation that never throws. *)
Module BatchEcho.

(** Returns its batch, one result per item. *)
Definition echo (batch : list string) (w : unit)
    : (string + list string) * unit :=
  (inr batch, w).

End BatchEcho.

(** Invariants of a flow under the requests it receives. *)
Module FlowInvariant.
Import Json Fs OAuth.

Section invariants.
Context {Remote : Type}.
Variable CREDENTIALS_PATH : string.

(** The state of the server, the promise and the file system agree:
    a fulfilled promise means a closed server, and a closed server
    means that the credentials file holds the JSON text of the
    credentials installed in the client, an object with distinct
    property names. *)
Definition saved_when_closed (s : Flow * (FS * Remote)) : Prop :=
  (promise s.1 = Fulfilled -> listening s.1 = false) /\
  (listening s.1 = false ->
   files s.2.1 !! CREDENTIALS_PATH =
     Some (JSON_stringify (credentials (oauth2Client s.1))) /\
   NoDup (credentials (oauth2Client s.1)).*1).

(** The responses written while the server is open are failure pages;
    the success page, once written, is the last response. *)
Definition success_page_last (s : Flow * (FS * Remote)) : Prop :=
  if listening s.1 then
    Forall (fun r => status r = 400%N \/ status r = 500%N) (responses s.1)
  else
    exists earlier,
      responses s.1 =
        earlier ++
        [{| status := 200;
            body := "Authentication successful! You can close this window." |}] /\
      Forall (fun r => status r = 400%N \/ status r = 500%N) earlier.

End invariants.

End FlowInvariant.

(** ** The encoding of a raw message

    [Buffer.from(message).toString('base64')] followed by the three
    replacements of the handlers.  The buffer is the list of the bytes
    of the message. *)

Module Encoding.

Local Open Scope string_scope.

(** The alphabet of standard base64. *)
Definition alphabet : string :=
  "ABCDEFGHIJKLMNOPQRSTUVWXYZabcdefghijklmnopqrstuvwxyz0123456789+/".

Definition char64 (i : N) : ascii :=
  match String.get (N.to_nat i) alphabet with
  | Some c => c
  | None => "="%char
  end.

(** [buffer.toString('base64')]: three bytes give four characters; a
    last group of one or two bytes is padded with [=]. *)
Fixpoint base64 (buffer : list ascii) : string :=
  match buffer with
  | [] => EmptyString
  | [a] =>
      let x := N_of_ascii a in
      String (char64 (x / 4)) (String (char64 (x mod 4 * 16)) "==")
  | [a; b] =>
      let x := N_of_ascii a in
      let y := N_of_ascii b in
      String (char64 (x / 4))
        (String (char64 (x mod 4 * 16 + y / 16))
           (String (char64 (y mod 16 * 4)) "="))
  | a :: b :: c :: rest =>
      let x := N_of_ascii a in
      let y := N_of_ascii b in
      let z := N_of_ascii c in
      String (char64 (x / 4))
        (String (char64 (x mod 4 * 16 + y / 16))
           (String (char64 (y mod 16 * 4 + z / 64))
              (String (char64 (z mod 64)) (base64 rest))))
  end%N.

(** [s.replace(/c/g, d)] for a single character [c]. *)
Fixpoint replace_char (c d : ascii) (s : string) : string :=
  match s with
  | EmptyString => EmptyString
  | String a s' => String (if Ascii.eqb a c then d else a) (replace_char c d s')
  end.

Fixpoint all_equals (s : string) : bool :=
  match s with
  | EmptyString => true
  | String a s' => Ascii.eqb a "=" && all_equals s'
  end.

(** [s.replace(/=+$/, '')]: the leftmost run of [=] that reaches the
    end of the text is removed. *)
Fixpoint strip_padding (s : string) : string :=
  match s with
  | EmptyString => EmptyString
  | String a s' =>
      if Ascii.eqb a "=" && all_equals s' then EmptyString
      else String a (strip_padding s')
  end.

(** The character of a sextet once [+] and [/] are replaced. *)
Definition urlchar (i : N) : ascii :=
  let c := char64 i in
  let c1 := if Ascii.eqb c "+" then "-"%char else c in
  if Ascii.eqb c1 "/" then "_"%char else c1.

(** [encodedMessage], from the buffer of the message. *)
Definition encodedMessage (buffer : list ascii) : string :=
  strip_padding (replace_char "/" "_" (replace_char "+" "-" (base64 buffer))).

(** Letters, digits, hyphen and underscore: the characters of base64url. *)
Definition is_urlsafe (c : ascii) : bool :=
  let n := N_of_ascii c in
  ((65 <=? n) && (n <=? 90) || (97 <=? n) && (n <=? 122) ||
   (48 <=? n) && (n <=? 57) || (n =? 45) || (n =? 95))%N.

Fixpoint all_chars (P : ascii -> bool) (s : string) : bool :=
  match s with
  | EmptyString => true
  | String a s' => P a && all_chars P s'
  end.

(** The value of a character of base64url. *)
Definition val64 (c : ascii) : option N :=
  let n := N_of_ascii c in
  (if (65 <=? n) && (n <=? 90) then Some (n - 65)
   else if (97 <=? n) && (n <=? 122) then Some (n - 71)
   else if (48 <=? n) && (n <=? 57) then Some (n + 4)
   else if n =? 45 then Some 62
   else if n =? 95 then Some 63
   else None)%N.

(** Reading unpadded base64url back, used to show that the encoding
    loses nothing. *)
Fixpoint decode (s : string) : option (list ascii) :=
  match s with
  | EmptyString => Some []
  | String _ EmptyString => None
  | String c1 (String c2 EmptyString) =>
      match val64 c1, val64 c2 with
      | Some s1, Some s2 => Some [ascii_of_N (s1 * 4 + s2 / 16)]
      | _, _ => None
      end
  | String c1 (String c2 (String c3 EmptyString)) =>
      match val64 c1, val64 c2, val64 c3 with
      | Some s1, Some s2, Some s3 =>
          Some [ascii_of_N (s1 * 4 + s2 / 16);
                ascii_of_N (s2 mod 16 * 16 + s3 / 4)]
      | _, _, _ => None
      end
  | String c1 (String c2 (String c3 (String c4 rest))) =>
      match val64 c1, val64 c2, val64 c3, val64 c4, decode rest with
      | Some s1, Some s2, Some s3, Some s4, Some bytes =>
          Some (ascii_of_N (s1 * 4 + s2 / 16) ::
                ascii_of_N (s2 mod 16 * 16 + s3 / 4) ::
                ascii_of_N (s3 mod 4 * 64 + s4) :: bytes)
      | _, _, _, _, _ => None
      end
  end%N.

End Encoding.

(** Running an effectful function on a world that carries a log next
    to it, without touching the log. *)
Definition aside {A S R L : Type} (f : A -> S -> R * S)
    (a : A) (sl : S * L) : R * (S * L) :=
  let '(r, s') := f a sl.1 in (r, (s', sl.2)).

(** ** The tool handlers *)

Module Tools.
Import Fs Encoding.

Local Open Scope string_scope.

(** The validated arguments of [send_email] and [draft_email]
    ([SendEmailSchema]). *)
Record SendEmailArgs := {
  to : list string;
  subject : string;
  body : string;
  htmlBody : option string;
  mimeType : string;
  cc : option (list string);
  bcc : option (list string);
  threadId : option string;
  inReplyTo : option string;
  attachments : option (list string)
}.

(** The validated arguments of [modify_email] ([ModifyEmailSchema]). *)
Record ModifyEmailArgs := {
  modify_messageId : string;
  labelIds : option (list string);
  addLabelIds : option (list string);
  removeLabelIds : option (list string)
}.

(** The validated arguments of [delete_email] ([DeleteEmailSchema]). *)
Record DeleteEmailArgs := { delete_messageId : string }.

(** The calls that the embedded handlers make to the Gmail API, with
    the parts of their request that the handlers set:
    [users.messages.send] and [users.drafts.create] with the raw text
    and the thread of the message, [users.messages.modify] with the
    label lists of its request body, [users.messages.delete]. *)
Inductive GmailCall :=
| messages_send (raw : string) (thread : option string)
| drafts_create (raw : string) (thread : option string)
| messages_modify (id : string) (add remove : option (list string))
| messages_delete (id : string).

(** [{ content: [{ type: "text", text }], isError }] *)
Record ToolResult := { text : string; isError : bool }.

Inductive Action := send | draft.

(** A string in a condition: the empty string and [undefined] are
    falsy. *)
Definition truthy (s : option string) : option string :=
  match s with
  | Some EmptyString => None
  | _ => s
  end.

(** [validatedArgs.attachments && validatedArgs.attachments.length > 0] *)
Definition hasAttachments (args : SendEmailArgs) : bool :=
  match attachments args with
  | Some (_ :: _) => true
  | _ => false
  end.

(** [`${result.data.id}`] *)
Definition show_id (id : option string) : string := default "undefined" id.

Section handlers.
Context {Args W : Type}.

(** The Gmail API client: a call yields [response.data.id], when the
    response has one, or throws. *)
Variable gmail : GmailCall -> W -> (Error + option string) * W.

(** [createEmailMessage] and [createEmailWithNodemailer], which build
    the text of the message, and [Buffer.from], which gives its
    bytes. *)
Variable createEmailMessage : SendEmailArgs -> Error + string.
Variable createEmailWithNodemailer : SendEmailArgs -> W -> (Error + string) * W.
Variable Buffer_from : string -> list ascii.

(** [console.error] *)
Variable console_error : string -> W -> W.

(** [Schema.parse(args)] for the three schemas. *)
Variable parseSendEmail : Args -> Error + SendEmailArgs.
Variable parseModifyEmail : Args -> Error + ModifyEmailArgs.
Variable parseDeleteEmail : Args -> Error + DeleteEmailArgs.

(** The bodies of the cases [read_email], [search_emails] and
    [list_email_labels], which are not embedded here. *)
Variable readEmail : Args -> W -> (Error + ToolResult) * W.
Variable searchEmails : Args -> W -> (Error + ToolResult) * W.
Variable listEmailLabels : W -> (Error + ToolResult) * W.

(** The request of the action, once the text of the message is
    known. *)
Definition requestOf (action : Action) (message : string)
    (validatedArgs : SendEmailArgs) : GmailCall :=
  let encodedMessage := encodedMessage (Buffer_from message) in
  match action with
  | send => messages_send encodedMessage (truthy (threadId validatedArgs))
  | draft => drafts_create encodedMessage (truthy (threadId validatedArgs))
  end.

Definition resultOf (action : Action) (id : option string) : ToolResult :=
  match action with
  | send =>
      {| text := "Email sent successfully with ID: " ++ show_id id;
         isError := false |}
  | draft =>
      {| text := "Email draft created successfully with ID: " ++ show_id id;
         isError := false |}
  end.

(** The [catch] of [handleEmailAction]: the error is logged when the
    message has attachments, and thrown again. *)
Definition rethrow (validatedArgs : SendEmailArgs) (error : Error) (w : W)
    : (Error + ToolResult) * W :=
  if hasAttachments validatedArgs then
    (inl error,
     console_error
       ("Failed to send email with " ++
        Json.print_N (N.of_nat (length (default [] (attachments validatedArgs)))) ++
        " attachments: " ++ message error) w)
  else (inl error, w).

Definition handleEmailAction (action : Action) (validatedArgs : SendEmailArgs)
    (w : W) : (Error + ToolResult) * W :=
  if hasAttachments validatedArgs then
    match createEmailWithNodemailer validatedArgs w with
    | (inr message, w1) =>
        match gmail (requestOf action message validatedArgs) w1 with
        | (inr id, w2) => (inr (resultOf action id), w2)
        | (inl error, w2) => rethrow validatedArgs error w2
        end
    | (inl error, w1) => rethrow validatedArgs error w1
    end
  else
    match createEmailMessage validatedArgs with
    | inr message =>
        match gmail (requestOf action message validatedArgs) w with
        | (inr id, w1) => (inr (resultOf action id), w1)
        | (inl error, w1) => rethrow validatedArgs error w1
        end
    | inl error => rethrow validatedArgs error w
    end.

(** The [addLabelIds] of the request body of [modify_email]: an
    array, even an empty one, is truthy, so [addLabelIds] replaces
    what [labelIds] had set. *)
Definition requestAddLabelIds (validatedArgs : ModifyEmailArgs)
    : option (list string) :=
  match addLabelIds validatedArgs with
  | Some ids => Some ids
  | None => labelIds validatedArgs
  end.

(** The [switch] of [handleToolCall], inside its [try]. *)
Definition dispatch (name : string) (args : Args) (w : W)
    : (Error + ToolResult) * W :=
  if String.eqb name "send_email" || String.eqb name "draft_email" then
    match parseSendEmail args with
    | inr validatedArgs =>
        handleEmailAction
          (if String.eqb name "send_email" then send else draft)
          validatedArgs w
    | inl error => (inl error, w)
    end
  else if String.eqb name "read_email" then readEmail args w
  else if String.eqb name "search_emails" then searchEmails args w
  else if String.eqb name "modify_email" then
    match parseModifyEmail args with
    | inr validatedArgs =>
        match gmail (messages_modify (modify_messageId validatedArgs)
                       (requestAddLabelIds validatedArgs)
                       (removeLabelIds validatedArgs)) w with
        | (inr _, w1) =>
            (inr {| text := "Email " ++ modify_messageId validatedArgs ++
                            " labels updated successfully";
                    isError := false |}, w1)
        | (inl error, w1) => (inl error, w1)
        end
    | inl error => (inl error, w)
    end
  else if String.eqb name "delete_email" then
    match parseDeleteEmail args with
    | inr validatedArgs =>
        match gmail (messages_delete (delete_messageId validatedArgs)) w with
        | (inr _, w1) =>
            (inr {| text := "Email " ++ delete_messageId validatedArgs ++
                            " deleted successfully";
                    isError := false |}, w1)
        | (inl error, w1) => (inl error, w1)
        end
    | inl error => (inl error, w)
    end
  else if String.eqb name "list_email_labels" then listEmailLabels w
  else (inl {| message := "Unknown tool: " ++ name |}, w).

(** [handleToolCall(request, gmail)] on the name and the arguments of
    the request: whatever is thrown inside the [try] becomes an error
    result. *)
Definition handleToolCall (name : string) (args : Args) (w : W)
    : ToolResult * W :=
  match dispatch name args w with
  | (inr result, w') => (result, w')
  | (inl error, w') =>
      ({| text := "Error: " ++ message error; isError := true |}, w')
  end.

End handlers.

(** The handlers on a world that records the requests made to
    [users.messages.send], [users.drafts.create],
    [users.messages.modify] and [users.messages.delete]: the result,
    the world left behind and the requests, in the order in which they
    were made. *)
Section recorded.
Context {Args W : Type}.
Variable gmail : GmailCall -> W -> (Error + option string) * W.
Variable createEmailMessage : SendEmailArgs -> Error + string.
Variable createEmailWithNodemailer : SendEmailArgs -> W -> (Error + string) * W.
Variable Buffer_from : string -> list ascii.
Variable console_error : string -> W -> W.
Variable parseSendEmail : Args -> Error + SendEmailArgs.
Variable parseModifyEmail : Args -> Error + ModifyEmailArgs.
Variable parseDeleteEmail : Args -> Error + DeleteEmailArgs.
Variable readEmail : Args -> W -> (Error + ToolResult) * W.
Variable searchEmails : Args -> W -> (Error + ToolResult) * W.
Variable listEmailLabels : W -> (Error + ToolResult) * W.

Definition requestsOf (name : string) (args : Args) (w : W)
    : ToolResult * W * list GmailCall :=
  let '(result, (w', requests)) :=
    handleToolCall (logged gmail) createEmailMessage
      (aside createEmailWithNodemailer) Buffer_from
      (fun line wl => (console_error line wl.1, wl.2))
      parseSendEmail parseModifyEmail parseDeleteEmail
      (aside readEmail) (aside searchEmails)
      (aside (fun _ : unit => listEmailLabels) tt)
      name args (w, []) in
  (result, w', requests).

End recorded.

(** The names of the tools that [main] lists in answer to
    [ListToolsRequestSchema], in order. *)
Definition advertisedTools : list string :=
  ["send_email"; "draft_email"; "read_email"; "search_emails";
   "modify_email"; "delete_email"; "list_email_labels";
   "batch_modify_emails"; "batch_delete_emails"; "create_label";
   "update_label"; "delete_label"; "get_or_create_label"; "create_filter";
   "list_filters"; "get_filter"; "delete_filter";
   "create_filter_from_template"; "download_attachment"].

End Tools.

Module ToolsExample.
Import Fs Tools.

Local Open Scope string_scope.

(** An API that accepts every request and counts them; arguments that
    are a message id, which the schemas reject when it is empty. *)
Definition exampleGmail (call : GmailCall) (w : nat)
    : (Error + option string) * nat :=
  (inr (Some "18c2f0"), S w).

Definition exampleMessage (args : SendEmailArgs) : Error + string :=
  inr ("Subject: " ++ subject args).

Definition exampleNodemailer (args : SendEmailArgs) (w : nat)
    : (Error + string) * nat :=
  (inr ("Subject: " ++ subject args), w).

Definition exampleConsole (line : string) (w : nat) : nat := w.

Definition required : Error := {| message := "messageId: Required" |}.

Definition exampleParseSend (args : string) : Error + SendEmailArgs :=
  inl required.

Definition exampleParseModify (args : string) : Error + ModifyEmailArgs :=
  match args with
  | EmptyString => inl required
  | _ =>
      inr {| modify_messageId := args;
             labelIds := Some ["STARRED"];
             addLabelIds := Some [];
             removeLabelIds := Some ["INBOX"] |}
  end.

Definition exampleParseDelete (args : string) : Error + DeleteEmailArgs :=
  match args with
  | EmptyString => inl required
  | _ => inr {| delete_messageId := args |}
  end.

Definition exampleCase (args : string) (w : nat)
    : (Error + ToolResult) * nat :=
  (inr {| text := args; isError := false |}, w).

End ToolsExample.

(** ** Configuration paths *)

Module Paths.
Import Tools.

Local Open Scope string_scope.

(** The longest prefix of characters that satisfy [p], and the rest. *)
Fixpoint span (p : ascii -> bool) (s : string) : string * string :=
  match s with
  | EmptyString => (EmptyString, EmptyString)
  | String c rest =>
      if p c then let '(a, b) := span p rest in (String c a, b)
      else (EmptyString, s)
  end.

(** [s.replace(re, fn)] for a global [re] that matches no empty text:
    [matchAt] gives, for a match that starts at the head of its
    argument, the matched text, the text of the capture group and the
    text after the match.  The scan goes from left to right and goes
    on after each match; the text that [fn] returns is not scanned.
    [replace] gives the loop as many rounds as the string has
    characters. *)
Fixpoint replaceAll (matchAt : string -> option (string * string * string))
    (fn : string -> string -> string) (fuel : nat) (s : string) : string :=
  match fuel with
  | O => s
  | S fuel =>
      match s with
      | EmptyString => EmptyString
      | String c rest =>
          match matchAt s with
          | Some (m, group, after) =>
              fn m group ++ replaceAll matchAt fn fuel after
          | None => String c (replaceAll matchAt fn fuel rest)
          end
      end
  end.

Definition replace (matchAt : string -> option (string * string * string))
    (fn : string -> string -> string) (s : string) : string :=
  replaceAll matchAt fn (String.length s) s.

(** [/%([^%]+)%/] *)
Definition matchPercent (s : string) : option (string * string * string) :=
  match s with
  | String "%" rest =>
      match span (fun c => negb (Ascii.eqb c "%")) rest with
      | (String c name, String "%" after) =>
          Some ("%" ++ String c name ++ "%", String c name, after)
      | _ => None
      end
  | _ => None
  end.

(** [/\$\{([^}]+)\}/] *)
Definition matchBraces (s : string) : option (string * string * string) :=
  match s with
  | String "$" (String "{" rest) =>
      match span (fun c => negb (Ascii.eqb c "}")) rest with
      | (String c name, String "}" after) =>
          Some ("${" ++ String c name ++ "}", String c name, after)
      | _ => None
      end
  | _ => None
  end.

(** [[A-Za-z_]] and [[A-Za-z0-9_]] *)
Definition nameStart (c : ascii) : bool :=
  let n := N_of_ascii c in
  ((65 <=? n) && (n <=? 90) || (97 <=? n) && (n <=? 122) || (n =? 95))%N.

Definition nameChar (c : ascii) : bool :=
  let n := N_of_ascii c in
  (nameStart c || (48 <=? n) && (n <=? 57))%N.

(** A dollar sign and a name: one of [[A-Za-z_]], then as many of
    [[A-Za-z0-9_]] as follow. *)
Definition matchDollar (s : string) : option (string * string * string) :=
  match s with
  | String "$" (String c rest) =>
      if nameStart c then
        let '(name, after) := span nameChar rest in
        Some (String "$" (String c name), String c name, after)
      else None
  | _ => None
  end.

(** The text that a replacement string stands for, for a pattern
    without capture groups: [$$] is a dollar sign, [$&] the matched
    text, [$`] the text before the match and [$'] the text after it;
    any other dollar sign stands for itself. *)
Fixpoint getSubstitution (matched before after replacement : string) : string :=
  match replacement with
  | EmptyString => EmptyString
  | String c rest =>
      if Ascii.eqb c "$" then
        match rest with
        | String d rest' =>
            if Ascii.eqb d "$" then
              String "$" (getSubstitution matched before after rest')
            else if Ascii.eqb d "&" then
              matched ++ getSubstitution matched before after rest'
            else if Ascii.eqb d "`" then
              before ++ getSubstitution matched before after rest'
            else if Ascii.eqb d "'" then
              after ++ getSubstitution matched before after rest'
            else String "$" (getSubstitution matched before after rest)
        | EmptyString => "$"
        end
      else String c (getSubstitution matched before after rest)
  end.

(** The lookahead [(?=\/|\\|$)]. *)
Definition atBoundary (s : string) : bool :=
  match s with
  | EmptyString => true
  | String c _ => Ascii.eqb c "/" || Ascii.eqb c "\"
  end.

(** [a || b] on strings. *)
Definition or_else (a : option string) (b : string) : string :=
  default b (truthy a).

Section expand.

(** [os.homedir()]; the variables of the environment; the members
    that the object [process.env] inherits ([constructor], [toString],
    [__proto__] and the like), each as the text that
    [String.prototype.replace] makes of it; whether [process.platform]
    is [win32]; and [String.prototype.toUpperCase]. *)
Variable homedir : string.
Variable variables : string -> option string.
Variable inherited : string -> option string.
Variable win32 : bool.
Variable toUpperCase : string -> string.

(** [process.env[name]] in a condition, as the text it yields when it
    is truthy.  A variable of the environment is truthy unless it is
    empty, and hides an inherited member of the same name; an inherited
    member, a function or an object, is truthy. *)
Definition processEnv (name : string) : option string :=
  match variables name with
  | Some value => truthy (Some value)
  | None => inherited name
  end.

(** The replacer of [%VAR%]. *)
Definition percentVar (matched varName : string) : string :=
  match processEnv varName with
  | Some envVal => envVal
  | None =>
      if win32 && String.eqb (toUpperCase varName) "USERPROFILE" then
        let home :=
          default
            (or_else (Some homedir)
               (default EmptyString (processEnv "HOMEDRIVE") ++
                default EmptyString (processEnv "HOMEPATH")))
            (processEnv "USERPROFILE") in
        or_else (Some home) matched
      else matched
  end.

(** The replacer of [${VAR}] and [$VAR]. *)
Definition posixVar (m varName : string) : string :=
  default m (processEnv varName).

(** [p.replace(/^~(?=\/|\\|$)/, os.homedir())] *)
Definition expandHome (p : string) : string :=
  match p with
  | String "~" rest =>
      if atBoundary rest then
        getSubstitution "~" EmptyString rest homedir ++ rest
      else p
  | _ => p
  end.

Definition expandTilde (p : option string) : option string :=
  match truthy p with
  | None => None
  | Some p =>
      let expanded := expandHome p in
      let expanded := replace matchPercent percentVar expanded in
      let expanded := replace matchBraces posixVar expanded in
      let expanded := replace matchDollar posixVar expanded in
      Some expanded
  end.

(** The names that the scan of a text for a pattern finds, in order:
    the capture groups of the matches that [replaceAll] replaces. *)
Fixpoint names (matchAt : string -> option (string * string * string))
    (fuel : nat) (s : string) : list string :=
  match fuel with
  | O => []
  | S fuel =>
      match s with
      | EmptyString => []
      | String c rest =>
          match matchAt s with
          | Some (m, group, after) => group :: names matchAt fuel after
          | None => names matchAt fuel rest
          end
      end
  end.

(** The names that a text refers to as [%NAME%], [${NAME}] or
    [$NAME]. *)
Definition referenced (s : string) : list string :=
  names matchPercent (String.length s) s ++
  names matchBraces (String.length s) s ++
  names matchDollar (String.length s) s.

End expand.

(** A text without a given character. *)
Definition without (c : ascii) (s : string) : bool :=
  Encoding.all_chars (fun x => negb (Ascii.eqb x c)) s.

(** A text that the variable patterns cannot match: it has neither a
    percent sign nor a dollar sign. *)
Definition plain (s : string) : bool := without "%" s && without "$" s.

(** The names that [$VAR] can refer to. *)
Definition isName (s : string) : bool :=
  match s with
  | String c rest => nameStart c && Encoding.all_chars nameChar rest
  | EmptyString => false
  end.

End Paths.

Module PathsExample.

Local Open Scope string_scope.

Definition exampleEnv (name : string) : option string :=
  if String.eqb name "XDG_CONFIG_HOME" then Some "/home/ada/.config"
  else if String.eqb name "APPDATA" then Some "C:\Users\ada\AppData"
  else if String.eqb name "EMPTY" then Some EmptyString
  else None.

(** Members that [process.env] inherits. *)
Definition exampleInherited (name : string) : option string :=
  if String.eqb name "constructor" then
    Some "function Object() { [native code] }"
  else if String.eqb name "toString" then
    Some "function toString() { [native code] }"
  else None.

Fixpoint asciiUpper (s : string) : string :=
  match s with
  | EmptyString => EmptyString
  | String c rest =>
      let n := N_of_ascii c in
      String (if ((97 <=? n) && (n <=? 122))%N then ascii_of_N (n - 32) else c)
        (asciiUpper rest)
  end.

End PathsExample.

(** ** The attachments of a message *)

Module Attachments.
Import Tools Paths.

Local Open Scope string_scope.

(** The parts of a message as the Gmail API gives them
    ([GmailMessagePart]): every field may be missing. *)
Record PartBody := { attachmentId : option string; size : option N }.

#[local] Unset Elimination Schemes.
Inductive GmailMessagePart :=
| Part (filename mimeType : option string) (body : option PartBody)
       (parts : option (list GmailMessagePart)).
#[local] Set Elimination Schemes.

Record EmailAttachment := {
  id : string;
  attachment_filename : string;
  attachment_mimeType : string;
  attachment_size : N
}.

(** [processAttachmentParts(part, path)] of [read_email], with the
    array [attachments], to which it pushes, passed along: the part
    itself first, then its parts in order. *)
Fixpoint processAttachmentParts (part : GmailMessagePart) (path : string)
    (attachments : list EmailAttachment) : list EmailAttachment :=
  match part with
  | Part filename mimeType body parts =>
      let attachments :=
        match body with
        | Some body =>
            match truthy (attachmentId body) with
            | Some attachmentId =>
                (attachments ++
                 [{| id := attachmentId;
                     attachment_filename :=
                       or_else filename ("attachment-" ++ attachmentId);
                     attachment_mimeType :=
                       or_else mimeType "application/octet-stream";
                     attachment_size := default 0%N (size body) |}])%list
            | None => attachments
            end
        | None => attachments
        end in
      match parts with
      | Some parts =>
          fold_left
            (fun attachments subpart =>
               processAttachmentParts subpart (path ++ "/parts") attachments)
            parts attachments
      | None => attachments
      end
  end.

(** The attachments of a message: [read_email] starts from an empty
    array and from the payload of the message, when it has one. *)
Definition attachmentsOf (payload : option GmailMessagePart)
    : list EmailAttachment :=
  match payload with
  | Some payload => processAttachmentParts payload EmptyString []
  | None => []
  end.

End Attachments.

(** * Properties of the batch engine *)

Section batch_facts.
Import Batch.
Context {T U E W : Type}.
Variable processFn : list T -> W -> (E + list U) * W.

Lemma slice_chunk (l : list T) (i b : Z) :
  0 <= i -> 1 <= b ->
  slice l i (i + b) = take (Z.to_nat b) (drop (Z.to_nat i) l).
Proof.
  intros Hi Hb. unfold slice.
  destruct (Z.ltb_spec i 0) as [?|_]; [lia|].
  destruct (Z.ltb_spec (i + b) 0) as [?|_]; [lia|].
  set (len := Z.of_nat (length l)).
  destruct (Z.le_gt_cases i len) as [Hle|Hgt].
  - rewrite (Z.min_l i len) by lia.
    destruct (Z.le_gt_cases (i + b) len) as [Hle'|Hgt'].
    + rewrite Z.min_l by lia. f_equal. lia.
    + rewrite Z.min_r by lia.
      rewrite !take_ge; [done| |]; rewrite length_drop; lia.
  - rewrite (Z.min_r i len) by lia.
    rewrite (drop_ge l (Z.to_nat len)) by lia.
    rewrite (drop_ge l (Z.to_nat i)) by lia.
    by rewrite !take_nil.
Qed.

Lemma loop_fuel_mono fuel fuel' (items : list T) b i acc r :
  loop processFn fuel items b i acc = Some r -> (fuel <= fuel')%nat ->
  loop processFn fuel' items b i acc = Some r.
Proof.
  revert fuel' i acc. induction fuel as [|fuel IH]; intros fuel' i acc; [done|].
  intros Hrun Hle. destruct fuel' as [|fuel']; [lia|].
  simpl in *. destruct (i <? Z.of_nat (length items)); [|done].
  apply IH; [done | lia].
Qed.

(** The result does not depend on how much fuel was given. *)
Lemma processBatches_deterministic fuel fuel' (items : list T) b w r r' :
  processBatches processFn fuel items b w = Some r ->
  processBatches processFn fuel' items b w = Some r' ->
  r = r'.
Proof.
  unfold processBatches. intros H H'.
  destruct (Nat.le_ge_cases fuel fuel') as [Hle|Hle].
  - apply (loop_fuel_mono _ _ _ _ _ _ _ H) in Hle. congruence.
  - apply (loop_fuel_mono _ _ _ _ _ _ _ H') in Hle. congruence.
Qed.

(** *** Accounting *)

Lemma oks_app (xs ys : list (T * (E + U))) : oks (xs ++ ys) = oks xs ++ oks ys.
Proof. apply omap_app. Qed.

Lemma errs_app (xs ys : list (T * (E + U))) : errs (xs ++ ys) = errs xs ++ errs ys.
Proof. apply omap_app. Qed.

Lemma outcomes_count (outs : list (T * (E + U))) :
  (length (oks outs) + length (errs outs) = length outs)%nat.
Proof.
  induction outs as [|[x [e|u]] outs IH]; simpl; [done| |];
    unfold oks, errs in *; simpl; lia.
Qed.

(** Pairing a batch with the results of a successful whole-batch call. *)
Lemma paired_results (batch : list T) (results : list U) :
  length results = length batch ->
  (paired batch results : list (T * (E + U))).*1 = batch /\
  oks (paired batch results : list (T * (E + U))) = results /\
  errs (paired batch results : list (T * (E + U))) = [].
Proof.
  unfold paired.
  revert results. induction batch as [|x batch IH]; intros [|u results] Hlen;
    simpl in *; try done.
  destruct (IH results) as (H1 & H2 & H3); [lia|].
  unfold oks, errs in *. simpl. repeat split; [by f_equal | by f_equal | done].
Qed.

Section accounting.
Hypothesis Hone : one_result_per_item processFn.

Lemma retry_outcomes (batch : list T) acc outs :
  successes acc.1 = oks outs -> failures acc.1 = errs outs ->
  exists bouts,
    bouts.*1 = batch /\
    let acc' := fold_left (fun a item => retryItem processFn item a) batch acc in
    successes acc'.1 = oks (outs ++ bouts) /\
    failures acc'.1 = errs (outs ++ bouts).
Proof.
  revert acc outs. induction batch as [|x batch IH]; intros acc outs Hs Hf.
  - exists []. by rewrite app_nil_r.
  - simpl. unfold retryItem at 2 4.
    destruct (processFn [x] acc.2) as [[e|result] w'] eqn:Hcall.
    + destruct (IH ({| successes := successes acc.1;
                       failures := failures acc.1 ++ [(x, e)] |}, w')
                  (outs ++ [(x, inl e)])) as (bouts & Hb & Hs' & Hf').
      * by rewrite oks_app, app_nil_r.
      * simpl. by rewrite errs_app, Hf.
      * exists ((x, inl e) :: bouts). split; [by rewrite fmap_cons, Hb|].
        rewrite <- app_assoc in Hs', Hf'. done.
    + assert (exists u, result = [u]) as [u ->].
      { apply Hone in Hcall. destruct result as [|u [|??]]; try done. by exists u. }
      destruct (IH ({| successes := successes acc.1 ++ [u];
                       failures := failures acc.1 |}, w')
                  (outs ++ [(x, inr u)])) as (bouts & Hb & Hs' & Hf').
      * simpl. by rewrite oks_app, Hs.
      * by rewrite errs_app, app_nil_r.
      * exists ((x, inr u) :: bouts). split; [by rewrite fmap_cons, Hb|].
        rewrite <- app_assoc in Hs', Hf'. done.
Qed.

Lemma processBatch_outcomes (batch : list T) acc outs :
  successes acc.1 = oks outs -> failures acc.1 = errs outs ->
  exists bouts,
    bouts.*1 = batch /\
    let acc' := processBatch processFn batch acc in
    successes acc'.1 = oks (outs ++ bouts) /\
    failures acc'.1 = errs (outs ++ bouts).
Proof.
  intros Hs Hf. unfold processBatch.
  destruct (processFn batch acc.2) as [[e|results] w'] eqn:Hcall.
  - by apply (retry_outcomes batch (acc.1, w') outs).
  - apply Hone in Hcall.
    destruct (paired_results batch results Hcall) as (H1 & H2 & H3).
    exists (paired batch results). split; [done|]. simpl.
    by rewrite oks_app, errs_app, H2, H3, app_nil_r, Hs, Hf.
Qed.

Lemma loop_outcomes fuel (items : list T) b i acc outs :
  1 <= b -> 0 <= i ->
  (Z.to_nat (Z.of_nat (length items) - i) < fuel)%nat ->
  outs.*1 = take (Z.to_nat i) items ->
  successes acc.1 = oks outs -> failures acc.1 = errs outs ->
  exists r outs',
    loop processFn fuel items b i acc = Some r /\
    outs'.*1 = items /\
    successes r.1 = oks outs' /\ failures r.1 = errs outs'.
Proof.
  intros Hb. revert i acc outs.
  induction fuel as [|fuel IH]; intros i acc outs Hi Hfuel Houts Hs Hf; [lia|].
  simpl. destruct (Z.ltb_spec i (Z.of_nat (length items))) as [Hlt|Hge].
  - destruct (processBatch_outcomes (slice items i (i + b)) acc outs Hs Hf)
      as (bouts & Hbouts & Hs' & Hf').
    apply (IH _ _ (outs ++ bouts)); [lia|lia| |done|done].
    rewrite fmap_app, Houts, Hbouts, slice_chunk by lia.
    rewrite take_take_drop. f_equal. lia.
  - exists acc, outs. split; [done|]. split; [|done].
    rewrite Houts. apply take_ge. lia.
Qed.
End accounting.

(** C1. With a chunk size of at least one and an operation that yields
    one result per item whenever it succeeds, [processBatches] returns,
    and every input item has exactly one outcome: there is a list of
    outcomes, one per input item and in input order, whose successful
    results are exactly [successes] and whose failed items (with their
    errors) are exactly [failures].  In particular the two lengths add
    up to the length of the input. *)
Theorem processBatches_accounts_for_every_item
    (items : list T) (batchSize : Z) (w : W) :
  1 <= batchSize -> one_result_per_item processFn ->
  exists r outs,
    (forall fuel, (length items < fuel)%nat ->
       processBatches processFn fuel items batchSize w = Some r) /\
    outs.*1 = items /\
    successes r.1 = oks outs /\
    failures r.1 = errs outs /\
    (length (successes r.1) + length (failures r.1) = length items)%nat.
Proof.
  intros Hb Hone.
  destruct (loop_outcomes Hone (S (length items)) items batchSize 0
              ({| successes := []; failures := [] |}, w) [])
    as (r & outs & Hrun & Houts & Hs & Hf); [lia|lia|lia|done|done|done|].
  exists r, outs. split; [|split; [done|split; [done|split; [done|]]]].
  - intros fuel Hfuel. apply (loop_fuel_mono _ _ _ _ _ _ _ Hrun). lia.
  - rewrite Hs, Hf, outcomes_count, <- Houts. by rewrite length_fmap.
Qed.

(** *** Termination *)

Lemma loop_terminates fuel (items : list T) b i acc :
  1 <= b -> 0 <= i ->
  (Z.to_nat (Z.of_nat (length items) - i) < fuel)%nat ->
  exists r, loop processFn fuel items b i acc = Some r.
Proof.
  intros Hb. revert i acc.
  induction fuel as [|fuel IH]; intros i acc Hi Hfuel; [lia|].
  simpl. destruct (Z.ltb_spec i (Z.of_nat (length items))); [|by eexists].
  apply IH; lia.
Qed.

(** With a step that is not positive the index never passes the end of
    a non-empty array. *)
Lemma loop_diverges fuel (items : list T) b i acc :
  items <> [] -> b <= 0 -> i <= 0 ->
  loop processFn fuel items b i acc = None.
Proof.
  intros Hne Hb. revert i acc.
  induction fuel as [|fuel IH]; intros i acc Hi; [done|].
  simpl. destruct (Z.ltb_spec i (Z.of_nat (length items))) as [_|Hge].
  - apply IH. lia.
  - destruct items; [done|]. simpl in Hge. lia.
Qed.

(** C10. [processBatches] returns for every list, operation and world
    as soon as the chunk size is at least one: [length items + 1] tests
    of the loop condition are enough.  With a chunk size of zero and a
    non-empty list no amount of fuel is enough: the loop never ends. *)
Theorem processBatches_terminates_iff_positive_step (items : list T) (w : W) :
  (forall batchSize, 1 <= batchSize ->
     exists r, processBatches processFn (S (length items)) items batchSize w = Some r) /\
  (items <> [] -> forall fuel, processBatches processFn fuel items 0 w = None).
Proof.
  split.
  - intros batchSize Hb. apply loop_terminates; lia.
  - intros Hne fuel. by apply loop_diverges.
Qed.

(** *** Failure isolation *)

Lemma chunks_aux_fuel (n f f' : nat) (l : list T) :
  (1 <= n)%nat -> (length l <= f)%nat -> (length l <= f')%nat ->
  chunks_aux f n l = chunks_aux f' n l.
Proof.
  intros Hn. revert f' l. induction f as [|f IH]; intros f' l Hf Hf'.
  - destruct l; [|simpl in Hf; lia]. by destruct f'.
  - destruct f' as [|f']; [destruct l; [done|simpl in Hf'; lia]|].
    simpl. destruct l as [|x l]; [done|]. f_equal.
    apply IH; rewrite length_drop; simpl in *; lia.
Qed.

Lemma chunks_cons (n : nat) (l : list T) :
  (1 <= n)%nat -> l <> [] -> chunks n l = take n l :: chunks n (drop n l).
Proof.
  intros Hn Hl. unfold chunks. destruct l as [|x l]; [done|].
  cbn [length chunks_aux]. f_equal.
  apply chunks_aux_fuel; [done| |done]. rewrite length_drop. simpl. lia.
Qed.

(** Every chunk holds between one and [n] items. *)
Lemma chunks_sizes (n : nat) (l : list T) :
  (1 <= n)%nat -> Forall (fun c => (1 <= length c <= n)%nat) (chunks n l).
Proof.
  intros Hn. remember (length l) as k eqn:Hk.
  revert l Hk. induction (lt_wf k) as [k _ IH]; intros l ->.
  destruct l as [|x l]; [by constructor|].
  rewrite chunks_cons by done. constructor.
  - rewrite length_take. simpl. lia.
  - apply (IH (length (drop n (x :: l)))); [|done].
    rewrite length_drop. simpl. lia.
Qed.

Lemma chunks_concat (n : nat) (l : list T) :
  (1 <= n)%nat -> concat (chunks n l) = l.
Proof.
  intros Hn. remember (length l) as k eqn:Hk.
  revert l Hk. induction (lt_wf k) as [k _ IH]; intros l ->.
  destruct l as [|x l]; [done|].
  rewrite chunks_cons by done. rewrite concat_cons.
  rewrite (IH (length (drop n (x :: l)))); [apply take_drop| |done].
  rewrite length_drop. simpl. lia.
Qed.

Lemma retryItem_eq (x : T) r (w : W) :
  retryItem processFn x (r, w) =
    match processFn [x] w with
    | (inr result, w') =>
        ({| successes := successes r ++ result; failures := failures r |}, w')
    | (inl itemError, w') =>
        ({| successes := successes r;
            failures := failures r ++ [(x, itemError)] |}, w')
    end.
Proof. done. Qed.

End batch_facts.

Section batch_isolation.
Import Batch.
Context {T U E W : Type}.
Variable processFn : list T -> W -> (E + list U) * W.

Lemma retryItem_logged (x : T) r (w : W) (log : list (list T)) :
  retryItem (logged processFn) x (r, (w, log)) =
    match processFn [x] w with
    | (inr result, w') =>
        ({| successes := successes r ++ result; failures := failures r |},
         (w', log ++ [[x]]))
    | (inl itemError, w') =>
        ({| successes := successes r;
            failures := failures r ++ [(x, itemError)] |},
         (w', log ++ [[x]]))
    end.
Proof.
  unfold retryItem, logged. simpl. by destruct (processFn [x] w) as [[e|result] w'].
Qed.

Lemma processBatch_logged (batch : list T) r (w : W) (log : list (list T)) :
  processBatch (logged processFn) batch (r, (w, log)) =
    match processFn batch w with
    | (inr results, w') =>
        ({| successes := successes r ++ results; failures := failures r |},
         (w', log ++ [batch]))
    | (inl _, w') =>
        fold_left (fun a item => retryItem (logged processFn) item a) batch
          (r, (w', log ++ [batch]))
    end.
Proof.
  unfold processBatch, logged at 1. simpl.
  by destruct (processFn batch w) as [[e|results] w'].
Qed.

Lemma retry_retried (batch : list T) r (w : W) (log : list (list T)) :
  exists calls ss fs w',
    retried processFn batch w calls ss fs w' /\
    fold_left (fun a item => retryItem (logged processFn) item a) batch
        (r, (w, log)) =
      ({| successes := successes r ++ ss; failures := failures r ++ fs |},
       (w', log ++ calls)).
Proof.
  revert r w log. induction batch as [|x batch IH]; intros r w log.
  - exists [], [], [], w. split; [constructor|].
    destruct r. simpl. by rewrite !app_nil_r.
  - simpl. rewrite retryItem_logged.
    destruct (processFn [x] w) as [[e|result] w1] eqn:Hcall.
    + destruct (IH {| successes := successes r;
                      failures := failures r ++ [(x, e)] |} w1 (log ++ [[x]]))
        as (calls & ss & fs & w' & Hret & Hfold).
      exists ([x] :: calls), ss, ((x, e) :: fs), w'.
      split; [by eapply retried_failed|].
      rewrite Hfold. simpl. by rewrite <- !app_assoc.
    + destruct (IH {| successes := successes r ++ result;
                      failures := failures r |} w1 (log ++ [[x]]))
        as (calls & ss & fs & w' & Hret & Hfold).
      exists ([x] :: calls), (result ++ ss), fs, w'.
      split; [by eapply retried_ok|].
      rewrite Hfold. simpl. by rewrite <- !app_assoc.
Qed.

Lemma loop_batch_run fuel (items : list T) b i r (w : W) (log : list (list T)) :
  1 <= b -> 0 <= i ->
  (Z.to_nat (Z.of_nat (length items) - i) < fuel)%nat ->
  exists calls ss fs w',
    batch_run processFn (chunks (Z.to_nat b) (drop (Z.to_nat i) items))
      w calls ss fs w' /\
    loop (logged processFn) fuel items b i (r, (w, log)) =
      Some ({| successes := successes r ++ ss; failures := failures r ++ fs |},
            (w', log ++ calls)).
Proof.
  intros Hb. revert i r w log.
  induction fuel as [|fuel IH]; intros i r w log Hi Hfuel; [lia|].
  simpl. destruct (Z.ltb_spec i (Z.of_nat (length items))) as [Hlt|Hge].
  - rewrite chunks_cons; [|lia|].
    2:{ intros Hnil. apply (f_equal length) in Hnil.
        rewrite length_drop in Hnil. simpl in Hnil. lia. }
    rewrite drop_drop, slice_chunk by lia.
    replace (Z.to_nat i + Z.to_nat b)%nat with (Z.to_nat (i + b)) by lia.
    set (batch := take (Z.to_nat b) (drop (Z.to_nat i) items)).
    rewrite processBatch_logged.
    destruct (processFn batch w) as [[e|results] w1] eqn:Hcall.
    + destruct (retry_retried batch r w1 (log ++ [batch]))
        as (rcalls & rss & rfs & w2 & Hret & Hfold).
      rewrite Hfold.
      destruct (IH (i + b) {| successes := successes r ++ rss;
                              failures := failures r ++ rfs |} w2
                  ((log ++ [batch]) ++ rcalls))
        as (calls & ss & fs & w' & Hrun & Hloop); [lia|lia|].
      exists (batch :: rcalls ++ calls), (rss ++ ss), (rfs ++ fs), w'.
      split; [by eapply run_chunk_retried|].
      rewrite Hloop. simpl. by rewrite <- !app_assoc.
    + destruct (IH (i + b) {| successes := successes r ++ results;
                              failures := failures r |} w1 (log ++ [batch]))
        as (calls & ss & fs & w' & Hrun & Hloop); [lia|lia|].
      exists (batch :: calls), (results ++ ss), fs, w'.
      split; [by eapply run_chunk_ok|].
      rewrite Hloop. simpl. by rewrite <- !app_assoc.
  - rewrite drop_ge by lia. exists [], [], [], w. split; [constructor|].
    destruct r. simpl. by rewrite !app_nil_r.
Qed.

(** Recording the calls changes neither the result nor the world. *)
Lemma retry_logged (batch : list T) r (w : W) (log : list (list T)) :
  exists log',
    fold_left (fun a item => retryItem (logged processFn) item a) batch
        (r, (w, log)) =
      ((fold_left (fun a item => retryItem processFn item a) batch (r, w)).1,
       ((fold_left (fun a item => retryItem processFn item a) batch (r, w)).2,
        log')).
Proof.
  revert r w log. induction batch as [|x batch IH]; intros r w log; [by eexists|].
  simpl. rewrite retryItem_logged, !retryItem_eq.
  destruct (processFn [x] w) as [[e|result] w1]; apply IH.
Qed.

Lemma loop_logged fuel (items : list T) b i r (w : W) (log : list (list T)) :
  match loop (logged processFn) fuel items b i (r, (w, log)) with
  | Some rec => loop processFn fuel items b i (r, w) = Some (rec.1, rec.2.1)
  | None => loop processFn fuel items b i (r, w) = None
  end.
Proof.
  revert i r w log. induction fuel as [|fuel IH]; intros i r w log; [done|].
  simpl. destruct (i <? Z.of_nat (length items)); [|done].
  rewrite processBatch_logged. unfold processBatch. simpl.
  destruct (processFn (slice items i (i + b)) w) as [[e|results] w1]; [|apply IH].
  destruct (retry_logged (slice items i (i + b)) r w1
              (log ++ [slice items i (i + b)])) as [log' ->].
  destruct (fold_left _ _ (r, w1)) as [r' w']. apply IH.
Qed.

(** C2. With a chunk size of at least one, [processBatches] returns a
    result (it never passes an error of the operation on to its caller),
    and the calls it makes to the operation, the successes and the
    failures are those of [batch_run] on the contiguous chunks of the
    input: a chunk whose whole-chunk call succeeds is called once and
    its items are not attempted again; a chunk whose whole-chunk call
    throws has each of its items retried alone, in order, a successful
    retry adding its result to the successes and a failed one adding
    the pair of the item and its error to the failures. *)
Theorem processBatches_isolates_failed_chunks
    (items : list T) (batchSize : Z) (w : W) :
  1 <= batchSize ->
  exists r w' calls,
    (forall fuel, (length items < fuel)%nat ->
       processBatches processFn fuel items batchSize w = Some (r, w') /\
       processBatches (logged processFn) fuel items batchSize (w, []) =
         Some (r, (w', calls))) /\
    concat (chunks (Z.to_nat batchSize) items) = items /\
    batch_run processFn (chunks (Z.to_nat batchSize) items) w
      calls (successes r) (failures r) w'.
Proof.
  intros Hb.
  destruct (loop_batch_run (S (length items)) items batchSize 0
              {| successes := []; failures := [] |} w [])
    as (calls & ss & fs & w' & Hrun & Hloop); [lia|lia|lia|].
  cbn [successes failures app Z.to_nat drop] in Hrun, Hloop.
  exists {| successes := ss; failures := fs |}, w', calls.
  split; [|split; [apply chunks_concat; lia|done]].
  intros fuel Hfuel.
  assert (processBatches (logged processFn) fuel items batchSize (w, []) =
            Some ({| successes := ss; failures := fs |}, (w', calls))) as Hrec.
  { apply (loop_fuel_mono _ _ _ _ _ _ _ _ Hloop). lia. }
  split; [|done].
  pose proof (loop_logged fuel items batchSize 0
                {| successes := []; failures := [] |} w []) as Hplain.
  unfold processBatches in Hrec |- *. by rewrite Hrec in Hplain.
Qed.

End batch_isolation.

(** *** The engine on concrete input *)

Section batch_examples.
Import Batch BatchExample.
Local Open Scope string_scope.

Example run_with_poisoned_item :
  processBatches (failsWith "d") 4 ["a"; "b"; "c"; "d"; "e"] 2 tt =
    Some ({| successes := ["a"; "b"; "c"; "e"];
             failures := [("d", "bad item")] |}, tt).
Proof. vm_compute. reflexivity. Qed.

Example run_with_chunk_size_one :
  processBatches (logged (failsWith "d")) 6 ["a"; "b"; "c"; "d"; "e"] 1 (tt, []) =
    Some ({| successes := ["a"; "b"; "c"; "e"];
             failures := [("d", "bad item")] |},
          (tt, [["a"]; ["b"]; ["c"]; ["d"]; ["d"]; ["e"]])).
Proof. vm_compute. reflexivity. Qed.

Example run_out_of_fuel :
  processBatches (failsWith "d") 3 ["a"; "b"; "c"; "d"; "e"] 2 tt = None.
Proof. vm_compute. reflexivity. Qed.

Lemma failsWith_one_result_per_item poison :
  one_result_per_item (failsWith poison).
Proof.
  intros batch w results w'. unfold failsWith.
  case_decide; intros [= <- _]; done.
Qed.

Lemma processBatches_accounts_for_every_item_witness :
  exists r outs,
    (forall fuel, (5 < fuel)%nat ->
       processBatches (failsWith "d") fuel ["a"; "b"; "c"; "d"; "e"] 2 tt = Some r) /\
    outs.*1 = ["a"; "b"; "c"; "d"; "e"] /\
    successes r.1 = oks outs /\
    failures r.1 = errs outs /\
    (length (successes r.1) + length (failures r.1) = 5)%nat.
Proof.
  apply (processBatches_accounts_for_every_item (failsWith "d")
           ["a"; "b"; "c"; "d"; "e"] 2 tt).
  - lia.
  - apply failsWith_one_result_per_item.
Defined.

Lemma processBatches_terminates_iff_positive_step_witness :
  (exists r, processBatches (failsWith "d") 6 ["a"; "b"; "c"; "d"; "e"] 2 tt = Some r) /\
  (forall fuel, processBatches (failsWith "d") fuel ["a"; "b"; "c"; "d"; "e"] 0 tt = None).
Proof.
  destruct (processBatches_terminates_iff_positive_step (failsWith "d")
              ["a"; "b"; "c"; "d"; "e"] tt) as [Hpos Hzero].
  split.
  - apply Hpos. lia.
  - apply Hzero. discriminate.
Defined.

Lemma processBatches_isolates_failed_chunks_witness :
  exists r w' calls,
    (forall fuel, (5 < fuel)%nat ->
       processBatches (failsWith "d") fuel ["a"; "b"; "c"; "d"; "e"] 2 tt =
         Some (r, w') /\
       processBatches (logged (failsWith "d")) fuel ["a"; "b"; "c"; "d"; "e"] 2
           (tt, []) = Some (r, (w', calls))) /\
    concat (chunks 2 ["a"; "b"; "c"; "d"; "e"]) = ["a"; "b"; "c"; "d"; "e"] /\
    batch_run (failsWith "d") (chunks 2 ["a"; "b"; "c"; "d"; "e"]) tt
      calls (successes r) (failures r) w'.
Proof.
  apply (processBatches_isolates_failed_chunks (failsWith "d")
           ["a"; "b"; "c"; "d"; "e"] 2 tt).
  lia.
Defined.

(** The scenario of the specification's example: the operation throws
    on the whole chunk [["c"; "d"]] and succeeds on every other call. *)
Example example_scenario_calls :
  failsOn ["c"; "d"] ["a"; "b"] tt = (inr ["a"; "b"], tt) /\
  failsOn ["c"; "d"] ["c"; "d"] tt = (inl "batch rejected", tt) /\
  failsOn ["c"; "d"] ["c"] tt = (inr ["c"], tt) /\
  failsOn ["c"; "d"] ["d"] tt = (inr ["d"], tt) /\
  failsOn ["c"; "d"] ["e"] tt = (inr ["e"], tt).
Proof. by vm_compute. Qed.

(** C9, as stated, does not hold: in the scenario of the example the
    engine does not return successes [["a"; "b"; "c"; "d"]] and no
    failures, whatever the fuel. *)
Lemma example_result_as_stated_is_not_returned :
  ~ exists fuel r w,
      processBatches (failsOn ["c"; "d"]) fuel ["a"; "b"; "c"; "d"; "e"] 2 tt =
        Some (r, w) /\
      successes r = ["a"; "b"; "c"; "d"] /\ failures r = [].
Proof.
  intros (fuel & r & w & Hrun & Hs & _).
  assert (processBatches (failsOn ["c"; "d"]) 4 ["a"; "b"; "c"; "d"; "e"] 2 tt =
            Some ({| successes := ["a"; "b"; "c"; "d"; "e"];
                     failures := [] |}, tt)) as Hrun4 by (by vm_compute).
  pose proof (processBatches_deterministic _ _ _ _ _ _ _ _ Hrun Hrun4) as Heq.
  injection Heq as -> _. discriminate Hs.
Qed.

(** C9, amended.  In the scenario of the example the engine calls the
    operation on [["a"; "b"]], on [["c"; "d"]], then on ["c"] and on
    ["d"] alone, and on [["e"]]; it returns the successes
    [["a"; "b"; "c"; "d"; "e"]], the item ["e"] of the last chunk
    included, and no failures. *)
Theorem spec_example_returns_all_five_items :
  processBatches (logged (failsOn ["c"; "d"])) 4 ["a"; "b"; "c"; "d"; "e"] 2
      (tt, []) =
    Some ({| successes := ["a"; "b"; "c"; "d"; "e"]; failures := [] |},
          (tt, [["a"; "b"]; ["c"; "d"]; ["c"]; ["d"]; ["e"]])).
Proof. by vm_compute. Qed.

End batch_examples.

(** * The JSON text of credentials parses back to the credentials *)

Section json_facts.
Import Json.
Local Open Scope string_scope.
Local Arguments String.append !_ _ / : simpl nomatch.

(** Decides the tests on the code of a character once bounds on the
    code are among the hypotheses. *)
Ltac decide_codes :=
  repeat match goal with
  | |- context [(N_of_ascii ?c =? ?k)%N] =>
      destruct (N.eqb_spec (N_of_ascii c) k); [lia|]
  end.

Lemma append_assoc (a b c : string) : (a ++ b) ++ c = a ++ (b ++ c).
Proof. induction a as [|x a IH]; simpl; [done|]. by rewrite IH. Qed.

Lemma length_append (a b : string) :
  String.length (a ++ b) = (String.length a + String.length b)%nat.
Proof. induction a as [|x a IH]; simpl; [done|]. by rewrite IH. Qed.

(** **** String literals *)

Lemma parse_chars_quote_char (c : ascii) (tail : string) :
  parse_chars (quote_char c ++ tail) = prepend c (parse_chars tail).
Proof. destruct c as [[] [] [] [] [] [] [] []]; reflexivity. Qed.

Lemma parse_chars_quote_body (s rest : string) :
  parse_chars (quote_body s ++ String dquote rest) = Some (s, rest).
Proof.
  induction s as [|c s IH]; [done|].
  simpl. rewrite append_assoc, parse_chars_quote_char, IH. done.
Qed.

Lemma quote_append (s rest : string) :
  quote s ++ rest = String dquote (quote_body s ++ String dquote rest).
Proof. unfold quote. simpl. by rewrite append_assoc. Qed.

(** **** Numbers *)

Lemma span_digits_uint (u : Decimal.uint) (rest : string) :
  match rest with String c _ => is_digit c = false | EmptyString => True end ->
  span_digits (NilEmpty.string_of_uint u ++ rest) = (NilEmpty.string_of_uint u, rest).
Proof.
  intros Hrest. induction u as [|u IH|u IH|u IH|u IH|u IH|u IH|u IH|u IH|u IH|u IH];
    simpl; try (rewrite IH; reflexivity).
  destruct rest as [|c rest]; [done|]. simpl. by rewrite Hrest.
Qed.

Lemma print_N_head (n : N) :
  exists c r, print_N n = String c r /\ is_digit c = true.
Proof.
  unfold print_N.
  assert (N.to_uint n <> Decimal.Nil) as Hnil.
  { destruct n; [done|]. apply DecimalPos.Unsigned.to_uint_nonnil. }
  destruct (N.to_uint n); try done; eexists _, _; split; reflexivity.
Qed.

(** Distinct numbers have distinct decimals. *)
Lemma print_N_inj (n m : N) : print_N n = print_N m -> n = m.
Proof.
  unfold print_N. intros Heq.
  apply (f_equal NilEmpty.uint_of_string) in Heq.
  rewrite !NilEmpty.usu in Heq. injection Heq as Heq.
  by apply DecimalN.Unsigned.to_uint_inj.
Qed.

Lemma digit_code (c : ascii) :
  is_digit c = true -> (48 <= N_of_ascii c <= 57)%N.
Proof.
  unfold is_digit. intros [H1 H2]%andb_prop.
  apply N.leb_le in H1, H2. lia.
Qed.

Lemma closes_value_no_digit (rest : string) :
  closes_value rest ->
  match rest with String c _ => is_digit c = false | EmptyString => True end.
Proof. by intros [r [-> | ->]]. Qed.

Lemma closes_value_no_fraction (rest : string) :
  closes_value rest -> starts_fraction_or_exponent rest = false.
Proof. by intros [r [-> | ->]]. Qed.

Lemma parse_number_unsigned (n : N) (rest : string) :
  closes_value rest ->
  parse_number (print_N n ++ rest) = Some (JNumber (Z.of_N n), rest).
Proof.
  intros Hrest. unfold parse_number.
  destruct (print_N_head n) as (c & r & Hhead & Hdigit).
  pose proof (digit_code c Hdigit) as Hcode.
  assert (print_N n ++ rest = String c (r ++ rest)) as Hs by (by rewrite Hhead).
  rewrite Hs. destruct (N.eqb_spec (N_of_ascii c) 45) as [?|_]; [lia|].
  rewrite <- Hs. unfold print_N at 1.
  rewrite span_digits_uint by (by apply closes_value_no_digit).
  fold (print_N n). rewrite Hhead at 1.
  rewrite closes_value_no_fraction by done.
  unfold print_N at 1. rewrite NilEmpty.usu, DecimalN.Unsigned.of_to.
  by rewrite String.eqb_refl.
Qed.

Lemma parse_number_print_Z (n : Z) (rest : string) :
  closes_value rest ->
  parse_number (print_Z n ++ rest) = Some (JNumber n, rest).
Proof.
  intros Hrest. unfold print_Z. destruct (Z.ltb_spec n 0) as [Hneg|Hpos].
  - unfold parse_number. simpl.
    unfold print_N at 1.
    rewrite span_digits_uint by (by apply closes_value_no_digit).
    fold (print_N (Z.abs_N n)).
    destruct (print_N_head (Z.abs_N n)) as (c & r & Hhead & _).
    rewrite Hhead at 1. rewrite closes_value_no_fraction by done.
    unfold print_N at 1. rewrite NilEmpty.usu, DecimalN.Unsigned.of_to.
    rewrite String.eqb_refl. do 3 f_equal. lia.
  - rewrite parse_number_unsigned by done. do 3 f_equal. lia.
Qed.

(** **** Values *)

Lemma print_Z_head (n : Z) :
  exists c r, print_Z n = String c r /\ (is_digit c = true \/ N_of_ascii c = 45%N).
Proof.
  unfold print_Z. destruct (n <? 0)%Z.
  - eexists _, _. split; [reflexivity|by right].
  - destruct (print_N_head (Z.to_N n)) as (c & r & -> & Hd). eauto.
Qed.

Lemma parse_value_print (v : jvalue) (rest : string) :
  closes_value rest ->
  parse_value (print_value v ++ rest) = Some (v, rest).
Proof.
  intros Hrest. destruct v as [|[]|n|s]; try reflexivity.
  - simpl. destruct (print_Z_head n) as (c & r & Hhead & Hc).
    pose proof (parse_number_print_Z n rest Hrest) as Hnum.
    rewrite Hhead in Hnum |- *. simpl.
    assert (48 <= N_of_ascii c <= 57 \/ N_of_ascii c = 45)%N as Hcode.
    { destruct Hc as [Hd|Hm]; [left; by apply digit_code|by right]. }
    decide_codes. exact Hnum.
  - simpl print_value. rewrite quote_append. simpl.
    by rewrite parse_chars_quote_body.
Qed.

Lemma skip_ws_print_value (v : jvalue) (rest : string) :
  skip_ws (print_value v ++ rest) = print_value v ++ rest.
Proof.
  destruct v as [|[]|n|s]; try reflexivity.
  simpl. destruct (print_Z_head n) as (c & r & -> & Hc). simpl.
  assert (48 <= N_of_ascii c <= 57 \/ N_of_ascii c = 45)%N as Hcode.
  { destruct Hc as [Hd|Hm]; [left; by apply digit_code|by right]. }
  unfold is_ws. by decide_codes.
Qed.

(** **** Objects *)

Lemma assoc_set_fresh (k : string) (v : jvalue) (o : Credentials) :
  k ∉ o.*1 -> assoc_set k v o = (o ++ [(k, v)])%list.
Proof.
  induction o as [|[k' v'] o IH]; intros Hk; [done|].
  simpl. destruct (String.eqb_spec k k') as [->|_].
  - exfalso. apply Hk. simpl. left.
  - rewrite IH; [done|]. intros Hin. apply Hk. simpl. by right.
Qed.

Lemma define_all_fresh (ms acc : Credentials) :
  NoDup (acc.*1 ++ ms.*1)%list ->
  fold_left (fun a m => assoc_set m.1 m.2 a) ms acc = (acc ++ ms)%list.
Proof.
  revert acc. induction ms as [|[k v] ms IH]; intros acc Hnd; simpl.
  - by rewrite app_nil_r.
  - rewrite assoc_set_fresh.
    + rewrite IH; [by rewrite <- app_assoc|].
      by rewrite fmap_app, <- app_assoc.
    + apply NoDup_app in Hnd as (_ & Hdisj & _).
      intros Hin. apply (Hdisj k Hin). simpl. left.
Qed.

Lemma print_members_cons (m : string * jvalue) (ms : Credentials) (rest : string) :
  exists tail,
    print_members (m :: ms) ++ String "}" rest =
      String dquote (quote_body m.1 ++
        String dquote (String ":" (print_value m.2 ++ tail))) /\
    match ms with
    | [] => tail = String "}" rest
    | _ => tail = String "," (print_members ms ++ String "}" rest)
    end.
Proof.
  destruct ms as [|m' ms].
  - exists (String "}" rest). split; [|done].
    simpl. unfold print_member, quote. simpl. by rewrite !append_assoc.
  - exists (String "," (print_members (m' :: ms) ++ String "}" rest)).
    split; [|done].
    change (print_members (m :: m' :: ms))
      with (print_member m ++ "," ++ print_members (m' :: ms)).
    unfold print_member, quote. simpl. by rewrite !append_assoc.
Qed.

Lemma skip_ws_print_members (m : string * jvalue) (ms : Credentials)
    (rest : string) :
  skip_ws (print_members (m :: ms) ++ String "}" rest) =
    print_members (m :: ms) ++ String "}" rest.
Proof. by destruct (print_members_cons m ms rest) as (tail & -> & _). Qed.

Lemma parse_members_print (ms : Credentials) (m : string * jvalue)
    (fuel : nat) (acc : Credentials) (rest : string) :
  (length ms < fuel)%nat ->
  parse_members fuel (print_members (m :: ms) ++ String "}" rest) acc =
    Some (fold_left (fun a m => assoc_set m.1 m.2 a) (m :: ms) acc, rest).
Proof.
  revert m fuel acc. induction ms as [|m' ms IH]; intros m fuel acc Hfuel;
    (destruct fuel as [|fuel]; [simpl in Hfuel; lia|]).
  - destruct (print_members_cons m [] rest) as (tail & -> & ->).
    simpl. rewrite parse_chars_quote_body. simpl.
    rewrite skip_ws_print_value, parse_value_print; [done|].
    eexists; by right.
  - destruct (print_members_cons m (m' :: ms) rest) as (tail & -> & ->).
    remember (print_members (m' :: ms) ++ String "}" rest) as next eqn:Hnext.
    simpl parse_members. rewrite parse_chars_quote_body. simpl.
    rewrite skip_ws_print_value, parse_value_print by (eexists; by left).
    simpl. subst next. rewrite skip_ws_print_members.
    apply IH. simpl in Hfuel. lia.
Qed.

Lemma length_print_members (ms : Credentials) :
  (length ms <= String.length (print_members ms))%nat.
Proof.
  induction ms as [|m ms IH]; [done|].
  destruct ms as [|m' ms].
  - simpl. unfold print_member, quote. simpl. lia.
  - change (print_members (m :: m' :: ms))
      with (print_member m ++ "," ++ print_members (m' :: ms)).
    rewrite !length_append. simpl in *. lia.
Qed.

(** [JSON.parse(JSON.stringify(tokens))] is [tokens] for an object. *)
Lemma JSON_parse_stringify (tokens : Credentials) :
  NoDup tokens.*1 -> JSON_parse (JSON_stringify tokens) = Some tokens.
Proof.
  intros Hnd. destruct tokens as [|m ms]; [done|].
  unfold JSON_parse, JSON_stringify.
  pose proof (length_print_members (m :: ms)) as Hlen.
  assert (length ms < String.length ("{" ++ print_members (m :: ms) ++ "}"))%nat
    as Hfuel.
  { rewrite !length_append. simpl in *. lia. }
  remember (String.length ("{" ++ print_members (m :: ms) ++ "}")) as fuel.
  change ("{" ++ print_members (m :: ms) ++ "}")
    with (String "{" (print_members (m :: ms) ++ String "}" EmptyString)).
  remember (print_members (m :: ms) ++ String "}" EmptyString) as text eqn:Htext.
  simpl. subst text. rewrite skip_ws_print_members.
  destruct (print_members_cons m ms EmptyString) as (tail & Htext & _).
  rewrite Htext at 1. simpl strip. cbv iota.
  rewrite parse_members_print by done.
  simpl skip_ws. cbv iota. f_equal.
  by apply (define_all_fresh (m :: ms) []).
Qed.

End json_facts.

(** * Properties of the callback listener *)

Section listener_facts.
Import Json Fs OAuth.
Context {OS : Type}.
Variable listen : N -> OS -> (SystemError + AddressInfo) * OS.

Lemma tryListen_step (fuel : nat) (p : N) (os : OS) (log : list N) :
  tryListen (logged listen) (S fuel) p (os, log) =
    match listen p os with
    | (inl err, os') =>
        if String.eqb (code err) "EADDRINUSE"
        then tryListen (logged listen) fuel 0%N (os', log ++ [p])
        else (Exited 1, (os', log ++ [p]))
    | (inr addr, os') => (Resolved (addr_port addr), (os', log ++ [p]))
    end.
Proof.
  simpl. unfold logged at 1. simpl.
  by destruct (listen p os) as [[err|addr] os'].
Qed.

(** Recording the ports asked for changes neither the outcome nor the
    state of the operating system. *)
Lemma tryListen_logged (fuel : nat) (p : N) (os : OS) (log : list N) :
  exists log',
    tryListen (logged listen) fuel p (os, log) =
      ((tryListen listen fuel p os).1, ((tryListen listen fuel p os).2, log')).
Proof.
  revert p os log. induction fuel as [|fuel IH]; intros p os log; [by eexists|].
  rewrite tryListen_step. simpl.
  destruct (listen p os) as [[err|addr] os']; [|by eexists].
  destruct (String.eqb (code err) "EADDRINUSE"); [apply IH|by eexists].
Qed.

(** Whatever the number of retries: a resolved port is the port of the
    address that the last [listen] bound, and the process ends only on
    a bind error other than address-in-use. *)
Lemma tryListen_outcome (fuel : nat) (p : N) (os : OS) :
  match tryListen listen fuel p os with
  | (Resolved q, os') =>
      exists p0 os0 addr,
        listen p0 os0 = (inr addr, os') /\ q = addr_port addr /\
        (p0 = p \/ p0 = 0%N)
  | (Exited n, os') =>
      n = 1 /\
      exists p0 os0 err,
        listen p0 os0 = (inl err, os') /\ code err <> "EADDRINUSE"%string
  | (Retrying, _) => True
  end.
Proof.
  revert p os. induction fuel as [|fuel IH]; intros p os; [done|].
  simpl. destruct (listen p os) as [[err|addr] os'] eqn:Hlisten.
  - destruct (String.eqb_spec (code err) "EADDRINUSE") as [Heq|Hne].
    + specialize (IH 0%N os').
      destruct (tryListen listen fuel 0%N os') as [[q|n|] os'']; [|done|done].
      destruct IH as (p0 & os0 & addr & H1 & H2 & H3).
      exists p0, os0, addr. split; [done|]. split; [done|]. right. by destruct H3.
    + split; [done|]. by exists p, os, err.
  - exists p, os, addr. split; [done|]. split; [done|]. by left.
Qed.

(** C4. The first [listen] asks for the preferred port.  If it binds,
    the listener resolves with the port of the bound address and asks
    for nothing else.  If it fails with an error other than
    [EADDRINUSE], the process exits with status 1 and nothing else is
    asked for.  If it fails with [EADDRINUSE], and only then, the
    listener asks again, for port 0; when that binds it resolves with
    the port that the operating system chose, and when that fails with
    an error other than [EADDRINUSE] the process exits with status 1. *)
Theorem listener_falls_back_only_on_address_in_use
    (fuel : nat) (preferredPort : N) (os : OS) :
  (forall addr os1,
     listen preferredPort os = (inr addr, os1) ->
     tryListen (logged listen) (S fuel) preferredPort (os, []) =
       (Resolved (addr_port addr), (os1, [preferredPort]))) /\
  (forall err os1,
     listen preferredPort os = (inl err, os1) ->
     code err <> "EADDRINUSE"%string ->
     tryListen (logged listen) (S fuel) preferredPort (os, []) =
       (Exited 1, (os1, [preferredPort]))) /\
  (forall err os1,
     listen preferredPort os = (inl err, os1) ->
     code err = "EADDRINUSE"%string ->
     tryListen (logged listen) (S fuel) preferredPort (os, []) =
       tryListen (logged listen) fuel 0%N (os1, [preferredPort]) /\
     (forall addr os2,
        listen 0%N os1 = (inr addr, os2) ->
        tryListen (logged listen) (S (S fuel)) preferredPort (os, []) =
          (Resolved (addr_port addr), (os2, [preferredPort; 0%N]))) /\
     (forall err' os2,
        listen 0%N os1 = (inl err', os2) ->
        code err' <> "EADDRINUSE"%string ->
        tryListen (logged listen) (S (S fuel)) preferredPort (os, []) =
          (Exited 1, (os2, [preferredPort; 0%N])))).
Proof.
  split; [|split].
  - intros addr os1 Hlisten. by rewrite tryListen_step, Hlisten.
  - intros err os1 Hlisten Hcode. rewrite tryListen_step, Hlisten.
    by destruct (String.eqb_spec (code err) "EADDRINUSE").
  - intros err os1 Hlisten Hcode.
    assert (forall n, tryListen (logged listen) (S n) preferredPort (os, []) =
                      tryListen (logged listen) n 0%N (os1, [preferredPort]))
      as Hretry.
    { intros n. rewrite tryListen_step, Hlisten, Hcode. done. }
    split; [apply Hretry|]. split.
    + intros addr os2 Hzero. by rewrite Hretry, tryListen_step, Hzero.
    + intros err' os2 Hzero Hcode'. rewrite Hretry, tryListen_step, Hzero.
      by destruct (String.eqb_spec (code err') "EADDRINUSE").
Qed.

End listener_facts.

(** * Properties of the authorization flow *)

Section flow_facts.
Import Json Fs OAuth.
Context {OS Remote : Type}.
Variable newURL : string -> option string -> option URL.
Variable listen : N -> OS -> (SystemError + AddressInfo) * OS.
Variable tokenEndpoint : TokenRequest -> Remote -> (Error + Credentials) * Remote.
Variable CREDENTIALS_PATH : string.

Lemma deliver_listening (url : option string) (f : Flow) (w : FS * Remote) :
  listening f = true ->
  deliver newURL tokenEndpoint CREDENTIALS_PATH url (f, w) =
    onRequest newURL tokenEndpoint CREDENTIALS_PATH url (f, w).
Proof. unfold deliver. cbn [fst]. by intros ->. Qed.

Lemma deliver_closed (url : option string) (f : Flow) (w : FS * Remote) :
  listening f = false ->
  deliver newURL tokenEndpoint CREDENTIALS_PATH url (f, w) = (f, w).
Proof. unfold deliver. cbn [fst]. by intros ->. Qed.

(** *** Requests that are ignored *)

Lemma onRequest_ignores (url : option string) (st : Flow * (FS * Remote)) :
  match url with
  | Some target => String.prefix (pathName st.1) target = false
  | None => True
  end ->
  onRequest newURL tokenEndpoint CREDENTIALS_PATH url st = st.
Proof.
  destruct st as [f [fs remote]], url as [target|]; [|done].
  simpl. by intros ->.
Qed.

(** *** Requests without a code *)

Lemma onRequest_without_code (target : string) (u : URL) (f : Flow)
    (fs : FS) (remote : Remote) :
  String.prefix (pathName f) target = true ->
  newURL target (Some (requestBase f)) = Some u ->
  searchParams_get (searchParams u) "code" = None \/
  searchParams_get (searchParams u) "code" = Some EmptyString ->
  onRequest newURL tokenEndpoint CREDENTIALS_PATH (Some target) (f, (fs, remote)) =
    (reject {| message := "No code provided" |}
       (respond 400 "No code provided" f), (fs, remote)).
Proof.
  intros Hprefix Hurl Hcode. simpl. rewrite Hprefix. simpl. rewrite Hurl.
  by destruct Hcode as [-> | ->].
Qed.

(** *** Requests with a code *)

Lemma onRequest_with_code (target : string) (u : URL) (f : Flow)
    (fs : FS) (remote : Remote) (authorization_code : string) :
  String.prefix (pathName f) target = true ->
  newURL target (Some (requestBase f)) = Some u ->
  searchParams_get (searchParams u) "code" = Some authorization_code ->
  authorization_code <> EmptyString ->
  onRequest newURL tokenEndpoint CREDENTIALS_PATH (Some target) (f, (fs, remote)) =
    match getToken tokenEndpoint (oauth2Client f) authorization_code remote with
    | (inr tokens, remote') =>
        match writeFileSync CREDENTIALS_PATH (JSON_stringify tokens) fs with
        | inr fs' =>
            (resolve (close (respond 200
               "Authentication successful! You can close this window."
               (with_client (setCredentials tokens (oauth2Client f)) f))),
             (fs', remote'))
        | inl error =>
            (reject error (respond 500 "Authentication failed"
               (with_client (setCredentials tokens (oauth2Client f)) f)),
             (fs, remote'))
        end
    | (inl error, remote') =>
        (reject error (respond 500 "Authentication failed" f), (fs, remote'))
    end.
Proof.
  intros Hprefix Hurl Hcode Hne. simpl. rewrite Hprefix. simpl.
  rewrite Hurl, Hcode. by destruct authorization_code.
Qed.



(** *** When the listener closes *)

(** After a successful exchange the server is closed. *)
Lemma listener_closes_after_successful_exchange (target : string) (u : URL)
    (f : Flow) (fs fs' : FS) (remote remote' : Remote)
    (authorization_code : string) (tokens : Credentials) :
  String.prefix (pathName f) target = true ->
  newURL target (Some (requestBase f)) = Some u ->
  searchParams_get (searchParams u) "code" = Some authorization_code ->
  authorization_code <> EmptyString ->
  getToken tokenEndpoint (oauth2Client f) authorization_code remote =
    (inr tokens, remote') ->
  writeFileSync CREDENTIALS_PATH (JSON_stringify tokens) fs = inr fs' ->
  listening (onRequest newURL tokenEndpoint CREDENTIALS_PATH (Some target)
               (f, (fs, remote))).1 = false.
Proof.
  intros Hprefix Hurl Hcode Hne Htoken Hwrite.
  rewrite (onRequest_with_code target u f fs remote authorization_code) by done.
  by rewrite Htoken, Hwrite.
Qed.

(** After a callback without a code the handler returns without
    closing the server. *)
Lemma listener_open_after_callback_without_code (target : string) (u : URL)
    (f : Flow) (fs : FS) (remote : Remote) :
  String.prefix (pathName f) target = true ->
  newURL target (Some (requestBase f)) = Some u ->
  searchParams_get (searchParams u) "code" = None \/
  searchParams_get (searchParams u) "code" = Some EmptyString ->
  listening (onRequest newURL tokenEndpoint CREDENTIALS_PATH (Some target)
               (f, (fs, remote))).1 = listening f.
Proof.
  intros Hprefix Hurl Hcode.
  by rewrite (onRequest_without_code target u).
Qed.

(** After a failed exchange the handler does not close the server
    either. *)
Lemma listener_open_after_failed_exchange (target : string) (u : URL)
    (f : Flow) (fs : FS) (remote remote' : Remote)
    (authorization_code : string) (error : Error) :
  String.prefix (pathName f) target = true ->
  newURL target (Some (requestBase f)) = Some u ->
  searchParams_get (searchParams u) "code" = Some authorization_code ->
  authorization_code <> EmptyString ->
  getToken tokenEndpoint (oauth2Client f) authorization_code remote =
    (inl error, remote') ->
  listening (onRequest newURL tokenEndpoint CREDENTIALS_PATH (Some target)
               (f, (fs, remote))).1 = listening f.
Proof.
  intros Hprefix Hurl Hcode Hne Htoken.
  rewrite (onRequest_with_code target u f fs remote authorization_code) by done.
  by rewrite Htoken.
Qed.

(** An ended process handles no request. *)
Lemma ended_process_is_deaf (requests : list (option string)) (n : Z)
    (st : Flow * (FS * Remote)) :
  fold_left (fun p url => receive newURL tokenEndpoint CREDENTIALS_PATH url p)
    requests (Ended n st) = Ended n st.
Proof. by induction requests. Qed.

(** What the process has handled is what the listener makes of the
    requests up to the one that ended the process: of all of them
    while the process runs. *)
Lemma await_serve (requests : list (option string))
    (st : Flow * (FS * Remote)) :
  match await newURL tokenEndpoint CREDENTIALS_PATH requests st with
  | Running st' =>
      st' = serve newURL tokenEndpoint CREDENTIALS_PATH requests st
  | Ended _ st' =>
      exists handled rest,
        requests = handled ++ rest /\
        st' = serve newURL tokenEndpoint CREDENTIALS_PATH handled st
  end.
Proof.
  induction requests as [|url requests IH] using rev_ind; [done|].
  unfold await, serve in *. rewrite !fold_left_app. cbn [fold_left].
  destruct (fold_left _ requests (Running st)) as [st'|n st'].
  - subst st'. cbn [receive]. unfold settled.
    destruct (promise _); [destruct (unhandled _)|..]; try done.
    all: exists (requests ++ [url]), []; split; [by rewrite app_nil_r|].
    all: by rewrite fold_left_app.
  - destruct IH as (handled & rest & -> & ->). cbn [receive].
    exists handled, (rest ++ [url]). by rewrite app_assoc.
Qed.

(** C6. The listener is single-shot on both outcomes.  Let the flow
    wait for its callback, and let a request on the callback path
    arrive.  The handler answers it with one page: the failure page
    with status 400 when the request lacks a code, the success page
    or, when the exchange or the save fails, the failure page with
    status 500 when it carries one.  Then the process that [main] runs
    has ended, with exit code 0 after the success page, for which the
    handler has also closed the server, and with exit code 1 after a
    failure page, for which the rejected promise has reached
    [main().catch]; whatever requests are sent afterwards, none is
    handled. *)
Theorem listener_is_single_shot_on_both_outcomes (target : string) (u : URL)
    (f : Flow) (fs : FS) (remote : Remote) (later : list (option string)) :
  listening f = true ->
  promise f = Pending ->
  String.prefix (pathName f) target = true ->
  newURL target (Some (requestBase f)) = Some u ->
  exists exit_code response,
    await newURL tokenEndpoint CREDENTIALS_PATH (Some target :: later)
        (f, (fs, remote)) =
      Ended exit_code
        (onRequest newURL tokenEndpoint CREDENTIALS_PATH (Some target)
           (f, (fs, remote))) /\
    responses (onRequest newURL tokenEndpoint CREDENTIALS_PATH (Some target)
                 (f, (fs, remote))).1 = responses f ++ [response] /\
    (searchParams_get (searchParams u) "code" = None \/
     searchParams_get (searchParams u) "code" = Some EmptyString ->
     response = {| status := 400; body := "No code provided" |} /\
     exit_code = 1) /\
    (forall authorization_code,
       searchParams_get (searchParams u) "code" = Some authorization_code ->
       authorization_code <> EmptyString ->
       response =
         {| status := 200;
            body := "Authentication successful! You can close this window." |} /\
       exit_code = 0 /\
       listening (onRequest newURL tokenEndpoint CREDENTIALS_PATH (Some target)
                    (f, (fs, remote))).1 = false
       \/
       response = {| status := 500; body := "Authentication failed" |} /\
       exit_code = 1).
Proof.
  intros Hlistening Hpending Hprefix Hurl. unfold await.
  cbn [fold_left receive]. rewrite deliver_listening by done.
  assert (searchParams_get (searchParams u) "code" = None \/
          searchParams_get (searchParams u) "code" = Some EmptyString \/
          exists c, searchParams_get (searchParams u) "code" = Some c /\
                    c <> EmptyString) as [Hcode|[Hcode|(c & Hcode & Hne)]].
  { destruct (searchParams_get (searchParams u) "code") as [[|x c]|];
      [by right; left| |by left].
    right; right. by eexists. }
  - rewrite (onRequest_without_code target u) by (done || by left).
    exists 1, {| status := 400; body := "No code provided" |}.
    unfold settled. cbn. rewrite Hpending. cbn.
    rewrite ended_process_is_deaf.
    repeat split; try done. intros c Hc. by rewrite Hc in Hcode.
  - rewrite (onRequest_without_code target u) by (done || by right).
    exists 1, {| status := 400; body := "No code provided" |}.
    unfold settled. cbn. rewrite Hpending. cbn.
    rewrite ended_process_is_deaf.
    repeat split; try done. intros c Hc Hne. rewrite Hc in Hcode.
    by injection Hcode as ->.
  - rewrite (onRequest_with_code target u f fs remote c) by done.
    destruct (getToken tokenEndpoint (oauth2Client f) c remote)
      as [[error|tokens] remote'].
    + exists 1, {| status := 500; body := "Authentication failed" |}.
      unfold settled. cbn. rewrite Hpending. cbn.
      rewrite ended_process_is_deaf.
      split; [done|]. split; [done|].
      split; [intros [H|H]; rewrite H in Hcode; [done|by injection Hcode as <-]|].
      intros c' _ _. by right.
    + destruct (writeFileSync CREDENTIALS_PATH (JSON_stringify tokens) fs)
        as [error|fs'].
      * exists 1, {| status := 500; body := "Authentication failed" |}.
        unfold settled. cbn. rewrite Hpending. cbn.
        rewrite ended_process_is_deaf.
        split; [done|]. split; [done|].
        split; [intros [H|H]; rewrite H in Hcode; [done|by injection Hcode as <-]|].
        intros c' _ _. by right.
      * exists 0,
          {| status := 200;
             body := "Authentication successful! You can close this window." |}.
        unfold settled. cbn. rewrite Hpending. cbn.
        rewrite ended_process_is_deaf.
        split; [done|]. split; [done|].
        split; [intros [H|H]; rewrite H in Hcode; [done|by injection Hcode as <-]|].
        intros c' _ _. by left.
Qed.

(** C7, amended.  A request without a URL, or whose URL does not start
    with the callback path, changes nothing: no response, the promise
    untouched, the listener open.  A request that follows it, whose URL
    starts with the callback path and carries a code that the token
    endpoint accepts, fulfils the pending promise once the credentials
    are written. *)
Theorem requests_off_the_callback_prefix_are_ignored
    (url : option string) (target : string) (u : URL) (f : Flow)
    (fs fs' : FS) (remote remote' : Remote)
    (authorization_code : string) (tokens : Credentials) :
  listening f = true -> promise f = Pending ->
  match url with
  | Some other => String.prefix (pathName f) other = false
  | None => True
  end ->
  String.prefix (pathName f) target = true ->
  newURL target (Some (requestBase f)) = Some u ->
  searchParams_get (searchParams u) "code" = Some authorization_code ->
  authorization_code <> EmptyString ->
  getToken tokenEndpoint (oauth2Client f) authorization_code remote =
    (inr tokens, remote') ->
  writeFileSync CREDENTIALS_PATH (JSON_stringify tokens) fs = inr fs' ->
  deliver newURL tokenEndpoint CREDENTIALS_PATH url (f, (fs, remote)) =
    (f, (fs, remote)) /\
  promise (serve newURL tokenEndpoint CREDENTIALS_PATH [url; Some target]
             (f, (fs, remote))).1 = Fulfilled /\
  (serve newURL tokenEndpoint CREDENTIALS_PATH [url; Some target]
     (f, (fs, remote))).2 = (fs', remote').
Proof.
  intros Hlistening Hpending Hother Hprefix Hurl Hcode Hne Htoken Hwrite.
  assert (deliver newURL tokenEndpoint CREDENTIALS_PATH url (f, (fs, remote)) =
            (f, (fs, remote))) as Hignored.
  { rewrite deliver_listening by done.
    by apply (onRequest_ignores url (f, (fs, remote))). }
  split; [done|].
  unfold serve. cbn [fold_left]. rewrite Hignored, deliver_listening by done.
  rewrite (onRequest_with_code target u f fs remote authorization_code) by done.
  rewrite Htoken, Hwrite. cbn. by rewrite Hpending.
Qed.

(** *** The redirect URI *)

(** The handler never changes the redirect URI of the client, and every
    token request it sends carries that URI. *)
Lemma onRequest_keeps_redirect_uri (url : option string) (f : Flow) (fs : FS)
    (remote : Remote) (sent : list TokenRequest) (uri : string) :
  redirectUri (oauth2Client f) = uri ->
  Forall (fun req => tr_redirect_uri req = uri) sent ->
  redirectUri (oauth2Client
    (onRequest newURL (logged tokenEndpoint) CREDENTIALS_PATH url
       (f, (fs, (remote, sent)))).1) = uri /\
  Forall (fun req => tr_redirect_uri req = uri)
    (onRequest newURL (logged tokenEndpoint) CREDENTIALS_PATH url
       (f, (fs, (remote, sent)))).2.2.2.
Proof.
  intros Huri Hsent. destruct url as [target|]; [|done]. simpl.
  destruct (String.prefix (pathName f) target); [|done]. simpl.
  destruct (newURL target (Some (requestBase f))) as [u|]; [|done].
  destruct (searchParams_get (searchParams u) "code") as [[|c cs]|]; [done| |done].
  unfold getToken, logged. simpl.
  destruct (tokenEndpoint _ remote) as [[error|tokens] remote']; simpl.
  - split; [done|]. apply Forall_app. split; [done|]. by constructor.
  - destruct (writeFileSync _ _ fs) as [error|fs']; simpl;
      (split; [done|]; apply Forall_app; split; [done|]; by constructor).
Qed.

Lemma serve_keeps_redirect_uri (requests : list (option string)) (f : Flow)
    (fs : FS) (remote : Remote) (sent : list TokenRequest) (uri : string) :
  redirectUri (oauth2Client f) = uri ->
  Forall (fun req => tr_redirect_uri req = uri) sent ->
  Forall (fun req => tr_redirect_uri req = uri)
    (serve newURL (logged tokenEndpoint) CREDENTIALS_PATH requests
       (f, (fs, (remote, sent)))).2.2.2.
Proof.
  revert f fs remote sent.
  induction requests as [|url requests IH]; intros f fs remote sent Huri Hsent;
    [done|].
  change (Forall (fun req => tr_redirect_uri req = uri)
    (serve newURL (logged tokenEndpoint) CREDENTIALS_PATH requests
       (deliver newURL (logged tokenEndpoint) CREDENTIALS_PATH url
          (f, (fs, (remote, sent))))).2.2.2).
  unfold deliver. cbn [fst].
  destruct (listening f); [|by apply IH].
  destruct (onRequest_keeps_redirect_uri url f fs remote sent uri Huri Hsent)
    as [Huri' Hsent'].
  destruct (onRequest _ _ _ url _) as [f' [fs' [remote' sent']]].
  by apply IH.
Qed.

(** C3. When [authenticate] has bound its listener, the port of the
    flow is the port of the address that the operating system bound,
    also when that is not the port asked for; the redirect URI of the
    client is [http://host:port/path] with that port; the authorization
    URL embeds the redirect URI of the client; and every token request
    sent while the flow is served carries the very same URI. *)
Theorem redirect_uri_carries_the_bound_port
    (fuel : nat) (keys : OAuthKeys) (argv : list string) (os os' : OS)
    (f : Flow) (requests : list (option string)) (fs : FS) (remote : Remote) :
  authenticate newURL listen fuel keys argv os = (Serving f, os') ->
  (exists p os0 addr,
     listen p os0 = (inr addr, os') /\ finalPort f = addr_port addr) /\
  redirectUri (oauth2Client f) =
    ("http://" +:+ host f +:+ ":" +:+ print_N (finalPort f) +:+ pathName f) /\
  searchParams_get (params (authUrl f)) "redirect_uri" =
    Some (redirectUri (oauth2Client f)) /\
  Forall (fun req => tr_redirect_uri req = redirectUri (oauth2Client f))
    (serve newURL (logged tokenEndpoint) CREDENTIALS_PATH requests
       (f, (fs, (remote, [])))).2.2.2.
Proof.
  unfold authenticate.
  destruct (callbackParts newURL _) as [[h path] preferredPort].
  pose proof (tryListen_outcome listen fuel preferredPort os) as Hbound.
  destruct (tryListen listen fuel preferredPort os) as [[q|n|] os1];
    intros [= <- <-].
  destruct Hbound as (p0 & os0 & addr & Hlisten & -> & _).
  split; [by exists p0, os0, addr|].
  split; [done|]. split; [done|].
  by apply serve_keeps_redirect_uri.
Qed.

(** *** Saved credentials *)

(** The JSON text of a token set, written at the credentials path, is
    read back unchanged by [loadCredentials]. *)
Lemma loadCredentials_after_write (keys : OAuthKeys) (argv : list string)
    (tokens : Credentials) (fs fs' : FS) :
  wf_credentials tokens ->
  writeFileSync CREDENTIALS_PATH (JSON_stringify tokens) fs = inr fs' ->
  exists client,
    loadCredentials CREDENTIALS_PATH keys argv fs' = Ready client /\
    credentials client = tokens.
Proof.
  intros [Hnd _]. unfold writeFileSync.
  destruct (decide (CREDENTIALS_PATH ∈ unwritable fs)); [done|].
  intros [= <-]. unfold loadCredentials, existsSync, readFileSync. simpl.
  rewrite lookup_insert_eq.
  rewrite bool_decide_eq_true_2 by (by eexists).
  rewrite JSON_parse_stringify by done.
  by eexists.
Qed.

(** The handler saves the tokens that the exchange returned, and
    installs them in the client of the running process. *)
Lemma onRequest_saves_tokens (target : string) (u : URL)
    (f : Flow) (fs fs' : FS) (remote remote' : Remote)
    (authorization_code : string) (tokens : Credentials) :
  String.prefix (pathName f) target = true ->
  newURL target (Some (requestBase f)) = Some u ->
  searchParams_get (searchParams u) "code" = Some authorization_code ->
  authorization_code <> EmptyString ->
  getToken tokenEndpoint (oauth2Client f) authorization_code remote =
    (inr tokens, remote') ->
  writeFileSync CREDENTIALS_PATH (JSON_stringify tokens) fs = inr fs' ->
  (onRequest newURL tokenEndpoint CREDENTIALS_PATH (Some target)
     (f, (fs, remote))).2.1 = fs' /\
  credentials (oauth2Client
    (onRequest newURL tokenEndpoint CREDENTIALS_PATH (Some target)
       (f, (fs, remote))).1) = tokens.
Proof.
  intros Hprefix Hurl Hcode Hne Htoken Hwrite.
  rewrite (onRequest_with_code target u f fs remote authorization_code) by done.
  by rewrite Htoken, Hwrite.
Qed.

(** C8. The save is the one of the request handler, the load the one
    of [loadCredentials].  When a callback brings a code that the token
    endpoint exchanges for a token set, and the credentials file can be
    written, the handler leaves a file system on which
    [loadCredentials], in whatever process and with whatever keys and
    command line it runs, installs credentials equal to that token set;
    the client of the running process holds the same token set, and
    the listener has answered with the success page. *)
Theorem saved_credentials_load_back (keys : OAuthKeys) (argv : list string)
    (target : string) (u : URL) (f : Flow) (fs : FS)
    (remote remote' : Remote) (authorization_code : string)
    (tokens : Credentials) :
  String.prefix (pathName f) target = true ->
  newURL target (Some (requestBase f)) = Some u ->
  searchParams_get (searchParams u) "code" = Some authorization_code ->
  authorization_code <> EmptyString ->
  getToken tokenEndpoint (oauth2Client f) authorization_code remote =
    (inr tokens, remote') ->
  wf_credentials tokens ->
  CREDENTIALS_PATH ∉ unwritable fs ->
  (exists client,
     loadCredentials CREDENTIALS_PATH keys argv
       (onRequest newURL tokenEndpoint CREDENTIALS_PATH (Some target)
          (f, (fs, remote))).2.1 = Ready client /\
     credentials client = tokens) /\
  credentials (oauth2Client
    (onRequest newURL tokenEndpoint CREDENTIALS_PATH (Some target)
       (f, (fs, remote))).1) = tokens /\
  responses (onRequest newURL tokenEndpoint CREDENTIALS_PATH (Some target)
               (f, (fs, remote))).1 =
    responses f ++
    [{| status := 200;
        body := "Authentication successful! You can close this window." |}].
Proof.
  intros Hprefix Hurl Hcode Hne Htoken Hwf Hwritable.
  destruct (writeFileSync CREDENTIALS_PATH (JSON_stringify tokens) fs)
    as [error|fs'] eqn:Hwrite.
  { unfold writeFileSync in Hwrite.
    by destruct (decide (CREDENTIALS_PATH ∈ unwritable fs)). }
  destruct (onRequest_saves_tokens target u f fs fs' remote remote'
              authorization_code tokens) as [Hfs Hclient]; try done.
  split; [|split].
  - rewrite Hfs. by apply (loadCredentials_after_write keys argv tokens fs).
  - exact Hclient.
  - rewrite (onRequest_with_code target u f fs remote authorization_code)
      by done.
    by rewrite Htoken, Hwrite.
Qed.

End flow_facts.

(** *** The flow on concrete input *)

Section flow_examples.
Import Json Fs OAuth OAuthExample.
Local Open Scope string_scope.

Lemma exampleTokens_wf : wf_credentials exampleTokens.
Proof.
  split.
  - by apply (bool_decide_unpack (NoDup exampleTokens.*1)).
  - unfold exampleTokens, MAX_SAFE_INTEGER.
    repeat constructor; simpl; unfold MAX_SAFE_INTEGER; lia.
Qed.

Lemma listener_falls_back_only_on_address_in_use_witness :
  tryListen (logged exampleListen) 2 3000 (freeOS, []) =
    (Resolved 3000,
     ({| in_use := [3000%N]; next_ephemeral := 49152 |}, [3000%N])) /\
  tryListen (logged exampleListen) 2 80 (freeOS, []) =
    (Exited 1, (freeOS, [80%N])) /\
  tryListen (logged exampleListen) 2 3000 (busyOS, []) =
    (Resolved 49152,
     ({| in_use := [49152%N; 3000%N]; next_ephemeral := 49153 |},
      [3000%N; 0%N])).
Proof.
  split; [|split].
  - destruct (listener_falls_back_only_on_address_in_use exampleListen
                1 3000 freeOS) as (Hbound & _ & _).
    apply (Hbound {| address := "127.0.0.1"; family := "IPv4";
                     addr_port := 3000 |}).
    reflexivity.
  - destruct (listener_falls_back_only_on_address_in_use exampleListen
                1 80 freeOS) as (_ & Hfatal & _).
    apply (Hfatal {| code := "EACCES" |}); [reflexivity|discriminate].
  - destruct (listener_falls_back_only_on_address_in_use exampleListen
                0 3000 busyOS) as (_ & _ & Hbusy).
    destruct (Hbusy {| code := "EADDRINUSE" |} busyOS) as (_ & Hzero & _);
      [reflexivity|reflexivity|].
    apply (Hzero {| address := "127.0.0.1"; family := "IPv4";
                    addr_port := 49152 |}).
    reflexivity.
Defined.

(** With port 3000 taken, the flow runs on the port that the operating
    system chose, and so do its redirect URIs. *)
Example authenticate_on_busy_port :
  exists f os',
    authenticate exampleURL exampleListen 2 exampleKeys
        ["node"; "index.js"; "auth"] busyOS = (Serving f, os') /\
    finalPort f = 49152%N /\
    redirectUri (oauth2Client f) = "http://localhost:49152/oauth2callback" /\
    searchParams_get (params (authUrl f)) "redirect_uri" =
      Some "http://localhost:49152/oauth2callback".
Proof. eexists _, _. by vm_compute. Qed.

Lemma redirect_uri_carries_the_bound_port_witness :
  (exists p os0 addr,
     exampleListen p os0 =
       (inr addr, {| in_use := [49152%N; 3000%N]; next_ephemeral := 49153 |}) /\
     finalPort fallbackFlow = addr_port addr) /\
  redirectUri (oauth2Client fallbackFlow) =
    "http://" ++ host fallbackFlow ++ ":" ++ print_N (finalPort fallbackFlow) ++
      pathName fallbackFlow /\
  searchParams_get (params (authUrl fallbackFlow)) "redirect_uri" =
    Some (redirectUri (oauth2Client fallbackFlow)) /\
  Forall (fun req => tr_redirect_uri req = redirectUri (oauth2Client fallbackFlow))
    (serve exampleURL (logged exampleEndpoint) examplePath
       [Some "/favicon.ico"; Some "/oauth2callback?code=4/0AX4XfWh"]
       (fallbackFlow, (emptyFS, ([], [])))).2.2.2.
Proof.
  apply (redirect_uri_carries_the_bound_port exampleURL exampleListen
           exampleEndpoint examplePath 2 exampleKeys
           ["node"; "index.js"; "auth"] busyOS).
  reflexivity.
Defined.



(** The request handler by itself closes the server only after a
    successful exchange: after a callback without a code, or with a
    code that the token endpoint refuses, it returns with the server
    object still listening.  What stops the listener then is the end
    of the process. *)
Example handler_closes_the_server_on_success_only :
  listening (deliver exampleURL exampleEndpoint examplePath
               (Some "/oauth2callback") exampleState).1 = true /\
  listening (deliver exampleURL exampleEndpoint examplePath
               (Some "/oauth2callback?code=expired") exampleState).1 = true /\
  listening (deliver exampleURL exampleEndpoint examplePath
               (Some "/oauth2callback?code=4/0AX4XfWh") exampleState).1 = false.
Proof. repeat split; by vm_compute. Qed.

(** After a failed callback the process has ended with exit code 1:
    the valid callback that is sent next is not handled, and no
    credentials are saved. *)
Example process_ends_on_the_first_callback :
  exists st,
    await exampleURL exampleEndpoint examplePath
      [Some "/favicon.ico"; Some "/oauth2callback";
       Some "/oauth2callback?code=4/0AX4XfWh"] exampleState = Ended 1 st /\
    responses st.1 = [{| status := 400; body := "No code provided" |}] /\
    st.2 = (emptyFS, []).
Proof. eexists. by vm_compute. Qed.

(** The program in [auth] mode, from [main]: the credentials are
    loaded, the listener is bound, and the callback without a code
    ends the process with exit code 1. *)
Example main_exits_after_failed_callback :
  exists st,
    main exampleURL exampleListen exampleEndpoint examplePath 2 exampleKeys
      ["node"; "index.js"; "auth"]
      [Some "/oauth2callback"; Some "/oauth2callback?code=4/0AX4XfWh"]
      freeOS emptyFS [] =
    (MainAuth (Ended 1 st),
     {| in_use := [3000%N]; next_ephemeral := 49152 |}) /\
    responses st.1 = [{| status := 400; body := "No code provided" |}].
Proof. eexists. by vm_compute. Qed.

Lemma listener_is_single_shot_on_both_outcomes_witness :
  exists exit_code response,
    await exampleURL exampleEndpoint examplePath
        [Some "/oauth2callback?code=expired"; Some "/oauth2callback";
         Some "/oauth2callback?code=4/0AX4XfWh"] (exampleFlow, (emptyFS, [])) =
      Ended exit_code
        (onRequest exampleURL exampleEndpoint examplePath
           (Some "/oauth2callback?code=expired") (exampleFlow, (emptyFS, []))) /\
    responses (onRequest exampleURL exampleEndpoint examplePath
                 (Some "/oauth2callback?code=expired")
                 (exampleFlow, (emptyFS, []))).1 =
      (responses exampleFlow ++ [response])%list /\
    (searchParams_get [("code", "expired")] "code" = None \/
     searchParams_get [("code", "expired")] "code" = Some EmptyString ->
     response = {| status := 400; body := "No code provided" |} /\
     exit_code = 1) /\
    (forall authorization_code,
       searchParams_get [("code", "expired")] "code" = Some authorization_code ->
       authorization_code <> EmptyString ->
       response =
         {| status := 200;
            body := "Authentication successful! You can close this window." |} /\
       exit_code = 0 /\
       listening (onRequest exampleURL exampleEndpoint examplePath
                    (Some "/oauth2callback?code=expired")
                    (exampleFlow, (emptyFS, []))).1 = false
       \/
       response = {| status := 500; body := "Authentication failed" |} /\
       exit_code = 1).
Proof.
  apply (listener_is_single_shot_on_both_outcomes exampleURL exampleEndpoint
           examplePath "/oauth2callback?code=expired"
           {| hostname := "localhost"; pathname := "/oauth2callback";
              port := None; searchParams := [("code", "expired")] |}
           exampleFlow emptyFS []
           [Some "/oauth2callback"; Some "/oauth2callback?code=4/0AX4XfWh"]);
    reflexivity.
Defined.

(** C7, as stated, does not hold.  The request [/oauth2callback.php]
    is not on the callback path [/oauth2callback], yet it is not
    ignored: it rejects the promise as a callback without a code, and
    the request with a valid code that follows it does not fulfil the
    promise any more. *)
Lemma request_off_the_callback_path_is_not_ignored :
  (exists u,
     exampleURL "/oauth2callback.php" (Some (requestBase exampleFlow)) = Some u /\
     pathname u <> pathName exampleFlow) /\
  promise (deliver exampleURL exampleEndpoint examplePath
             (Some "/oauth2callback.php") exampleState).1 =
    Rejected {| message := "No code provided" |} /\
  promise (serve exampleURL exampleEndpoint examplePath
             [Some "/oauth2callback.php"; Some "/oauth2callback?code=4/0AX4XfWh"]
             exampleState).1 =
    Rejected {| message := "No code provided" |}.
Proof.
  split; [eexists; split; [by vm_compute|by vm_compute]|].
  split; by vm_compute.
Qed.

Lemma requests_off_the_callback_prefix_are_ignored_witness :
  deliver exampleURL exampleEndpoint examplePath (Some "/favicon.ico")
      exampleState = exampleState /\
  promise (serve exampleURL exampleEndpoint examplePath
             [Some "/favicon.ico"; Some "/oauth2callback?code=4/0AX4XfWh"]
             exampleState).1 = Fulfilled /\
  (serve exampleURL exampleEndpoint examplePath
     [Some "/favicon.ico"; Some "/oauth2callback?code=4/0AX4XfWh"]
     exampleState).2 = (savedFS, ["4/0AX4XfWh"]).
Proof.
  apply (requests_off_the_callback_prefix_are_ignored exampleURL exampleEndpoint
           examplePath (Some "/favicon.ico") "/oauth2callback?code=4/0AX4XfWh"
           {| hostname := "localhost"; pathname := "/oauth2callback";
              port := None; searchParams := [("code", "4/0AX4XfWh")] |}
           exampleFlow emptyFS _ [] _ "4/0AX4XfWh" exampleTokens);
    try reflexivity.
  discriminate.
Defined.

Lemma saved_credentials_load_back_witness :
  (exists client,
     loadCredentials examplePath exampleKeys ["node"; "index.js"]
       (onRequest exampleURL exampleEndpoint examplePath
          (Some "/oauth2callback?code=4/0AX4XfWh")
          (exampleFlow, (emptyFS, []))).2.1 = Ready client /\
     credentials client = exampleTokens) /\
  credentials (oauth2Client
    (onRequest exampleURL exampleEndpoint examplePath
       (Some "/oauth2callback?code=4/0AX4XfWh")
       (exampleFlow, (emptyFS, []))).1) = exampleTokens /\
  responses (onRequest exampleURL exampleEndpoint examplePath
               (Some "/oauth2callback?code=4/0AX4XfWh")
               (exampleFlow, (emptyFS, []))).1 =
    (responses exampleFlow ++
     [{| status := 200;
         body := "Authentication successful! You can close this window." |}])%list.
Proof.
  apply (saved_credentials_load_back exampleURL exampleEndpoint examplePath
           exampleKeys ["node"; "index.js"] "/oauth2callback?code=4/0AX4XfWh"
           {| hostname := "localhost"; pathname := "/oauth2callback";
              port := None; searchParams := [("code", "4/0AX4XfWh")] |}
           exampleFlow emptyFS [] ["4/0AX4XfWh"] "4/0AX4XfWh" exampleTokens);
    try reflexivity.
  - discriminate.
  - apply exampleTokens_wf.
  - apply not_elem_of_empty.
Defined.

End flow_examples.

(** * Further properties of the batch engine *)

Section batch_calls.
Import Batch.
Context {T U E W : Type}.
Variable processFn : list T -> W -> (E + list U) * W.

(** The number of chunks is the length divided by the chunk size,
    rounded up. *)
Lemma chunks_count (n : nat) (l : list T) :
  (1 <= n)%nat -> length (chunks n l) = ((length l + n - 1) / n)%nat.
Proof.
  intros Hn. remember (length l) as k eqn:Hk.
  revert l Hk. induction (lt_wf k) as [k _ IH]; intros l ->.
  destruct l as [|x l].
  - simpl. symmetry. apply Nat.div_small. lia.
  - rewrite chunks_cons by done. cbn [length].
    rewrite (IH (length (drop n (x :: l)))); [| |done].
    2:{ rewrite length_drop. simpl. lia. }
    rewrite length_drop. cbn [length].
    destruct (Nat.le_gt_cases (S (length l)) n) as [Hle|Hgt].
    + replace (S (length l) - n + n - 1)%nat with (n - 1)%nat by lia.
      rewrite (Nat.div_small (n - 1) n) by lia.
      replace (S (length l) + n - 1)%nat with (length l + 1 * n)%nat by lia.
      rewrite Nat.div_add by lia. rewrite Nat.div_small by lia. done.
    + replace (S (length l) + n - 1)%nat
        with ((S (length l) - n + n - 1) + 1 * n)%nat by lia.
      rewrite Nat.div_add by lia. lia.
Qed.

Lemma retried_calls (chunk : list T) (w w' : W) calls ss fs :
  retried processFn chunk w calls ss fs w' ->
  calls = (fun x => [x]) <$> chunk.
Proof. induction 1; simpl; by f_equal. Qed.

Lemma batch_run_calls (n : nat) (cs : list (list T)) (w w' : W) calls ss fs :
  batch_run processFn cs w calls ss fs w' ->
  Forall (fun c => (1 <= length c <= n)%nat) cs ->
  Forall (fun c => (1 <= length c <= n)%nat) calls /\
  (length cs <= length calls <= length cs + length (concat cs))%nat.
Proof.
  induction 1 as [w|chunk rest w results w1 calls ss fs w' Hcall Hrun IH
                 |chunk rest w error w1 rcalls rss rfs w2 calls ss fs w'
                    Hcall Hret Hrun IH]; intros Hsizes.
  - split; [done|]. simpl. lia.
  - apply Forall_cons in Hsizes as [Hchunk Hrest].
    destruct (IH Hrest) as [Hall Hlen]. split; [by constructor|].
    rewrite concat_cons, length_app. simpl. lia.
  - apply Forall_cons in Hsizes as [Hchunk Hrest].
    destruct (IH Hrest) as [Hall Hlen].
    apply retried_calls in Hret as ->. split.
    + constructor; [done|]. apply Forall_app. split; [|done].
      apply Forall_fmap, Forall_forall. intros x _. simpl. lia.
    + rewrite concat_cons. cbn [length].
      rewrite !length_app, length_fmap. lia.
Qed.

(** With a chunk size of at least one the engine returns, and its
    calls, successes and failures are those of [batch_run] on the
    chunks of the input. *)
Lemma processBatches_runs (items : list T) (batchSize : Z) (w : W) :
  1 <= batchSize ->
  exists r w' calls,
    (forall fuel, (length items < fuel)%nat ->
       processBatches (logged processFn) fuel items batchSize (w, []) =
         Some (r, (w', calls))) /\
    batch_run processFn (chunks (Z.to_nat batchSize) items) w
      calls (successes r) (failures r) w'.
Proof.
  intros Hb.
  destruct (loop_batch_run processFn (S (length items)) items batchSize 0
              {| successes := []; failures := [] |} w [])
    as (calls & ss & fs & w' & Hbatch & Hloop); [lia|lia|lia|].
  cbn [successes failures app Z.to_nat drop] in Hbatch, Hloop.
  exists {| successes := ss; failures := fs |}, w', calls.
  split; [|done]. intros fuel Hfuel.
  apply (loop_fuel_mono _ _ _ _ _ _ _ _ Hloop). lia.
Qed.

(** X1. With a chunk size of at least one, the engine returns, and
    every call that it has made to the operation carries at least one
    item and at most [batchSize] items; the number of calls lies
    between the number of chunks (the length of the input divided by
    the chunk size, rounded up) and that number plus the number of
    items. *)
Theorem processBatches_call_bounds (items : list T) (batchSize : Z) (w : W) :
  1 <= batchSize ->
  exists r w' calls,
    (forall fuel, (length items < fuel)%nat ->
       processBatches (logged processFn) fuel items batchSize (w, []) =
         Some (r, (w', calls))) /\
    Forall (fun c => (1 <= length c <= Z.to_nat batchSize)%nat) calls /\
    ((length items + Z.to_nat batchSize - 1) / Z.to_nat batchSize
       <= length calls
       <= (length items + Z.to_nat batchSize - 1) / Z.to_nat batchSize
          + length items)%nat.
Proof.
  intros Hb.
  destruct (processBatches_runs items batchSize w Hb)
    as (r & w' & calls & Hrun & Hbatch).
  exists r, w', calls. split; [exact Hrun|].
  destruct (batch_run_calls (Z.to_nat batchSize) _ _ _ _ _ _ Hbatch)
    as [Hall Hlen]; [apply chunks_sizes; lia|].
  rewrite chunks_concat, chunks_count in Hlen by lia. done.
Qed.

Lemma batch_run_without_failures (cs : list (list T)) (w w' : W) calls ss fs :
  (forall batch v, exists results v', processFn batch v = (inr results, v')) ->
  batch_run processFn cs w calls ss fs w' ->
  calls = cs /\ fs = [].
Proof.
  intros Hok. induction 1 as [v|chunk rest v results v1 calls ss fs v' Hcall Hrun IH
                      |chunk rest v error v1 rcalls rss rfs v2 calls ss fs v'
                         Hcall Hret Hrun IH].
  - done.
  - by destruct IH as [-> ->].
  - destruct (Hok chunk v) as (results & v3 & Hsucc). congruence.
Qed.

(** X2. When no call of the operation throws, the engine returns
    after calling it exactly once per chunk, on the contiguous chunks
    of the input in order, and reports no failure. *)
Theorem processBatches_without_failures (items : list T) (batchSize : Z)
    (w : W) :
  1 <= batchSize ->
  (forall batch v, exists results v', processFn batch v = (inr results, v')) ->
  exists r w',
    (forall fuel, (length items < fuel)%nat ->
       processBatches (logged processFn) fuel items batchSize (w, []) =
         Some (r, (w', chunks (Z.to_nat batchSize) items))) /\
    failures r = [].
Proof.
  intros Hb Hok.
  destruct (processBatches_runs items batchSize w Hb)
    as (r & w' & calls & Hrun & Hbatch).
  destruct (batch_run_without_failures _ _ _ _ _ _ Hok Hbatch) as [-> Hfs].
  by exists r, w'.
Qed.

(** X3. With a chunk size of zero or less the loop index never moves
    forward: the engine returns at once on an empty list, without
    calling the operation, and never returns on a non-empty one. *)
Theorem processBatches_non_positive_step (items : list T) (batchSize : Z)
    (w : W) :
  batchSize <= 0 ->
  (items = [] ->
   forall fuel,
     processBatches (logged processFn) (S fuel) items batchSize (w, []) =
       Some ({| successes := []; failures := [] |}, (w, []))) /\
  (items <> [] ->
   forall fuel, processBatches processFn fuel items batchSize w = None).
Proof.
  intros Hb. split.
  - by intros ->.
  - intros Hne fuel. by apply loop_diverges.
Qed.

End batch_calls.

(** *** Operations that fail on particular items *)

Section batch_itemwise.
Import Batch.
Context {T U E W : Type}.
Variable processFn : list T -> W -> (E + list U) * W.

(** [bad] marks the items on which the operation fails whatever the
    batch they are in, and [g] gives the result of the others. *)
Variable bad : T -> bool.
Variable g : T -> U.

Hypothesis single_good :
  forall x w, bad x = false -> exists w', processFn [x] w = (inr [g x], w').
Hypothesis single_bad :
  forall x w, bad x = true -> exists e w', processFn [x] w = (inl e, w').
Hypothesis chunk_success :
  forall batch w results w',
    processFn batch w = (inr results, w') ->
    results = g <$> batch /\ Forall (fun x => bad x = false) batch.

Lemma filter_all_good (batch : list T) :
  Forall (fun x => bad x = false) batch ->
  filter (fun x => bad x = false) batch = batch /\
  filter (fun x => bad x = true) batch = [].
Proof.
  induction 1 as [|x batch Hx _ [IH1 IH2]]; [done|].
  rewrite filter_cons_True by done. rewrite filter_cons_False by congruence.
  by rewrite IH1, IH2.
Qed.

Lemma retry_itemwise (batch : list T) acc :
  let acc' := fold_left (fun a item => retryItem processFn item a) batch acc in
  successes acc'.1 =
    successes acc.1 ++ (g <$> filter (fun x => bad x = false) batch) /\
  (failures acc'.1).*1 =
    (failures acc.1).*1 ++ filter (fun x => bad x = true) batch.
Proof.
  revert acc. induction batch as [|x batch IH]; intros acc.
  - simpl. by rewrite !app_nil_r.
  - cbn [fold_left]. destruct (IH (retryItem processFn x acc)) as [Hs Hf].
    simpl. rewrite Hs, Hf. unfold retryItem.
    destruct (bad x) eqn:Hx.
    + destruct (single_bad x acc.2 Hx) as (e & w' & ->). simpl.
      rewrite filter_cons_False by congruence.
      rewrite filter_cons_True by done.
      by rewrite fmap_app, <- app_assoc.
    + destruct (single_good x acc.2 Hx) as (w' & ->). simpl.
      rewrite filter_cons_True by done.
      rewrite filter_cons_False by congruence.
      by rewrite fmap_cons, <- app_assoc.
Qed.

Lemma processBatch_itemwise (batch : list T) acc :
  let acc' := processBatch processFn batch acc in
  successes acc'.1 =
    successes acc.1 ++ (g <$> filter (fun x => bad x = false) batch) /\
  (failures acc'.1).*1 =
    (failures acc.1).*1 ++ filter (fun x => bad x = true) batch.
Proof.
  unfold processBatch.
  destruct (processFn batch acc.2) as [[e|results] w'] eqn:Hcall.
  - apply (retry_itemwise batch (acc.1, w')).
  - destruct (chunk_success _ _ _ _ Hcall) as [-> Hgood].
    destruct (filter_all_good batch Hgood) as [-> ->].
    simpl. by rewrite app_nil_r.
Qed.

Lemma loop_itemwise fuel (items : list T) b i acc :
  1 <= b -> 0 <= i ->
  (Z.to_nat (Z.of_nat (length items) - i) < fuel)%nat ->
  successes acc.1 =
    g <$> filter (fun x => bad x = false) (take (Z.to_nat i) items) ->
  (failures acc.1).*1 =
    filter (fun x => bad x = true) (take (Z.to_nat i) items) ->
  exists r,
    loop processFn fuel items b i acc = Some r /\
    successes r.1 = g <$> filter (fun x => bad x = false) items /\
    (failures r.1).*1 = filter (fun x => bad x = true) items.
Proof.
  intros Hb. revert i acc.
  induction fuel as [|fuel IH]; intros i acc Hi Hfuel Hs Hf; [lia|].
  simpl. destruct (Z.ltb_spec i (Z.of_nat (length items))) as [Hlt|Hge].
  - destruct (processBatch_itemwise (slice items i (i + b)) acc) as [Hs' Hf'].
    apply IH; [lia|lia| |].
    + rewrite Hs', Hs, slice_chunk by lia.
      rewrite <- fmap_app, <- filter_app, take_take_drop. do 3 f_equal. lia.
    + rewrite Hf', Hf, slice_chunk by lia.
      rewrite <- filter_app, take_take_drop. do 2 f_equal. lia.
  - exists acc. split; [done|].
    rewrite take_ge in Hs, Hf by lia. done.
Qed.

(** X4. Let single-item calls succeed with [g x] on the items that are
    not [bad] and throw on the [bad] ones, and let a whole-chunk call,
    when it succeeds, return the results of its items, none of them
    [bad]; a whole-chunk call may otherwise throw at will.  Then,
    whatever the chunk size, the successes are the results of the items
    that are not [bad], in input order, and the failed items are
    exactly the [bad] ones, in input order. *)
Theorem processBatches_result_independent_of_chunking
    (items : list T) (batchSize : Z) (w : W) :
  1 <= batchSize ->
  exists r,
    (forall fuel, (length items < fuel)%nat ->
       processBatches processFn fuel items batchSize w = Some r) /\
    successes r.1 = g <$> filter (fun x => bad x = false) items /\
    (failures r.1).*1 = filter (fun x => bad x = true) items.
Proof.
  intros Hb.
  destruct (loop_itemwise (S (length items)) items batchSize 0
              ({| successes := []; failures := [] |}, w))
    as (r & Hrun & Hs & Hf); [lia|lia|lia|done|done|].
  exists r. split; [|done].
  intros fuel Hfuel. apply (loop_fuel_mono _ _ _ _ _ _ _ _ Hrun). lia.
Qed.

End batch_itemwise.

Section batch_more_examples.
Import Batch BatchExample.
Local Open Scope string_scope.

Lemma processBatches_call_bounds_witness :
  exists r w' calls,
    (forall fuel, (5 < fuel)%nat ->
       processBatches (logged (failsWith "d")) fuel
         ["a"; "b"; "c"; "d"; "e"] 2 (tt, []) = Some (r, (w', calls))) /\
    Forall (fun c => (1 <= length c <= 2)%nat) calls /\
    ((5 + 2 - 1) / 2 <= length calls <= (5 + 2 - 1) / 2 + 5)%nat.
Proof.
  apply (processBatches_call_bounds (failsWith "d")
           ["a"; "b"; "c"; "d"; "e"] 2 tt).
  lia.
Defined.

Lemma processBatches_without_failures_witness :
  exists r w',
    (forall fuel, (5 < fuel)%nat ->
       processBatches (logged BatchEcho.echo) fuel
         ["a"; "b"; "c"; "d"; "e"] 2 (tt, []) =
         Some (r, (w', [["a"; "b"]; ["c"; "d"]; ["e"]]))) /\
    failures r = [].
Proof.
  apply (processBatches_without_failures BatchEcho.echo
           ["a"; "b"; "c"; "d"; "e"] 2 tt).
  - lia.
  - intros batch []. by eexists _, _.
Defined.

Lemma processBatches_non_positive_step_witness :
  (forall fuel,
     processBatches (logged (failsWith "d")) (S fuel) [] (-1) (tt, []) =
       Some ({| successes := []; failures := [] |}, (tt, []))) /\
  (forall fuel,
     processBatches (failsWith "d") fuel ["a"; "b"] (-1) tt = None).
Proof.
  destruct (processBatches_non_positive_step (failsWith "d") [] (-1) tt)
    as [Hempty _]; [lia|].
  destruct (processBatches_non_positive_step (failsWith "d") ["a"; "b"] (-1) tt)
    as [_ Hloop]; [lia|].
  split; [by apply Hempty|by apply Hloop].
Defined.

Lemma processBatches_result_independent_of_chunking_witness :
  exists r,
    (forall fuel, (5 < fuel)%nat ->
       processBatches (failsWith "d") fuel ["a"; "b"; "c"; "d"; "e"] 3 tt =
         Some r) /\
    successes r.1 = ["a"; "b"; "c"; "e"] /\
    (failures r.1).*1 = ["d"].
Proof.
  destruct (processBatches_result_independent_of_chunking (failsWith "d")
              (fun x => bool_decide (x = "d")) (fun x => x))
    with (items := ["a"; "b"; "c"; "d"; "e"]) (batchSize := 3) (w := tt)
    as (r & Hrun & Hs & Hf).
  - intros x [] Hx. exists tt. unfold failsWith.
    apply bool_decide_eq_false in Hx.
    rewrite decide_False; [done|]. intros Hin%list_elem_of_singleton. by subst.
  - intros x [] Hx. exists "bad item", tt. unfold failsWith.
    apply bool_decide_eq_true in Hx as ->.
    rewrite decide_True; [done|]. by apply list_elem_of_singleton.
  - intros batch [] results w'. unfold failsWith.
    case_decide as Hin; intros [= <- _]. split; [by rewrite list_fmap_id|].
    apply Forall_forall. intros x Hx. apply bool_decide_eq_false.
    by intros ->.
  - lia.
  - exists r. split; [exact Hrun|]. split; [exact Hs|exact Hf].
Defined.

End batch_more_examples.

(** * Invariants of the authorization flow *)

Section listener_attempts.
Import Json Fs OAuth.
Context {OS : Type}.
Variable listen : N -> OS -> (SystemError + AddressInfo) * OS.

Lemma tryListen_ports (fuel : nat) (p : N) (os : OS) (log : list N) :
  exists k,
    (k <= fuel)%nat /\
    (tryListen (logged listen) (S fuel) p (os, log)).2.2 =
      log ++ p :: replicate k 0%N.
Proof.
  revert p os log. induction fuel as [|fuel IH]; intros p os log.
  - exists 0%nat. split; [done|]. rewrite tryListen_step.
    destruct (listen p os) as [[err|addr] os']; [|done].
    by destruct (String.eqb (code err) "EADDRINUSE").
  - rewrite tryListen_step.
    destruct (listen p os) as [[err|addr] os'].
    + destruct (String.eqb (code err) "EADDRINUSE").
      * destruct (IH 0%N os' (log ++ [p])) as (k & Hk & ->).
        exists (S k). split; [lia|]. by rewrite <- app_assoc.
      * exists 0%nat. split; [lia|done].
    + exists 0%nat. split; [lia|done].
Qed.

(** X5. However often the listener has to retry, it asks for the
    preferred port exactly once, first, and every later attempt asks
    for port 0. *)
Theorem tryListen_asks_preferred_port_once (fuel : nat) (preferredPort : N)
    (os : OS) :
  exists k,
    (k <= fuel)%nat /\
    (tryListen (logged listen) (S fuel) preferredPort (os, [])).2.2 =
      preferredPort :: replicate k 0%N.
Proof. apply (tryListen_ports fuel preferredPort os []). Qed.

End listener_attempts.

Section flow_invariants.
Import Json Fs OAuth FlowInvariant.
Context {Remote : Type}.
Variable newURL : string -> option string -> option URL.
Variable tokenEndpoint : TokenRequest -> Remote -> (Error + Credentials) * Remote.
Variable CREDENTIALS_PATH : string.

(** Induction over the requests of a session: a property of the state
    that every delivery keeps holds after the session. *)
Lemma serve_invariant (P : Flow * (FS * Remote) -> Prop) :
  (forall url st, P st ->
     P (deliver newURL tokenEndpoint CREDENTIALS_PATH url st)) ->
  forall requests st,
    P st -> P (serve newURL tokenEndpoint CREDENTIALS_PATH requests st).
Proof.
  intros Hstep requests. induction requests as [|url requests IH]; intros st Hst;
    [done|].
  apply (IH (deliver newURL tokenEndpoint CREDENTIALS_PATH url st)).
  by apply Hstep.
Qed.

(** What one delivery can do to the state, case by case. *)
Lemma deliver_cases (url : option string) (f : Flow) (fs : FS) (remote : Remote) :
  let st' := deliver newURL tokenEndpoint CREDENTIALS_PATH url (f, (fs, remote)) in
  st' = (f, (fs, remote)) \/
  st' = (escaped f, (fs, remote)) \/
  (listening f = true /\
   st' = (reject {| message := "No code provided" |}
            (respond 400 "No code provided" f), (fs, remote))) \/
  (listening f = true /\
   exists error remote',
     st' = (reject error (respond 500 "Authentication failed" f),
            (fs, remote'))) \/
  (listening f = true /\
   exists req tokens remote0 remote' error,
     tokenEndpoint req remote0 = (inr tokens, remote') /\
     st' = (reject error (respond 500 "Authentication failed"
              (with_client (setCredentials tokens (oauth2Client f)) f)),
            (fs, remote'))) \/
  (listening f = true /\
   exists req tokens remote0 remote' fs',
     tokenEndpoint req remote0 = (inr tokens, remote') /\
     writeFileSync CREDENTIALS_PATH (JSON_stringify tokens) fs = inr fs' /\
     st' = (resolve (close (respond 200
              "Authentication successful! You can close this window."
              (with_client (setCredentials tokens (oauth2Client f)) f))),
            (fs', remote'))).
Proof.
  unfold deliver. cbn [fst].
  destruct (listening f) eqn:Hl; [|by left].
  destruct url as [target|]; [|by left]. simpl.
  destruct (String.prefix (pathName f) target); [|by left]. simpl.
  destruct (newURL target (Some (requestBase f))) as [u|]; [|right; by left].
  destruct (searchParams_get (searchParams u) "code") as [[|c cs]|].
  - right; right; left. done.
  - unfold getToken.
    destruct (tokenEndpoint _ remote) as [[error|tokens] remote'] eqn:Hex.
    + right; right; right; left. split; [done|]. by eexists _, _.
    + destruct (writeFileSync _ _ fs) as [error|fs'] eqn:Hwrite.
      * right; right; right; right; left. split; [done|].
        by eexists _, _, _, _, _.
      * right; right; right; right; right. split; [done|].
        by eexists _, _, _, _, _.
  - right; right; left. done.
Qed.

(** X6. The promise of the flow is settled at most once: once it is
    fulfilled or rejected, no later request changes it. *)
Theorem promise_is_settled_once (requests : list (option string))
    (st : Flow * (FS * Remote)) :
  promise st.1 <> Pending ->
  promise (serve newURL tokenEndpoint CREDENTIALS_PATH requests st).1 =
    promise st.1.
Proof.
  intros Hsettled.
  apply (serve_invariant
           (fun s => promise s.1 = promise st.1)); [|done].
  intros url [f [fs remote]] Hf. simpl in Hf.
  assert (forall outcome, settle outcome (promise f) = promise f) as Hkeep.
  { intros outcome. rewrite Hf. by destruct (promise st.1). }
  destruct (deliver_cases url f fs remote)
    as [->|[->|[[_ ->]|[[_ (e & r' & ->)]|[[_ H]|[_ H]]]]]];
    try done; simpl; try (by rewrite Hkeep).
  - destruct H as (req & tokens & r0 & r' & e & _ & ->). simpl. by rewrite Hkeep.
  - destruct H as (req & tokens & r0 & r' & fs' & _ & _ & ->). simpl.
    by rewrite Hkeep.
Qed.

(** Once the server is closed nothing happens any more. *)
Lemma closed_server_is_inert (requests : list (option string))
    (st : Flow * (FS * Remote)) :
  listening st.1 = false ->
  serve newURL tokenEndpoint CREDENTIALS_PATH requests st = st.
Proof.
  intros Hclosed.
  apply (serve_invariant (fun s => s = st)); [|done].
  intros url s ->. unfold deliver. by rewrite Hclosed.
Qed.

(** X7. The flow writes no file but the credentials file: every other
    path holds after the session what it held before, and the set of
    unwritable paths is unchanged. *)
Theorem only_credentials_file_is_written (requests : list (option string))
    (st : Flow * (FS * Remote)) (path : string) :
  path <> CREDENTIALS_PATH ->
  files (serve newURL tokenEndpoint CREDENTIALS_PATH requests st).2.1 !! path =
    files st.2.1 !! path /\
  unwritable (serve newURL tokenEndpoint CREDENTIALS_PATH requests st).2.1 =
    unwritable st.2.1.
Proof.
  intros Hpath.
  apply (serve_invariant
           (fun s => files s.2.1 !! path = files st.2.1 !! path /\
                     unwritable s.2.1 = unwritable st.2.1)); [|done].
  intros url [f [fs remote]] Hf. simpl in Hf.
  destruct (deliver_cases url f fs remote)
    as [->|[->|[[_ ->]|[[_ (e & r' & ->)]|[[_ H]|[_ H]]]]]]; try done.
  - by destruct H as (req & tokens & r0 & r' & e & _ & ->).
  - destruct H as (req & tokens & r0 & r' & fs' & _ & Hwrite & ->).
    simpl. unfold writeFileSync in Hwrite.
    destruct (decide (CREDENTIALS_PATH ∈ unwritable fs)); [done|].
    injection Hwrite as <-. simpl. by rewrite lookup_insert_ne.
Qed.

Lemma deliver_saved_when_closed (url : option string)
    (st : Flow * (FS * Remote)) :
  (forall req remote tokens remote',
     tokenEndpoint req remote = (inr tokens, remote') -> NoDup tokens.*1) ->
  saved_when_closed CREDENTIALS_PATH st ->
  saved_when_closed CREDENTIALS_PATH
    (deliver newURL tokenEndpoint CREDENTIALS_PATH url st).
Proof.
  intros Hwf. destruct st as [f [fs remote]]. intros [Hful Hclosed].
  simpl in Hful, Hclosed.
  assert (listening f = true -> forall error,
            settle (Rejected error) (promise f) <> Fulfilled) as Hrej.
  { intros Hl error. destruct (promise f); try done.
    rewrite Hful in Hl; done. }
  destruct (deliver_cases url f fs remote)
    as [->|[->|[[Hl ->]|[[Hl (e & r' & ->)]|[[Hl H]|[Hl H]]]]]].
  - done.
  - done.
  - split; simpl; [intros Hp; by apply (Hrej Hl) in Hp|by rewrite Hl].
  - split; simpl; [intros Hp; by apply (Hrej Hl) in Hp|by rewrite Hl].
  - destruct H as (req & tokens & r0 & r' & e & _ & ->).
    split; simpl; [intros Hp; by apply (Hrej Hl) in Hp|by rewrite Hl].
  - destruct H as (req & tokens & r0 & r' & fs' & Hex & Hwrite & ->).
    split; simpl; [done|]. intros _.
    unfold writeFileSync in Hwrite.
    destruct (decide (CREDENTIALS_PATH ∈ unwritable fs)); [done|].
    injection Hwrite as <-. simpl. rewrite lookup_insert_eq.
    split; [done|]. by apply (Hwf _ _ _ _ Hex).
Qed.

(** X8. Let the token endpoint return token objects (their property
    names are distinct).  Whatever requests reach the flow that
    [authenticate] started, if its promise ends up fulfilled then the
    server is closed, and [loadCredentials] run on the resulting file
    system installs exactly the credentials that the running client
    holds. *)
Theorem fulfilled_flow_has_saved_its_credentials
    (keys keys' : OAuthKeys) (argv : list string) (h path : string) (p : N)
    (requests : list (option string)) (fs : FS) (remote : Remote) :
  (forall req remote tokens remote',
     tokenEndpoint req remote = (inr tokens, remote') -> NoDup tokens.*1) ->
  promise (serve newURL tokenEndpoint CREDENTIALS_PATH requests
             (startFlow keys h path p, (fs, remote))).1 = Fulfilled ->
  listening (serve newURL tokenEndpoint CREDENTIALS_PATH requests
               (startFlow keys h path p, (fs, remote))).1 = false /\
  exists client,
    loadCredentials CREDENTIALS_PATH keys' argv
      (serve newURL tokenEndpoint CREDENTIALS_PATH requests
         (startFlow keys h path p, (fs, remote))).2.1 = Ready client /\
    credentials client =
      credentials (oauth2Client
        (serve newURL tokenEndpoint CREDENTIALS_PATH requests
           (startFlow keys h path p, (fs, remote))).1).
Proof.
  intros Hwf Hful.
  assert (saved_when_closed CREDENTIALS_PATH
            (serve newURL tokenEndpoint CREDENTIALS_PATH requests
               (startFlow keys h path p, (fs, remote)))) as [Hclosed Hsaved].
  { apply serve_invariant; [intros; by apply deliver_saved_when_closed|].
    split; simpl; done. }
  specialize (Hclosed Hful). destruct (Hsaved Hclosed) as [Hfile Hnd].
  split; [done|].
  unfold loadCredentials, existsSync, readFileSync. rewrite Hfile.
  rewrite bool_decide_eq_true_2 by (by eexists).
  rewrite JSON_parse_stringify by done. by eexists.
Qed.

Lemma deliver_success_page_last (url : option string)
    (st : Flow * (FS * Remote)) :
  success_page_last st ->
  success_page_last (deliver newURL tokenEndpoint CREDENTIALS_PATH url st).
Proof.
  destruct st as [f [fs remote]]. unfold success_page_last. simpl.
  intros Hinv.
  destruct (deliver_cases url f fs remote)
    as [->|[->|[[Hl ->]|[[Hl (e & r' & ->)]|[[Hl H]|[Hl H]]]]]]; simpl;
    try done; try rewrite Hl in *.
  - apply Forall_app. split; [done|]. constructor; [by left|done].
  - apply Forall_app. split; [done|]. constructor; [by right|done].
  - destruct H as (req & tokens & r0 & r' & e & _ & ->). simpl. rewrite Hl.
    apply Forall_app. split; [done|]. constructor; [by right|done].
  - destruct H as (req & tokens & r0 & r' & fs' & _ & _ & ->). simpl.
    by exists (responses f).
Qed.

(** X9. Whatever requests reach the flow that [authenticate] started,
    it writes the success page at most once, as its last response, and
    then the server is closed; every other response is a failure page
    with status 400 or 500, and there are no more responses than
    requests. *)
Theorem success_page_is_written_last
    (keys : OAuthKeys) (h path : string) (p : N)
    (requests : list (option string)) (fs : FS) (remote : Remote) :
  (length (responses (serve newURL tokenEndpoint CREDENTIALS_PATH requests
                        (startFlow keys h path p, (fs, remote))).1)
     <= length requests)%nat /\
  (listening (serve newURL tokenEndpoint CREDENTIALS_PATH requests
                (startFlow keys h path p, (fs, remote))).1 = true /\
   Forall (fun r => status r = 400%N \/ status r = 500%N)
     (responses (serve newURL tokenEndpoint CREDENTIALS_PATH requests
                   (startFlow keys h path p, (fs, remote))).1)
   \/
   listening (serve newURL tokenEndpoint CREDENTIALS_PATH requests
                (startFlow keys h path p, (fs, remote))).1 = false /\
   exists earlier,
     responses (serve newURL tokenEndpoint CREDENTIALS_PATH requests
                  (startFlow keys h path p, (fs, remote))).1 =
       earlier ++
       [{| status := 200;
           body := "Authentication successful! You can close this window." |}] /\
     Forall (fun r => status r = 400%N \/ status r = 500%N) earlier).
Proof.
  split.
  - assert (forall requests st,
              (length (responses
                 (serve newURL tokenEndpoint CREDENTIALS_PATH requests st).1)
               <= length (responses st.1) + length requests)%nat) as Hcount.
    { clear. intros requests.
      induction requests as [|url requests IH]; intros st; [simpl; lia|].
      change (serve newURL tokenEndpoint CREDENTIALS_PATH (url :: requests) st)
        with (serve newURL tokenEndpoint CREDENTIALS_PATH requests
                (deliver newURL tokenEndpoint CREDENTIALS_PATH url st)).
      specialize (IH (deliver newURL tokenEndpoint CREDENTIALS_PATH url st)).
      assert (length (responses
                (deliver newURL tokenEndpoint CREDENTIALS_PATH url st).1)
              <= S (length (responses st.1)))%nat; [|simpl; lia].
      destruct st as [f [fs remote]].
      destruct (deliver_cases url f fs remote)
        as [->|[->|[[_ ->]|[[_ (e & r' & ->)]|[[_ H]|[_ H]]]]]]; simpl;
        try rewrite length_app; simpl; try lia.
      - destruct H as (req & tokens & r0 & r' & e & _ & ->). simpl.
        rewrite length_app. simpl. lia.
      - destruct H as (req & tokens & r0 & r' & fs' & _ & _ & ->). simpl.
        rewrite length_app. simpl. lia. }
    apply (Hcount requests (startFlow keys h path p, (fs, remote))).
  - assert (success_page_last
              (serve newURL tokenEndpoint CREDENTIALS_PATH requests
                 (startFlow keys h path p, (fs, remote)))) as Hlast.
    { apply serve_invariant; [intros; by apply deliver_success_page_last|].
      unfold success_page_last. simpl. done. }
    unfold success_page_last in Hlast.
    destruct (listening _); [by left|by right].
Qed.

End flow_invariants.

Section token_requests.
Import Json Fs OAuth.
Context {Remote : Type}.
Variable newURL : string -> option string -> option URL.
Variable tokenEndpoint : TokenRequest -> Remote -> (Error + Credentials) * Remote.
Variable CREDENTIALS_PATH : string.

Lemma deliver_token_requests (url : option string) (f : Flow) (fs : FS)
    (remote : Remote) (sent : list TokenRequest) (id secret : string) :
  client_id (oauth2Client f) = id ->
  client_secret (oauth2Client f) = secret ->
  let st' := deliver newURL (logged tokenEndpoint) CREDENTIALS_PATH url
               (f, (fs, (remote, sent))) in
  client_id (oauth2Client st'.1) = id /\
  client_secret (oauth2Client st'.1) = secret /\
  (st'.2.2.2 = sent \/
   exists req,
     st'.2.2.2 = sent ++ [req] /\
     tr_client_id req = id /\ tr_client_secret req = secret /\
     tr_grant_type req = "authorization_code"%string /\
     tr_code req <> EmptyString).
Proof.
  intros Hid Hsecret. unfold deliver. cbn [fst].
  destruct (listening f); [|by repeat split; try left].
  destruct url as [target|]; [|by repeat split; try left]. simpl.
  destruct (String.prefix (pathName f) target); [|by repeat split; try left].
  simpl.
  destruct (newURL target (Some (requestBase f))) as [u|];
    [|by repeat split; try left].
  destruct (searchParams_get (searchParams u) "code") as [[|c cs]|];
    [by repeat split; try left| |by repeat split; try left].
  unfold getToken, logged. simpl.
  destruct (tokenEndpoint _ remote) as [[error|tokens] remote']; simpl.
  - repeat split; [done..|]. right. eexists. by repeat split.
  - destruct (writeFileSync _ _ fs) as [error|fs']; simpl;
      (repeat split; [done..|]; right; eexists; by repeat split).
Qed.

(** X10. Every request that the flow started by [authenticate] sends
    to the token endpoint carries the client identifier and secret of
    the OAuth keys, the grant type [authorization_code] and a code
    that is not empty; and the endpoint is contacted at most once per
    request received. *)
Theorem token_requests_carry_the_client_keys
    (keys : OAuthKeys) (h path : string) (p : N)
    (requests : list (option string)) (fs : FS) (remote : Remote) :
  Forall (fun req =>
            tr_client_id req = keys_client_id keys /\
            tr_client_secret req = keys_client_secret keys /\
            tr_grant_type req = "authorization_code"%string /\
            tr_code req <> EmptyString)
    (serve newURL (logged tokenEndpoint) CREDENTIALS_PATH requests
       (startFlow keys h path p, (fs, (remote, [])))).2.2.2 /\
  (length (serve newURL (logged tokenEndpoint) CREDENTIALS_PATH requests
             (startFlow keys h path p, (fs, (remote, [])))).2.2.2
     <= length requests)%nat.
Proof.
  assert (forall requests f fs remote sent,
            client_id (oauth2Client f) = keys_client_id keys ->
            client_secret (oauth2Client f) = keys_client_secret keys ->
            Forall (fun req =>
                      tr_client_id req = keys_client_id keys /\
                      tr_client_secret req = keys_client_secret keys /\
                      tr_grant_type req = "authorization_code"%string /\
                      tr_code req <> EmptyString) sent ->
            Forall (fun req =>
                      tr_client_id req = keys_client_id keys /\
                      tr_client_secret req = keys_client_secret keys /\
                      tr_grant_type req = "authorization_code"%string /\
                      tr_code req <> EmptyString)
              (serve newURL (logged tokenEndpoint) CREDENTIALS_PATH requests
                 (f, (fs, (remote, sent)))).2.2.2 /\
            (length (serve newURL (logged tokenEndpoint) CREDENTIALS_PATH
                       requests (f, (fs, (remote, sent)))).2.2.2
               <= length sent + length requests)%nat) as Hgen.
  { clear. intros requests.
    induction requests as [|url requests IH]; intros f fs remote sent Hid Hsec Hsent.
    - simpl. split; [done|lia].
    - change (serve newURL (logged tokenEndpoint) CREDENTIALS_PATH
                (url :: requests) (f, (fs, (remote, sent))))
        with (serve newURL (logged tokenEndpoint) CREDENTIALS_PATH requests
                (deliver newURL (logged tokenEndpoint) CREDENTIALS_PATH url
                   (f, (fs, (remote, sent))))).
      destruct (deliver_token_requests url f fs remote sent _ _ Hid Hsec)
        as (Hid' & Hsec' & Hlog).
      destruct (deliver _ _ _ url _) as [f' [fs' [remote' sent']]].
      simpl in Hid', Hsec', Hlog.
      destruct Hlog as [->|(req & -> & Hreq)].
      + destruct (IH f' fs' remote' sent Hid' Hsec' Hsent) as [H1 H2].
        split; [done|]. simpl. lia.
      + destruct (IH f' fs' remote' (sent ++ [req]) Hid' Hsec') as [H1 H2].
        { apply Forall_app. split; [done|]. by constructor. }
        split; [done|]. rewrite length_app in H2. simpl in *. lia. }
  apply (Hgen requests (startFlow keys h path p) fs remote []); done.
Qed.

End token_requests.

Section flow_invariant_examples.
Import Json Fs OAuth OAuthExample.
Local Open Scope string_scope.

Lemma promise_is_settled_once_witness :
  promise (serve exampleURL exampleEndpoint examplePath
             [Some "/oauth2callback?code=4/0AX4XfWh"; Some "/oauth2callback"]
             (reject {| message := "No code provided" |} exampleFlow,
              (emptyFS, []))).1 =
    Rejected {| message := "No code provided" |}.
Proof.
  apply (promise_is_settled_once exampleURL exampleEndpoint examplePath
           [Some "/oauth2callback?code=4/0AX4XfWh"; Some "/oauth2callback"]
           (reject {| message := "No code provided" |} exampleFlow,
            (emptyFS, []))).
  discriminate.
Defined.

Lemma only_credentials_file_is_written_witness :
  files (serve exampleURL exampleEndpoint examplePath
           [Some "/oauth2callback?code=4/0AX4XfWh"] exampleState).2.1
    !! "/home/user/.gmail-mcp/gcp-oauth.keys.json" =
    files exampleState.2.1 !! "/home/user/.gmail-mcp/gcp-oauth.keys.json" /\
  unwritable (serve exampleURL exampleEndpoint examplePath
                [Some "/oauth2callback?code=4/0AX4XfWh"] exampleState).2.1 =
    unwritable exampleState.2.1.
Proof.
  apply (only_credentials_file_is_written exampleURL exampleEndpoint examplePath
           [Some "/oauth2callback?code=4/0AX4XfWh"] exampleState).
  discriminate.
Defined.

Lemma exampleEndpoint_returns_objects
    (req : TokenRequest) (remote : list string) (tokens : Credentials)
    (remote' : list string) :
  exampleEndpoint req remote = (inr tokens, remote') -> NoDup tokens.*1.
Proof.
  unfold exampleEndpoint. destruct (_ && _); [|done].
  intros [= <- _]. apply exampleTokens_wf.
Qed.

Lemma fulfilled_flow_has_saved_its_credentials_witness :
  listening (serve exampleURL exampleEndpoint examplePath
               [Some "/favicon.ico"; Some "/oauth2callback?code=4/0AX4XfWh"]
               (startFlow exampleKeys "localhost" "/oauth2callback" 3000,
                (emptyFS, []))).1 = false /\
  exists client,
    loadCredentials examplePath exampleKeys ["node"; "index.js"]
      (serve exampleURL exampleEndpoint examplePath
         [Some "/favicon.ico"; Some "/oauth2callback?code=4/0AX4XfWh"]
         (startFlow exampleKeys "localhost" "/oauth2callback" 3000,
          (emptyFS, []))).2.1 = Ready client /\
    credentials client =
      credentials (oauth2Client
        (serve exampleURL exampleEndpoint examplePath
           [Some "/favicon.ico"; Some "/oauth2callback?code=4/0AX4XfWh"]
           (startFlow exampleKeys "localhost" "/oauth2callback" 3000,
            (emptyFS, []))).1).
Proof.
  apply (fulfilled_flow_has_saved_its_credentials exampleURL exampleEndpoint
           examplePath exampleKeys exampleKeys ["node"; "index.js"]
           "localhost" "/oauth2callback" 3000
           [Some "/favicon.ico"; Some "/oauth2callback?code=4/0AX4XfWh"]
           emptyFS []).
  - apply exampleEndpoint_returns_objects.
  - reflexivity.
Defined.

End flow_invariant_examples.

(** * Properties of the message encoding *)

Section encoding_facts.
Import Encoding.
Local Open Scope string_scope.

(** Arithmetic with division and remainder by constants. *)
Ltac divmod_lia := zify; Z.to_euclidean_division_equations; lia.

(** A character of the alphabet after the two replacements. *)
Lemma urlchar_facts (i : N) :
  (i < 64)%N ->
  is_urlsafe (urlchar i) = true /\ val64 (urlchar i) = Some i /\
  Ascii.eqb (urlchar i) "=" = false.
Proof.
  intros Hi. rewrite <- (N2Nat.id i).
  assert (N.to_nat i < 64)%nat as Hk by lia.
  generalize dependent (N.to_nat i). clear. intros k Hk.
  do 64 (destruct k as [|k]; [by vm_compute|]). lia.
Qed.

Lemma byte_code (a : ascii) : (N_of_ascii a < 256)%N.
Proof. apply N_ascii_bounded. Qed.

Lemma triples_ind (P : list ascii -> Prop) :
  P [] -> (forall a, P [a]) -> (forall a b, P [a; b]) ->
  (forall a b c rest, P rest -> P (a :: b :: c :: rest)) ->
  forall l, P l.
Proof.
  intros H0 H1 H2 H3. fix IH 1.
  intros [|a [|b [|c rest]]]; [done|done|done|]. apply H3, IH.
Qed.

Lemma replaced_cons (i : N) (s : string) :
  replace_char "/" "_" (replace_char "+" "-" (String (char64 i) s)) =
    String (urlchar i) (replace_char "/" "_" (replace_char "+" "-" s)).
Proof. done. Qed.

Lemma strip_padding_urlchar (i : N) (s : string) :
  (i < 64)%N ->
  strip_padding (String (urlchar i) s) = String (urlchar i) (strip_padding s).
Proof.
  intros Hi. destruct (urlchar_facts i Hi) as (_ & _ & E). simpl. by rewrite E.
Qed.

Lemma encodedMessage_one (a : ascii) :
  encodedMessage [a] =
    String (urlchar (N_of_ascii a / 4))
      (String (urlchar (N_of_ascii a mod 4 * 16)) EmptyString).
Proof.
  pose proof (byte_code a) as Ha.
  unfold encodedMessage. cbn [base64]. rewrite !replaced_cons.
  rewrite !strip_padding_urlchar by divmod_lia. done.
Qed.

Lemma encodedMessage_two (a b : ascii) :
  encodedMessage [a; b] =
    String (urlchar (N_of_ascii a / 4))
      (String (urlchar (N_of_ascii a mod 4 * 16 + N_of_ascii b / 16))
         (String (urlchar (N_of_ascii b mod 16 * 4)) EmptyString)).
Proof.
  pose proof (byte_code a) as Ha. pose proof (byte_code b) as Hb.
  unfold encodedMessage. cbn [base64]. rewrite !replaced_cons.
  rewrite !strip_padding_urlchar by divmod_lia. done.
Qed.

Lemma encodedMessage_three (a b c : ascii) (rest : list ascii) :
  encodedMessage (a :: b :: c :: rest) =
    String (urlchar (N_of_ascii a / 4))
      (String (urlchar (N_of_ascii a mod 4 * 16 + N_of_ascii b / 16))
         (String (urlchar (N_of_ascii b mod 16 * 4 + N_of_ascii c / 64))
            (String (urlchar (N_of_ascii c mod 64)) (encodedMessage rest)))).
Proof.
  pose proof (byte_code a) as Ha. pose proof (byte_code b) as Hb.
  pose proof (byte_code c) as Hc.
  unfold encodedMessage. cbn [base64]. rewrite !replaced_cons.
  rewrite !strip_padding_urlchar by divmod_lia. done.
Qed.

Lemma sextets_in_range (a b c : ascii) :
  (N_of_ascii a / 4 < 64 /\
   N_of_ascii a mod 4 * 16 < 64 /\
   N_of_ascii a mod 4 * 16 + N_of_ascii b / 16 < 64 /\
   N_of_ascii b mod 16 * 4 < 64 /\
   N_of_ascii b mod 16 * 4 + N_of_ascii c / 64 < 64 /\
   N_of_ascii c mod 64 < 64)%N.
Proof.
  pose proof (byte_code a). pose proof (byte_code b). pose proof (byte_code c).
  repeat split; divmod_lia.
Qed.

Lemma encodedMessage_shape (buffer : list ascii) :
  all_chars is_urlsafe (encodedMessage buffer) = true /\
  String.length (encodedMessage buffer) = ((4 * length buffer + 2) / 3)%nat.
Proof.
  induction buffer as [|a|a b|a b c rest [IH1 IH2]] using triples_ind.
  - done.
  - rewrite encodedMessage_one.
    destruct (sextets_in_range a a a) as (S1 & S2 & _).
    destruct (urlchar_facts _ S1) as (U1 & _).
    destruct (urlchar_facts _ S2) as (U2 & _).
    simpl. by rewrite U1, U2.
  - rewrite encodedMessage_two.
    destruct (sextets_in_range a b b) as (S1 & _ & S2 & S3 & _).
    destruct (urlchar_facts _ S1) as (U1 & _).
    destruct (urlchar_facts _ S2) as (U2 & _).
    destruct (urlchar_facts _ S3) as (U3 & _).
    simpl. by rewrite U1, U2, U3.
  - rewrite encodedMessage_three.
    destruct (sextets_in_range a b c) as (S1 & _ & S2 & _ & S3 & S4).
    destruct (urlchar_facts _ S1) as (U1 & _).
    destruct (urlchar_facts _ S2) as (U2 & _).
    destruct (urlchar_facts _ S3) as (U3 & _).
    destruct (urlchar_facts _ S4) as (U4 & _).
    cbn [all_chars String.length length]. rewrite U1, U2, U3, U4, IH1, IH2.
    split; [done|].
    replace (4 * S (S (S (length rest))) + 2)%nat
      with ((4 * length rest + 2) + 4 * 3)%nat by lia.
    rewrite Nat.div_add by lia. lia.
Qed.

(** X11. The raw text that the handlers send is unpadded base64url:
    whatever the bytes of the message, it consists of letters, digits,
    hyphens and underscores only, with no [+], [/] or [=] left, and it
    has four characters for every three bytes, rounded up. *)
Theorem encodedMessage_is_urlsafe (buffer : list ascii) :
  all_chars is_urlsafe (encodedMessage buffer) = true /\
  String.length (encodedMessage buffer) = ((4 * length buffer + 2) / 3)%nat.
Proof. apply encodedMessage_shape. Qed.

Lemma byte_of_code (a : ascii) (n : N) : n = N_of_ascii a -> ascii_of_N n = a.
Proof. intros ->. apply ascii_N_embedding. Qed.

Lemma decode_encodedMessage (buffer : list ascii) :
  decode (encodedMessage buffer) = Some buffer.
Proof.
  induction buffer as [|a|a b|a b c rest IH] using triples_ind.
  - done.
  - rewrite encodedMessage_one.
    destruct (sextets_in_range a a a) as (S1 & S2 & _).
    destruct (urlchar_facts _ S1) as (_ & V1 & _).
    destruct (urlchar_facts _ S2) as (_ & V2 & _).
    pose proof (byte_code a) as Ha.
    cbn [decode]. rewrite V1, V2. do 2 f_equal.
    apply byte_of_code. divmod_lia.
  - rewrite encodedMessage_two.
    destruct (sextets_in_range a b b) as (S1 & _ & S2 & S3 & _).
    destruct (urlchar_facts _ S1) as (_ & V1 & _).
    destruct (urlchar_facts _ S2) as (_ & V2 & _).
    destruct (urlchar_facts _ S3) as (_ & V3 & _).
    pose proof (byte_code a) as Ha. pose proof (byte_code b) as Hb.
    cbn [decode]. rewrite V1, V2, V3. f_equal.
    f_equal; [apply byte_of_code; divmod_lia|].
    f_equal. apply byte_of_code. divmod_lia.
  - rewrite encodedMessage_three.
    destruct (sextets_in_range a b c) as (S1 & _ & S2 & _ & S3 & S4).
    destruct (urlchar_facts _ S1) as (_ & V1 & _).
    destruct (urlchar_facts _ S2) as (_ & V2 & _).
    destruct (urlchar_facts _ S3) as (_ & V3 & _).
    destruct (urlchar_facts _ S4) as (_ & V4 & _).
    pose proof (byte_code a) as Ha. pose proof (byte_code b) as Hb.
    pose proof (byte_code c) as Hc.
    cbn [decode]. rewrite V1, V2, V3, V4, IH. f_equal.
    f_equal; [apply byte_of_code; divmod_lia|].
    f_equal; [apply byte_of_code; divmod_lia|].
    f_equal. apply byte_of_code. divmod_lia.
Qed.

(** X12. The encoding loses nothing: two messages with the same raw
    text have the same bytes, although the padding is stripped. *)
Theorem encodedMessage_is_injective (buffer1 buffer2 : list ascii) :
  encodedMessage buffer1 = encodedMessage buffer2 -> buffer1 = buffer2.
Proof.
  intros Heq. apply (f_equal decode) in Heq.
  rewrite !decode_encodedMessage in Heq. congruence.
Qed.

End encoding_facts.

Section encoding_examples.
Import Encoding.

Local Open Scope string_scope.

Lemma encodedMessage_is_injective_witness :
  ["M"; "e"]%char = ["M"; "e"]%char.
Proof. apply encodedMessage_is_injective. reflexivity. Defined.

End encoding_examples.

(** * Properties of the tool handlers *)

Section tool_facts.
Import Fs Encoding Tools.
Context {Args W : Type}.
Variable gmail : GmailCall -> W -> (Error + option string) * W.
Variable createEmailMessage : SendEmailArgs -> Error + string.
Variable createEmailWithNodemailer : SendEmailArgs -> W -> (Error + string) * W.
Variable Buffer_from : string -> list ascii.
Variable console_error : string -> W -> W.
Variable parseSendEmail : Args -> Error + SendEmailArgs.
Variable parseModifyEmail : Args -> Error + ModifyEmailArgs.
Variable parseDeleteEmail : Args -> Error + DeleteEmailArgs.
Variable readEmail : Args -> W -> (Error + ToolResult) * W.
Variable searchEmails : Args -> W -> (Error + ToolResult) * W.
Variable listEmailLabels : W -> (Error + ToolResult) * W.

Local Open Scope string_scope.

Lemma truthy_not_empty (s : option string) : truthy s <> Some EmptyString.
Proof. by destruct s as [[|]|]. Qed.

Lemma handleEmailAction_requests (action : Action)
    (validatedArgs : SendEmailArgs) (w : W) :
  let run :=
    handleEmailAction (logged gmail) createEmailMessage
      (aside createEmailWithNodemailer) Buffer_from
      (fun line wl => (console_error line wl.1, wl.2))
      action validatedArgs (w, []) in
  run.2.2 = [] \/
  exists message, run.2.2 = [requestOf Buffer_from action message validatedArgs].
Proof.
  cbn zeta. unfold handleEmailAction, rethrow, aside, logged.
  destruct (hasAttachments validatedArgs); cbn [fst snd].
  - destruct (createEmailWithNodemailer validatedArgs w) as [[e|m] w1];
      [by left|].
    cbn [fst snd]. right. exists m.
    by destruct (gmail _ w1) as [[e|i] w2].
  - destruct (createEmailMessage validatedArgs) as [e|m]; [by left|].
    right. exists m. by destruct (gmail _ w) as [[e|i] w2].
Qed.

(** X13. [send_email] and [draft_email] make at most one request, each
    to its own endpoint: sending never creates a draft and drafting
    never sends.  The raw text of the request is URL-safe and its
    thread, when it has one, is not empty. *)
Theorem send_and_draft_make_one_request_of_their_kind (args : Args) (w : W) :
  let requests name :=
    (requestsOf gmail createEmailMessage createEmailWithNodemailer
       Buffer_from console_error parseSendEmail parseModifyEmail
       parseDeleteEmail readEmail searchEmails listEmailLabels
       name args w).2 in
  (requests "send_email" = [] \/
   exists raw thread,
     requests "send_email" = [messages_send raw thread] /\
     all_chars is_urlsafe raw = true /\ thread <> Some EmptyString) /\
  (requests "draft_email" = [] \/
   exists raw thread,
     requests "draft_email" = [drafts_create raw thread] /\
     all_chars is_urlsafe raw = true /\ thread <> Some EmptyString).
Proof.
  cbn zeta. unfold requestsOf, handleToolCall, dispatch.
  cbn [String.eqb Ascii.eqb Bool.eqb orb].
  destruct (parseSendEmail args) as [e|validatedArgs]; [by split; left|].
  split.
  - pose proof (handleEmailAction_requests send validatedArgs w) as H.
    cbn zeta in H.
    destruct (handleEmailAction _ _ _ _ _ send validatedArgs (w, []))
      as [[e|r] [w' l]]; cbn [fst snd] in *.
    all: destruct H as [->|[m ->]]; [by left|right].
    all: eexists _, _; split; [done|].
    all: split; [apply encodedMessage_shape|apply truthy_not_empty].
  - pose proof (handleEmailAction_requests draft validatedArgs w) as H.
    cbn zeta in H.
    destruct (handleEmailAction _ _ _ _ _ draft validatedArgs (w, []))
      as [[e|r] [w' l]]; cbn [fst snd] in *.
    all: destruct H as [->|[m ->]]; [by left|right].
    all: eexists _, _; split; [done|].
    all: split; [apply encodedMessage_shape|apply truthy_not_empty].
Qed.

(** The result that [handleToolCall] makes of a thrown error. *)
Lemma handleToolCall_throw (name : string) (args : Args) (w w' : W)
    (error : Error) :
  dispatch gmail createEmailMessage createEmailWithNodemailer Buffer_from
    console_error parseSendEmail parseModifyEmail parseDeleteEmail
    readEmail searchEmails listEmailLabels name args w = (inl error, w') ->
  handleToolCall gmail createEmailMessage createEmailWithNodemailer
    Buffer_from console_error parseSendEmail parseModifyEmail
    parseDeleteEmail readEmail searchEmails listEmailLabels name args w =
  ({| text := "Error: " ++ message error; isError := true |}, w').
Proof. unfold handleToolCall. by intros ->. Qed.

(** X14. A name outside the seven tools of the [switch] yields an error
    result that quotes the name, and the world is left as it was. *)
Theorem unknown_tool_is_reported (name : string) (args : Args) (w : W) :
  name ∉ ["send_email"; "draft_email"; "read_email"; "search_emails";
          "modify_email"; "delete_email"; "list_email_labels"] ->
  handleToolCall gmail createEmailMessage createEmailWithNodemailer
    Buffer_from console_error parseSendEmail parseModifyEmail
    parseDeleteEmail readEmail searchEmails listEmailLabels name args w =
  ({| text := "Error: Unknown tool: " ++ name; isError := true |}, w).
Proof.
  intros Hname.
  change ("Error: Unknown tool: " ++ name)
    with ("Error: " ++ message {| message := "Unknown tool: " ++ name |}).
  apply handleToolCall_throw. unfold dispatch.
  repeat match goal with
  | |- context [String.eqb name ?s] =>
      destruct (String.eqb_spec name s) as [->|_];
        [exfalso; apply Hname; set_solver|]
  end.
  done.
Qed.

(** X15. Arguments that the schema of the tool rejects reach neither
    the API nor the message builders: the world is left as it was and
    the result reports the error of the validation. *)
Theorem rejected_arguments_change_nothing (args : Args) (w : W)
    (error : Error) :
  let handle :=
    handleToolCall gmail createEmailMessage createEmailWithNodemailer
      Buffer_from console_error parseSendEmail parseModifyEmail
      parseDeleteEmail readEmail searchEmails listEmailLabels in
  let reported := {| text := "Error: " ++ message error; isError := true |} in
  (parseSendEmail args = inl error ->
   handle "send_email" args w = (reported, w) /\
   handle "draft_email" args w = (reported, w)) /\
  (parseModifyEmail args = inl error ->
   handle "modify_email" args w = (reported, w)) /\
  (parseDeleteEmail args = inl error ->
   handle "delete_email" args w = (reported, w)).
Proof.
  cbn zeta. unfold handleToolCall, dispatch.
  cbn [String.eqb Ascii.eqb Bool.eqb orb].
  split; [|split]; intros ->; [by split|done..].
Qed.

(** X16. [modify_email] with valid arguments makes exactly one request,
    to [users.messages.modify].  The labels it adds are those of
    [addLabelIds] when that is given, even as an empty list, and those
    of [labelIds] only otherwise. *)
Theorem modify_email_prefers_addLabelIds (args : Args) (w : W)
    (validatedArgs : ModifyEmailArgs) :
  parseModifyEmail args = inr validatedArgs ->
  (requestsOf gmail createEmailMessage createEmailWithNodemailer
     Buffer_from console_error parseSendEmail parseModifyEmail
     parseDeleteEmail readEmail searchEmails listEmailLabels
     "modify_email" args w).2 =
  [messages_modify (modify_messageId validatedArgs)
     (match addLabelIds validatedArgs with
      | Some ids => Some ids
      | None => labelIds validatedArgs
      end)
     (removeLabelIds validatedArgs)].
Proof.
  intros Hparse. unfold requestsOf, handleToolCall, dispatch.
  cbn [String.eqb Ascii.eqb Bool.eqb orb]. rewrite Hparse.
  unfold logged, requestAddLabelIds. cbn [fst snd].
  by destruct (gmail _ w) as [[e|i] w1].
Qed.

End tool_facts.

Section tool_examples.
Import Fs Encoding Tools ToolsExample.

Local Open Scope string_scope.

Lemma unknown_tool_is_reported_witness :
  handleToolCall exampleGmail exampleMessage exampleNodemailer
    String.list_ascii_of_string exampleConsole exampleParseSend
    exampleParseModify exampleParseDelete exampleCase exampleCase
    (exampleCase "labels") "batch_modify_emails" "18c2f0" 0%nat =
  ({| text := "Error: Unknown tool: batch_modify_emails"; isError := true |},
   0%nat).
Proof.
  apply (unknown_tool_is_reported exampleGmail exampleMessage
           exampleNodemailer String.list_ascii_of_string exampleConsole
           exampleParseSend exampleParseModify exampleParseDelete
           exampleCase exampleCase (exampleCase "labels")
           "batch_modify_emails" "18c2f0" 0%nat).
  intros Hin.
  repeat (apply elem_of_cons in Hin as [Hin|Hin]; [discriminate Hin|]).
  by apply elem_of_nil in Hin.
Defined.

Lemma rejected_arguments_change_nothing_witness :
  let handle :=
    handleToolCall exampleGmail exampleMessage exampleNodemailer
      String.list_ascii_of_string exampleConsole exampleParseSend
      exampleParseModify exampleParseDelete exampleCase exampleCase
      (exampleCase "labels") in
  let reported :=
    {| text := "Error: messageId: Required"; isError := true |} in
  handle "send_email" EmptyString 0%nat = (reported, 0%nat) /\
  handle "draft_email" EmptyString 0%nat = (reported, 0%nat) /\
  handle "modify_email" EmptyString 0%nat = (reported, 0%nat) /\
  handle "delete_email" EmptyString 0%nat = (reported, 0%nat).
Proof.
  destruct (rejected_arguments_change_nothing exampleGmail exampleMessage
              exampleNodemailer String.list_ascii_of_string exampleConsole
              exampleParseSend exampleParseModify exampleParseDelete
              exampleCase exampleCase (exampleCase "labels")
              EmptyString 0%nat required) as (Hsend & Hmodify & Hdelete).
  destruct (Hsend eq_refl) as [Hs Hd].
  exact (conj Hs (conj Hd (conj (Hmodify eq_refl) (Hdelete eq_refl)))).
Defined.

Lemma modify_email_prefers_addLabelIds_witness :
  (requestsOf exampleGmail exampleMessage exampleNodemailer
     String.list_ascii_of_string exampleConsole exampleParseSend
     exampleParseModify exampleParseDelete exampleCase exampleCase
     (exampleCase "labels") "modify_email" "18c2f0" 0%nat).2 =
  [messages_modify "18c2f0" (Some []) (Some ["INBOX"])].
Proof.
  apply (modify_email_prefers_addLabelIds exampleGmail exampleMessage
           exampleNodemailer String.list_ascii_of_string exampleConsole
           exampleParseSend exampleParseModify exampleParseDelete
           exampleCase exampleCase (exampleCase "labels") "18c2f0" 0%nat
           {| modify_messageId := "18c2f0";
              labelIds := Some ["STARRED"];
              addLabelIds := Some [];
              removeLabelIds := Some ["INBOX"] |}).
  reflexivity.
Defined.

End tool_examples.

(** * Properties of the configuration paths *)

Section scan_facts.
Import Encoding Paths.

Local Open Scope string_scope.
Local Arguments String.append !_ _ / : simpl nomatch.

Lemma span_app (p : ascii -> bool) (s : string) :
  (span p s).1 ++ (span p s).2 = s.
Proof.
  induction s as [|c s IH]; [done|]. cbn [span].
  destruct (p c); [|done].
  destruct (span p s) as [a b]. cbn [fst snd] in *. simpl. by rewrite IH.
Qed.

Lemma span_stop (p : ascii -> bool) (name : string) (c : ascii)
    (post : string) :
  all_chars p name = true -> p c = false ->
  span p (name ++ String c post) = (name, String c post).
Proof.
  intros Hname Hc. induction name as [|x name IH]; simpl in *.
  - by rewrite Hc.
  - apply andb_true_iff in Hname as [-> Hname]. by rewrite IH.
Qed.

Lemma span_all (p : ascii -> bool) (name post : string) :
  all_chars p name = true ->
  (forall d rest, post = String d rest -> p d = false) ->
  span p (name ++ post) = (name, post).
Proof.
  intros Hname Hpost. induction name as [|x name IH]; simpl in *.
  - destruct post as [|d rest]; [done|]. cbn [span].
    by rewrite (Hpost d rest eq_refl).
  - apply andb_true_iff in Hname as [-> Hname]. by rewrite IH.
Qed.

Lemma without_app (c : ascii) (a b : string) :
  without c (a ++ b) = without c a && without c b.
Proof.
  unfold without. induction a as [|x a IH]; simpl; [done|].
  by rewrite IH, andb_assoc.
Qed.

Lemma without_cons (c x : ascii) (rest : string) :
  without c (String x rest) = negb (Ascii.eqb x c) && without c rest.
Proof. done. Qed.

Lemma without_head (c : ascii) (rest : string) :
  without c (String c rest) = false.
Proof. unfold without. simpl. by rewrite Ascii.eqb_refl. Qed.

Lemma all_chars_impl (P Q : ascii -> bool) (s : string) :
  (forall c, P c = true -> Q c = true) ->
  all_chars P s = true -> all_chars Q s = true.
Proof.
  intros HPQ. induction s as [|c s IH]; simpl; [done|].
  intros [Hc Hs]%andb_true_iff. by rewrite (HPQ c Hc), IH.
Qed.

Lemma nameChar_not_special (c : ascii) :
  nameChar c = true ->
  Ascii.eqb c "%" = false /\ Ascii.eqb c "$" = false /\
  Ascii.eqb c "{" = false /\ Ascii.eqb c "}" = false.
Proof. by destruct c as [[] [] [] [] [] [] [] []]. Qed.

Lemma nameStart_nameChar (c : ascii) : nameStart c = true -> nameChar c = true.
Proof. unfold nameChar. by intros ->. Qed.

Section scan.
Variable matchAt : string -> option (string * string * string).
Variable fn : string -> string -> string.
Variable t : ascii.

Hypothesis matchAt_head :
  forall s m g a, matchAt s = Some (m, g, a) -> exists rest, s = String t rest.

Lemma replaceAll_plain (fuel : nat) (s : string) :
  without t s = true -> replaceAll matchAt fn fuel s = s.
Proof.
  revert s. induction fuel as [|fuel IH]; intros s Hs; [done|].
  destruct s as [|c rest]; [done|]. cbn [replaceAll].
  destruct (matchAt (String c rest)) as [[[m g] a]|] eqn:Hm.
  - apply matchAt_head in Hm as [r [= -> _]].
    by rewrite without_head in Hs.
  - f_equal. apply IH. unfold without in *. simpl in Hs.
    by apply andb_true_iff in Hs as [_ Hs].
Qed.

Lemma replaceAll_prefix (fuel : nat) (pre s : string) :
  without t pre = true ->
  replaceAll matchAt fn (String.length pre + fuel) (pre ++ s) =
  pre ++ replaceAll matchAt fn fuel s.
Proof.
  intros Hpre. induction pre as [|c pre IH]; [done|].
  cbn [String.length Nat.add replaceAll]. simpl.
  destruct (matchAt (String c (pre ++ s))) as [[[m g] a]|] eqn:Hm.
  - apply matchAt_head in Hm as [r [= -> _]].
    by rewrite without_head in Hpre.
  - f_equal. apply IH. unfold without in *. simpl in Hpre.
    by apply andb_true_iff in Hpre as [_ Hpre].
Qed.

Lemma replace_plain (s : string) :
  without t s = true -> replace matchAt fn s = s.
Proof. apply replaceAll_plain. Qed.

(** One match between texts that hold no [t]. *)
Lemma replace_one (pre post m g : string) (c : ascii) (rest : string) :
  without t pre = true -> without t post = true ->
  matchAt (String c rest) = Some (m, g, post) ->
  replace matchAt fn (pre ++ String c rest) = pre ++ fn m g ++ post.
Proof.
  intros Hpre Hpost Hm. unfold replace.
  rewrite length_append, replaceAll_prefix by done. f_equal.
  cbn [String.length replaceAll]. rewrite Hm.
  by rewrite replaceAll_plain.
Qed.

(** A [t] at which the pattern does not match, between texts that
    hold no [t]. *)
Lemma replace_skip (pre post : string) :
  without t pre = true -> without t post = true ->
  matchAt (String t post) = None ->
  replace matchAt fn (pre ++ String t post) = pre ++ String t post.
Proof.
  intros Hpre Hpost Hm. unfold replace.
  rewrite length_append, replaceAll_prefix by done. f_equal.
  cbn [String.length replaceAll]. rewrite Hm.
  by rewrite replaceAll_plain.
Qed.

(** A replacer that returns the matched text for every name that the
    scan finds changes nothing. *)
Lemma replaceAll_id (fuel : nat) (s : string) :
  (forall s m g a, matchAt s = Some (m, g, a) -> s = m ++ a) ->
  (forall m g, g ∈ names matchAt fuel s -> fn m g = m) ->
  replaceAll matchAt fn fuel s = s.
Proof.
  intros Hsound. revert s. induction fuel as [|fuel IH]; intros s Hid; [done|].
  destruct s as [|c rest]; [done|]. cbn [replaceAll names] in *.
  destruct (matchAt (String c rest)) as [[[m g] a]|] eqn:Hm.
  - rewrite (Hid m g) by left.
    rewrite IH; [by rewrite <- (Hsound _ _ _ _ Hm)|].
    intros m' g' Hg'. apply Hid. by right.
  - by rewrite IH.
Qed.

End scan.

Lemma matchPercent_head s m g a :
  matchPercent s = Some (m, g, a) -> exists rest, s = String "%" rest.
Proof.
  destruct s as [|c rest]; [done|]. unfold matchPercent.
  destruct (Ascii.eqb_spec c "%") as [->|Hc]; [by eexists|].
  by destruct c as [[] [] [] [] [] [] [] []].
Qed.

Lemma matchBraces_head s m g a :
  matchBraces s = Some (m, g, a) -> exists rest, s = String "$" rest.
Proof.
  destruct s as [|c rest]; [done|]. unfold matchBraces.
  destruct (Ascii.eqb_spec c "$") as [->|Hc]; [by eexists|].
  by destruct c as [[] [] [] [] [] [] [] []].
Qed.

Lemma matchDollar_head s m g a :
  matchDollar s = Some (m, g, a) -> exists rest, s = String "$" rest.
Proof.
  destruct s as [|c rest]; [done|]. unfold matchDollar.
  destruct (Ascii.eqb_spec c "$") as [->|Hc]; [by eexists|].
  by destruct c as [[] [] [] [] [] [] [] []].
Qed.

Lemma matchPercent_sound s m g a :
  matchPercent s = Some (m, g, a) -> s = m ++ a.
Proof.
  intros Hm. destruct (matchPercent_head _ _ _ _ Hm) as [rest ->].
  cbn [matchPercent] in Hm. pose proof (span_app (fun c => negb (Ascii.eqb c "%")) rest) as Hs.
  destruct (span _ rest) as [[|c name] [|d after]]; try done.
  cbn [fst snd] in Hs.
  destruct (Ascii.eqb_spec d "%") as [->|Hd];
    [|by destruct d as [[] [] [] [] [] [] [] []]].
  injection Hm as <- <- <-. rewrite <- Hs. simpl. f_equal. f_equal.
  by rewrite append_assoc.
Qed.

Lemma matchBraces_sound s m g a :
  matchBraces s = Some (m, g, a) -> s = m ++ a.
Proof.
  intros Hm. destruct (matchBraces_head _ _ _ _ Hm) as [rest ->].
  cbn [matchBraces] in Hm. destruct rest as [|b rest]; [done|].
  destruct (Ascii.eqb_spec b "{") as [->|Hb];
    [|by destruct b as [[] [] [] [] [] [] [] []]].
  pose proof (span_app (fun c => negb (Ascii.eqb c "}")) rest) as Hs.
  destruct (span _ rest) as [[|c name] [|d after]]; try done.
  cbn [fst snd] in Hs.
  destruct (Ascii.eqb_spec d "}") as [->|Hd];
    [|by destruct d as [[] [] [] [] [] [] [] []]].
  injection Hm as <- <- <-. rewrite <- Hs. simpl. do 3 f_equal.
  by rewrite append_assoc.
Qed.

Lemma matchDollar_sound s m g a :
  matchDollar s = Some (m, g, a) -> s = m ++ a.
Proof.
  intros Hm. destruct (matchDollar_head _ _ _ _ Hm) as [rest ->].
  cbn [matchDollar] in Hm. destruct rest as [|b rest]; [done|].
  destruct (nameStart b); [|done].
  pose proof (span_app nameChar rest) as Hs.
  destruct (span nameChar rest) as [name after]. cbn [fst snd] in Hs.
  injection Hm as <- <- <-. by rewrite <- Hs.
Qed.

End scan_facts.

Section path_facts.
Import Encoding Tools Paths.

Variable homedir : string.
Variable variables : string -> option string.
Variable inherited : string -> option string.
Variable win32 : bool.
Variable toUpperCase : string -> string.

Local Open Scope string_scope.
Local Arguments String.append !_ _ / : simpl nomatch.

Lemma truthy_some (s : string) : s <> EmptyString -> truthy (Some s) = Some s.
Proof. by destruct s. Qed.

Lemma getSubstitution_literal (matched before after replacement : string) :
  without "$" replacement = true ->
  getSubstitution matched before after replacement = replacement.
Proof.
  unfold without. induction replacement as [|c r IH]; [done|].
  cbn [all_chars getSubstitution]. intros [Hc Hr]%andb_true_iff.
  apply negb_true_iff in Hc. rewrite Hc. by rewrite IH.
Qed.

Lemma expandHome_other (p : string) :
  (forall rest, p = String "~" rest -> atBoundary rest = false) ->
  expandHome homedir p = p.
Proof.
  intros Hp. destruct p as [|c rest]; [done|]. unfold expandHome.
  destruct (Ascii.eqb_spec c "~") as [->|Hc].
  - by rewrite (Hp rest eq_refl).
  - by destruct c as [[] [] [] [] [] [] [] []].
Qed.

Lemma expandHome_without_tilde (pre rest : string) (c : ascii) :
  without "~" pre = true -> Ascii.eqb c "~" = false ->
  expandHome homedir (pre ++ String c rest) = pre ++ String c rest.
Proof.
  intros Hpre Hc. apply expandHome_other. intros r Hr.
  destruct pre as [|x pre]; simpl in Hr.
  - injection Hr as -> _. by rewrite Ascii.eqb_refl in Hc.
  - injection Hr as -> _. by rewrite without_head in Hpre.
Qed.

(** The three replacements leave a text as it is when none of the
    names that it refers to yields a value. *)
Lemma replacements_without_values (s : string) :
  win32 = false ->
  (forall name, name ∈ referenced s ->
                processEnv variables inherited name = None) ->
  replace matchDollar (posixVar variables inherited)
    (replace matchBraces (posixVar variables inherited)
       (replace matchPercent
          (percentVar homedir variables inherited win32 toUpperCase) s)) = s.
Proof.
  intros Hwin Hunset. unfold replace, referenced in *.
  rewrite (replaceAll_id matchPercent).
  2: { intros t m g a Hm. by eapply matchPercent_sound. }
  2: { intros m g Hg. unfold percentVar.
       rewrite Hunset, Hwin; [done|]. apply elem_of_app. by left. }
  rewrite (replaceAll_id matchBraces).
  2: { intros t m g a Hm. by eapply matchBraces_sound. }
  2: { intros m g Hg. unfold posixVar.
       rewrite Hunset; [done|]. apply elem_of_app. right.
       apply elem_of_app. by left. }
  rewrite (replaceAll_id matchDollar); [done| |].
  - intros t m g a Hm. by eapply matchDollar_sound.
  - intros m g Hg. unfold posixVar.
    rewrite Hunset; [done|]. apply elem_of_app. right.
    apply elem_of_app. by right.
Qed.

(** X17. When none of the names that a path refers to, as [%NAME%],
    [${NAME}] or [$NAME], yields a value in [process.env] (and the
    platform is not Windows), the path comes back as it was written,
    percent and dollar signs included, unless it starts with a tilde
    that is followed by a slash, a backslash or nothing; a tilde
    before a user name is not expanded.  What the environment holds
    under other names plays no role. *)
Theorem expandTilde_leaves_unset_variables (p : string) :
  (forall name, name ∈ referenced p ->
                processEnv variables inherited name = None) ->
  win32 = false ->
  p <> EmptyString ->
  (forall rest, p = String "~" rest -> atBoundary rest = false) ->
  expandTilde homedir variables inherited win32 toUpperCase (Some p) = Some p.
Proof.
  intros Henv Hwin Hp Htilde. unfold expandTilde.
  rewrite truthy_some by done. cbn zeta.
  rewrite expandHome_other by done.
  by rewrite replacements_without_values.
Qed.

(** X18. A leading tilde that is followed by a slash, a backslash or
    nothing stands for the home directory: when the name of the home
    directory has no dollar sign, and none of the names that the
    expanded path refers to yields a value in [process.env] (platform
    not Windows), the tilde is replaced by the home directory and the
    rest of the path is kept. *)
Theorem expandTilde_expands_leading_tilde (rest : string) :
  (forall name, name ∈ referenced (homedir ++ rest) ->
                processEnv variables inherited name = None) ->
  win32 = false ->
  without "$" homedir = true ->
  atBoundary rest = true ->
  expandTilde homedir variables inherited win32 toUpperCase
    (Some (String "~" rest)) = Some (homedir ++ rest).
Proof.
  intros Henv Hwin Hhome Hrest. unfold expandTilde.
  rewrite truthy_some by done. cbn zeta. cbn [expandHome].
  rewrite Hrest, getSubstitution_literal by done.
  by rewrite replacements_without_values.
Qed.

Lemma isName_without (name : string) :
  isName name = true ->
  without "%" name = true /\ without "$" name = true /\
  without "}" name = true /\
  exists c n, name = String c n /\ nameStart c = true /\
              all_chars nameChar n = true /\ Ascii.eqb c "{" = false.
Proof.
  destruct name as [|c n]; [done|]. cbn [isName].
  intros [Hc Hn]%andb_true_iff.
  assert (all_chars nameChar (String c n) = true) as Hall.
  { cbn [all_chars]. by rewrite (nameStart_nameChar c Hc), Hn. }
  repeat split.
  - revert Hall. apply all_chars_impl. intros x Hx.
    by destruct (nameChar_not_special x Hx) as (-> & _).
  - revert Hall. apply all_chars_impl. intros x Hx.
    by destruct (nameChar_not_special x Hx) as (_ & -> & _).
  - revert Hall. apply all_chars_impl. intros x Hx.
    by destruct (nameChar_not_special x Hx) as (_ & _ & _ & ->).
  - exists c, n. repeat split; try done.
    by destruct (nameChar_not_special c (nameStart_nameChar c Hc))
      as (_ & _ & -> & _).
Qed.

(** X19. A variable that is set to a text that is not empty is
    replaced by that text, whether the path names it as [%NAME%], as
    [${NAME}] or as [$NAME]; for the last form the name ends where the
    letters, digits and underscores end.  The text before and after
    the reference, and the value, are taken to hold no percent or
    dollar sign of their own. *)
Theorem expandTilde_substitutes_set_variable (pre name value post : string) :
  isName name = true ->
  variables name = Some value ->
  value <> EmptyString ->
  plain pre = true -> plain value = true -> plain post = true ->
  without "~" pre = true ->
  expandTilde homedir variables inherited win32 toUpperCase
    (Some (pre ++ "%" ++ name ++ "%" ++ post)) = Some (pre ++ value ++ post) /\
  expandTilde homedir variables inherited win32 toUpperCase
    (Some (pre ++ "${" ++ name ++ "}" ++ post)) = Some (pre ++ value ++ post) /\
  ((forall d rest, post = String d rest -> nameChar d = false) ->
   expandTilde homedir variables inherited win32 toUpperCase
     (Some (pre ++ "$" ++ name ++ post)) = Some (pre ++ value ++ post)).
Proof.
  intros Hname Henv Hvalue [Hpre1 Hpre2]%andb_true_iff
    [Hval1 Hval2]%andb_true_iff [Hpost1 Hpost2]%andb_true_iff Htilde.
  destruct (isName_without name Hname)
    as (Hn1 & Hn2 & Hn3 & c & n & -> & Hc & Hn & Hbrace).
  assert (processEnv variables inherited (String c n) = Some value)
    as Htruthy.
  { unfold processEnv. rewrite Henv. by apply truthy_some. }
  assert (forall x rest, pre ++ String x rest <> EmptyString) as Hne.
  { intros x rest. by destruct pre. }
  assert (without "$" (pre ++ value ++ post) = true) as Hout.
  { by rewrite !without_app, Hpre2, Hval2, Hpost2. }
  split; [|split].
  - change (pre ++ "%" ++ String c n ++ "%" ++ post)
      with (pre ++ String "%" (String c (n ++ String "%" post))).
    unfold expandTilde. rewrite truthy_some by apply Hne. cbn zeta.
    rewrite expandHome_without_tilde by done.
    rewrite (replace_one matchPercent _ "%" matchPercent_head
               pre post ("%" ++ String c n ++ "%") (String c n)); [|done..|].
    2: { cbn [matchPercent].
         change (String c (n ++ String "%" post))
           with (String c n ++ String "%" post).
         by rewrite span_stop. }
    unfold percentVar. rewrite Htruthy.
    rewrite (replace_plain matchBraces _ "$" matchBraces_head) by done.
    by rewrite (replace_plain matchDollar _ "$" matchDollar_head).
  - change (pre ++ "${" ++ String c n ++ "}" ++ post)
      with (pre ++ String "$" (String "{" (String c (n ++ String "}" post)))).
    unfold expandTilde. rewrite truthy_some by apply Hne. cbn zeta.
    rewrite expandHome_without_tilde by done.
    rewrite (replace_plain matchPercent _ "%" matchPercent_head).
    2: { rewrite without_cons in Hn1.
         apply andb_true_iff in Hn1 as [Hc1 Hn1].
         repeat (rewrite without_app || rewrite without_cons).
         by rewrite Hpre1, Hc1, Hn1, Hpost1. }
    rewrite (replace_one matchBraces _ "$" matchBraces_head
               pre post ("${" ++ String c n ++ "}") (String c n)); [|done..|].
    2: { cbn [matchBraces].
         change (String c (n ++ String "}" post))
           with (String c n ++ String "}" post).
         by rewrite span_stop. }
    unfold posixVar. rewrite Htruthy. cbn [default].
    by rewrite (replace_plain matchDollar _ "$" matchDollar_head).
  - intros Hpost.
    change (pre ++ "$" ++ String c n ++ post)
      with (pre ++ String "$" (String c (n ++ post))).
    unfold expandTilde. rewrite truthy_some by apply Hne. cbn zeta.
    rewrite expandHome_without_tilde by done.
    assert (without "$" (String c (n ++ post)) = true) as Hrest.
    { change (String c (n ++ post)) with (String c n ++ post).
      by rewrite without_app, Hn2, Hpost2. }
    rewrite (replace_plain matchPercent _ "%" matchPercent_head).
    2: { rewrite without_cons in Hn1.
         apply andb_true_iff in Hn1 as [Hc1 Hn1].
         repeat (rewrite without_app || rewrite without_cons).
         by rewrite Hpre1, Hc1, Hn1, Hpost1. }
    rewrite (replace_skip matchBraces _ "$" matchBraces_head); [|done..|].
    2: { cbn [matchBraces]. by destruct c as [[] [] [] [] [] [] [] []]. }
    rewrite (replace_one matchDollar _ "$" matchDollar_head
               pre post (String "$" (String c n)) (String c n)); [|done..|].
    2: { cbn [matchDollar]. by rewrite Hc, span_all. }
    unfold posixVar. by rewrite Htruthy.
Qed.

End path_facts.

Section path_examples.
Import Paths PathsExample.

Local Open Scope string_scope.

Lemma expandTilde_leaves_unset_variables_witness :
  expandTilde "/home/ada" exampleEnv exampleInherited false asciiUpper
    (Some "~ada/%TEMP%/$HOME/${USER}") =
  Some "~ada/%TEMP%/$HOME/${USER}".
Proof.
  apply (expandTilde_leaves_unset_variables "/home/ada" exampleEnv
           exampleInherited false asciiUpper "~ada/%TEMP%/$HOME/${USER}").
  - intros name Hin.
    replace (referenced "~ada/%TEMP%/$HOME/${USER}")
      with ["TEMP"; "USER"; "HOME"] in Hin by reflexivity.
    repeat (apply elem_of_cons in Hin as [->|Hin]; [reflexivity|]).
    by apply elem_of_nil in Hin.
  - reflexivity.
  - discriminate.
  - intros rest [= <-]. reflexivity.
Defined.

Lemma expandTilde_expands_leading_tilde_witness :
  expandTilde "/home/ada" exampleEnv exampleInherited false asciiUpper
    (Some "~/.gmail-mcp/$PROFILE/credentials.json") =
  Some "/home/ada/.gmail-mcp/$PROFILE/credentials.json".
Proof.
  apply (expandTilde_expands_leading_tilde "/home/ada" exampleEnv
           exampleInherited false asciiUpper
           "/.gmail-mcp/$PROFILE/credentials.json"); try reflexivity.
  intros name Hin.
  replace (referenced ("/home/ada" ++ "/.gmail-mcp/$PROFILE/credentials.json"))
    with ["PROFILE"] in Hin by reflexivity.
  repeat (apply elem_of_cons in Hin as [->|Hin]; [reflexivity|]).
  by apply elem_of_nil in Hin.
Defined.

Lemma expandTilde_substitutes_set_variable_witness :
  let expand :=
    expandTilde "/home/ada" exampleEnv exampleInherited true asciiUpper in
  expand (Some "/mnt/%XDG_CONFIG_HOME%/gmail.json") =
    Some "/mnt//home/ada/.config/gmail.json" /\
  expand (Some "/mnt/${XDG_CONFIG_HOME}/gmail.json") =
    Some "/mnt//home/ada/.config/gmail.json" /\
  expand (Some "/mnt/$XDG_CONFIG_HOME/gmail.json") =
    Some "/mnt//home/ada/.config/gmail.json".
Proof.
  destruct (expandTilde_substitutes_set_variable "/home/ada" exampleEnv
              exampleInherited true asciiUpper "/mnt/" "XDG_CONFIG_HOME"
              "/home/ada/.config" "/gmail.json" eq_refl eq_refl)
    as (Hpercent & Hbraces & Hdollar); [discriminate|reflexivity..|].
  refine (conj Hpercent (conj Hbraces (Hdollar _))).
  intros d rest [= <- _]. reflexivity.
Defined.

(** A name that [process.env] inherits is substituted like a variable
    that is set. *)
Example inherited_member_is_substituted :
  expandTilde "/home/ada" exampleEnv exampleInherited false asciiUpper
    (Some "$constructor/x") =
  Some "function Object() { [native code] }/x".
Proof. reflexivity. Qed.

End path_examples.

(** * Properties of the attachment list *)

Section attachment_facts.
Import Tools Paths Attachments.

Lemma GmailMessagePart_ind (P : GmailMessagePart -> Prop) :
  (forall filename mimeType body parts,
     Forall P (default [] parts) -> P (Part filename mimeType body parts)) ->
  forall part, P part.
Proof.
  intros Hpart. fix IH 1. intros [filename mimeType body parts].
  apply Hpart. destruct parts as [parts|]; [|constructor].
  cbn [default]. induction parts as [|sub parts IHparts]; constructor.
  - apply IH.
  - apply IHparts.
Qed.

Lemma truthy_is_not_empty (a : option string) (s : string) :
  truthy a = Some s -> s <> EmptyString.
Proof. destruct a as [[|c r]|]; naive_solver. Qed.

Lemma or_else_not_empty (a : option string) (b : string) :
  b <> EmptyString -> or_else a b <> EmptyString.
Proof.
  intros Hb. unfold or_else.
  destruct (truthy a) as [s|] eqn:Ha; [|done].
  by apply truthy_is_not_empty in Ha.
Qed.

Lemma fold_left_appends (f g : list EmailAttachment -> GmailMessagePart ->
                               list EmailAttachment)
    (parts : list GmailMessagePart) (attachments : list EmailAttachment) :
  Forall (fun sub => forall acc, f acc sub = acc ++ g [] sub) parts ->
  fold_left f parts attachments =
  attachments ++ concat (map (g []) parts).
Proof.
  intros Hparts. revert attachments.
  induction Hparts as [|sub parts Hsub _ IH]; intros attachments; simpl.
  - by rewrite app_nil_r.
  - by rewrite IH, Hsub, <- app_assoc.
Qed.

Lemma processAttachmentParts_appends (part : GmailMessagePart)
    (path : string) (attachments : list EmailAttachment) :
  processAttachmentParts part path attachments =
  attachments ++ processAttachmentParts part EmptyString [].
Proof.
  revert path attachments.
  induction part as [filename mimeType body parts IH]
    using GmailMessagePart_ind.
  intros path attachments. cbn [processAttachmentParts].
  destruct parts as [parts|]; cbn [default] in IH.
  - rewrite (fold_left_appends _
               (fun acc sub => processAttachmentParts sub EmptyString acc)).
    2: { eapply Forall_impl; [exact IH|]. intros sub Hsub acc. apply Hsub. }
    rewrite (fold_left_appends _
               (fun acc sub => processAttachmentParts sub EmptyString acc)
               parts (match body with Some _ => _ | None => _ end)).
    2: { eapply Forall_impl; [exact IH|]. intros sub Hsub acc. apply Hsub. }
    rewrite app_assoc. f_equal.
    destruct body as [body|]; [|by rewrite app_nil_r].
    destruct (truthy (attachmentId body)); [done|by rewrite app_nil_r].
  - destruct body as [body|]; [|by rewrite app_nil_r].
    destruct (truthy (attachmentId body)); [done|by rewrite app_nil_r].
Qed.

(** X20. The attachments of a message are listed in the order of the
    document: the attachment of a part, when it has one, comes before
    those of its parts, which follow in their order.  What was listed
    before is kept, and the path that is passed along plays no
    role. *)
Theorem processAttachmentParts_lists_in_document_order
    (filename mimeType : option string) (body : option PartBody)
    (parts : option (list GmailMessagePart)) (path : string)
    (attachments : list EmailAttachment) :
  processAttachmentParts (Part filename mimeType body parts) path attachments =
  attachments ++
  processAttachmentParts (Part filename mimeType body None) EmptyString [] ++
  concat (map (fun sub => processAttachmentParts sub EmptyString [])
            (default [] parts)).
Proof.
  cbn [processAttachmentParts].
  destruct parts as [parts|]; cbn [default concat map].
  - rewrite (fold_left_appends _
               (fun acc sub => processAttachmentParts sub EmptyString acc)).
    2: { apply Forall_forall. intros sub _ acc.
         apply processAttachmentParts_appends. }
    rewrite app_assoc. f_equal.
    destruct body as [body|]; [|by rewrite app_nil_r].
    destruct (truthy (attachmentId body)); [done|by rewrite app_nil_r].
  - rewrite app_nil_r.
    destruct body as [body|]; [|by rewrite app_nil_r].
    destruct (truthy (attachmentId body)); [done|by rewrite app_nil_r].
Qed.

Lemma processAttachmentParts_named (part : GmailMessagePart) :
  Forall (fun a => id a <> EmptyString /\
                   attachment_filename a <> EmptyString /\
                   attachment_mimeType a <> EmptyString)
    (processAttachmentParts part EmptyString []).
Proof.
  induction part as [filename mimeType body parts IH]
    using GmailMessagePart_ind.
  cbn [processAttachmentParts].
  destruct parts as [parts|]; cbn [default] in IH.
  - rewrite (fold_left_appends _
               (fun acc sub => processAttachmentParts sub EmptyString acc)).
    2: { apply Forall_forall. intros sub _ acc.
         apply processAttachmentParts_appends. }
    apply Forall_app. split.
    + destruct body as [body|]; [|constructor].
      destruct (truthy (attachmentId body)) as [i|] eqn:Hid; [|constructor].
      repeat constructor; cbn.
      * by apply truthy_is_not_empty in Hid.
      * by apply or_else_not_empty.
      * by apply or_else_not_empty.
    + apply Forall_concat, Forall_fmap. eapply Forall_impl; [exact IH|].
      by intros sub Hsub.
  - destruct body as [body|]; [|constructor].
    destruct (truthy (attachmentId body)) as [i|] eqn:Hid; [|constructor].
    repeat constructor; cbn.
    + by apply truthy_is_not_empty in Hid.
    + by apply or_else_not_empty.
    + by apply or_else_not_empty.
Qed.

(** X21. Every attachment that [read_email] lists has an identifier, a
    file name and a MIME type that are not empty, whatever fields the
    parts of the message lack. *)
Theorem listed_attachments_are_named (payload : option GmailMessagePart) :
  Forall (fun a => id a <> EmptyString /\
                   attachment_filename a <> EmptyString /\
                   attachment_mimeType a <> EmptyString)
    (attachmentsOf payload).
Proof.
  destruct payload as [payload|]; [|constructor].
  apply processAttachmentParts_named.
Qed.

End attachment_facts.

(** * The tools that are listed and the tools that are handled *)

Section advertised_tools.
Import Fs Tools.
Context {Args W : Type}.
Variable gmail : GmailCall -> W -> (Error + option string) * W.
Variable createEmailMessage : SendEmailArgs -> Error + string.
Variable createEmailWithNodemailer : SendEmailArgs -> W -> (Error + string) * W.
Variable Buffer_from : string -> list ascii.
Variable console_error : string -> W -> W.
Variable parseSendEmail : Args -> Error + SendEmailArgs.
Variable parseModifyEmail : Args -> Error + ModifyEmailArgs.
Variable parseDeleteEmail : Args -> Error + DeleteEmailArgs.
Variable readEmail : Args -> W -> (Error + ToolResult) * W.
Variable searchEmails : Args -> W -> (Error + ToolResult) * W.
Variable listEmailLabels : W -> (Error + ToolResult) * W.

Local Open Scope string_scope.

(** X22. Twelve of the nineteen tools that [main] lists have no case in
    [handleToolCall]: a call to any of them changes nothing and is
    answered with the error [Unknown tool]. *)
Theorem listed_tools_without_a_handler (args : Args) (w : W) :
  Forall (fun name =>
            name ∈ advertisedTools /\
            handleToolCall gmail createEmailMessage createEmailWithNodemailer
              Buffer_from console_error parseSendEmail parseModifyEmail
              parseDeleteEmail readEmail searchEmails listEmailLabels
              name args w =
            ({| text := "Error: Unknown tool: " ++ name; isError := true |}, w))
    ["batch_modify_emails"; "batch_delete_emails"; "create_label";
     "update_label"; "delete_label"; "get_or_create_label"; "create_filter";
     "list_filters"; "get_filter"; "delete_filter";
     "create_filter_from_template"; "download_attachment"].
Proof.
  repeat (apply Forall_cons; split; [split|]); try apply Forall_nil;
    try reflexivity.
  all: unfold advertisedTools; set_solver.
Qed.

End advertised_tools.
